(** * Dependency graph engine of server-features (api-core/database-utils.ts)

    Shallow embedding of the feature dependency engine: graph building,
    Kahn's topological sort with a priority heap, the cycle detectors, the
    scheduling scorer and the readiness classifiers, plus the
    priority-assigning and dependency-mutating tools of feature-explorer. *)

From Stdlib Require Import ZArith List Lia Permutation Sorting.Sorted QArith Lqa.
From stdpp Require Import base gmap list sorting.
From Stdlib Require Strings.String Strings.Ascii.
Import (notations) Stdlib.Strings.String Stdlib.Strings.Ascii.

Open Scope Z_scope.

(** ** Data model *)

(** [Feature] of shared-types, restricted to the fields the engine reads.
    A [null] dependency list ([feature.dependencies || []]) is the empty list. *)
Record feature := mkFeature {
  id : Z;
  priority : Z;
  dependencies : list Z;
  passes : bool;
  in_progress : bool
}.

#[global] Instance feature_eq_dec : EqDecision feature.
Proof.
  intros x y; unfold Decision.
  decide equality; solve_decision.
Defined.

Definition ids (fs : list feature) : list Z := id <$> fs.

(** [new Map(features.map((f) => [f.id, f]))]: later entries win. *)
Definition feature_map (fs : list feature) : gmap Z feature :=
  fold_left (fun m f => <[id f := f]> m) fs ∅.

(** [new Map(features.map((f) => [f.id, v]))] for a constant [v]. *)
Definition const_map {V} (fs : list feature) (v : V) : gmap Z V :=
  fold_left (fun m f => <[id f := v]> m) fs ∅.

(** ** resolve_dependencies: graph building *)

Record graph := mkGraph {
  adjacency : gmap Z (list Z);
  in_degree : gmap Z Z;
  blocked : gmap Z (list Z);
  missing : gmap Z (list Z)
}.

(** One iteration of the inner [for (const dep_id of deps)] loop. *)
Definition build_step (fm : gmap Z feature) (fid : Z) (g : graph) (dep_id : Z) : graph :=
  match fm !! dep_id with
  | None =>
      mkGraph (adjacency g) (in_degree g) (blocked g)
        (<[fid := default [] (missing g !! fid) ++ [dep_id]]> (missing g))
  | Some dep =>
      let adj := <[dep_id := default [] (adjacency g !! dep_id) ++ [fid]]> (adjacency g) in
      let deg := <[fid := default 0 (in_degree g !! fid) + 1]> (in_degree g) in
      let blk := if negb (passes dep)
                 then <[fid := default [] (blocked g !! fid) ++ [dep_id]]> (blocked g)
                 else blocked g in
      mkGraph adj deg blk (missing g)
  end.

Definition build_feature (fm : gmap Z feature) (g : graph) (f : feature) : graph :=
  fold_left (build_step fm (id f)) (dependencies f) g.

Definition build_graph (fs : list feature) : graph :=
  fold_left (build_feature (feature_map fs)) fs
    (mkGraph (const_map fs []) (const_map fs 0) ∅ ∅).

(** ** The heap of heap-js, by its observable contract

    [new Heap((a, b) => a.priority - b.priority || a.id - b.id)]: [push]
    adds an element, [pop] removes and returns an element that is minimal
    for the comparator. The heap is kept as the list of its elements. *)

Definition heap_cmp (a b : feature) : Z :=
  if decide (priority a <> priority b) then priority a - priority b else id a - id b.

Fixpoint heap_min (x : feature) (h : list feature) : feature :=
  match h with
  | [] => x
  | y :: h' => heap_min (if Z.ltb (heap_cmp y x) 0 then y else x) h'
  end.

Fixpoint remove_one (x : feature) (h : list feature) : list feature :=
  match h with
  | [] => []
  | y :: h' => if decide (x = y) then h' else y :: remove_one x h'
  end.

Definition heap_pop (h : list feature) : option (feature * list feature) :=
  match h with
  | [] => None
  | x :: h' => let m := heap_min x h' in Some (m, remove_one m h)
  end.

(** ** resolve_dependencies: Kahn's algorithm *)

(** [for (const dependent_id of adjacency.get(current.id) || [])]: decrement
    the in-degree and push the dependent when it reaches 0.  The pushed
    feature is [feature_map.get(dependent_id)!]; every dependent id is the id
    of a feature, so the [None] branch is never taken. *)
Fixpoint relax (fm : gmap Z feature) (ds : list Z) (deg : gmap Z Z) (heap : list feature)
  : gmap Z Z * list feature :=
  match ds with
  | [] => (deg, heap)
  | d :: ds' =>
      let nd := default 0 (deg !! d) - 1 in
      let heap' := if Z.eqb nd 0
                   then match fm !! d with Some f => heap ++ [f] | None => heap end
                   else heap in
      relax fm ds' (<[d := nd]> deg) heap'
  end.

(** The [while (heap.size() > 0)] loop, run for at most [fuel] iterations;
    [None] means the loop has not exited within [fuel] iterations. *)
Fixpoint kahn (fuel : nat) (fm : gmap Z feature) (adj : gmap Z (list Z))
    (deg : gmap Z Z) (heap : list feature) (ordered : list feature) : option (list feature) :=
  match fuel with
  | O => None
  | S fuel' =>
      match heap_pop heap with
      | None => Some ordered
      | Some (cur, heap1) =>
          let '(deg', heap2) := relax fm (default [] (adj !! id cur)) deg heap1 in
          kahn fuel' fm adj deg' heap2 (ordered ++ [cur])
      end
  end.

Definition kahn_seed (fs : list feature) (g : graph) : list feature :=
  filter (fun f => in_degree g !! id f = Some 0) fs.

(** The ordered prefix produced by Kahn's loop; the loop makes at most one
    iteration per feature plus the final test, see [kahn_order_spec]. *)
Definition kahn_order (fs : list feature) : option (list feature) :=
  let g := build_graph fs in
  kahn (S (length fs)) (feature_map fs) (adjacency g) (in_degree g) (kahn_seed fs g) [].

(** ** _detect_cycles

    The closure [dfs] shares [visited], [rec_stack], [path] and [cycles]
    with its caller: they are threaded as a state.  A [true] return leaves
    [path] and [rec_stack] as they are (the source returns before popping).
    [fuel] bounds the recursion depth; [None] means it was exceeded. *)
Record dfs_state := mkDfs {
  visited : gset Z;
  rec_stack : gset Z;
  path : list Z;
  cycles : list (list Z)
}.

Fixpoint index_of (x : Z) (l : list Z) : option nat :=
  match l with
  | [] => None
  | y :: l' => if Z.eqb x y then Some O else option_map S (index_of x l')
  end.

(** [path.slice(path.indexOf(dep_id))]; [indexOf] gives -1 when absent and
    [slice(-1)] keeps the last element. *)
Definition path_slice_from (x : Z) (p : list Z) : list Z :=
  match index_of x p with
  | Some i => drop i p
  | None => drop (pred (length p)) p
  end.

Fixpoint dfs (fuel : nat) (fm : gmap Z feature) (fid : Z) (s : dfs_state)
  : option (bool * dfs_state) :=
  match fuel with
  | O => None
  | S fuel' =>
      let s := mkDfs ({[fid]} ∪ visited s) ({[fid]} ∪ rec_stack s) (path s ++ [fid]) (cycles s) in
      let fix loop (deps : list Z) (s : dfs_state) : option (bool * dfs_state) :=
        match deps with
        | [] =>
            Some (false, mkDfs (visited s) (rec_stack s ∖ {[fid]})
                               (removelast (path s)) (cycles s))
        | dep_id :: deps' =>
            if decide (dep_id ∉ visited s) then
              match dfs fuel' fm dep_id s with
              | None => None
              | Some (true, s') => Some (true, s')
              | Some (false, s') => loop deps' s'
              end
            else if decide (dep_id ∈ rec_stack s) then
              Some (true, mkDfs (visited s) (rec_stack s) (path s)
                                (cycles s ++ [path_slice_from dep_id (path s)]))
            else loop deps' s
        end in
      loop (default [] (dependencies <$> fm !! fid)) s
  end.

Fixpoint detect_loop (fuel : nat) (fm : gmap Z feature) (fs : list feature) (s : dfs_state)
  : option dfs_state :=
  match fs with
  | [] => Some s
  | f :: fs' =>
      if decide (id f ∉ visited s) then
        match dfs fuel fm (id f) s with
        | None => None
        | Some (_, s') => detect_loop fuel fm fs' s'
        end
      else detect_loop fuel fm fs' s
  end.

(** Every id [dfs] is called on is a feature id or a dependency id, and each
    call marks a fresh one visited: [dfs_fuel] exceeds the recursion depth. *)
Definition dfs_fuel (fs : list feature) : nat :=
  S (length (ids fs ++ concat (map dependencies fs))).

Definition detect_cycles_fuel (fuel : nat) (fs : list feature) : option (list (list Z)) :=
  cycles <$> detect_loop fuel (feature_map fs) fs (mkDfs ∅ ∅ [] []).

Definition _detect_cycles (fs : list feature) : option (list (list Z)) :=
  detect_cycles_fuel (dfs_fuel fs) fs.

(** ** resolve_dependencies *)

Record DependencyResult := mkResult {
  ordered_features : list feature;
  circular_dependencies : list (list Z);
  blocked_features : gmap Z (list Z);
  missing_dependencies : gmap Z (list Z)
}.

Definition resolve_dependencies (fs : list feature) : option DependencyResult :=
  let g := build_graph fs in
  match kahn_order fs with
  | None => None
  | Some ordered =>
      if Nat.ltb (length ordered) (length fs) then
        let remaining := filter (fun f => f ∉ ordered) fs in
        match _detect_cycles remaining with
        | None => None
        | Some cyc => Some (mkResult (ordered ++ remaining) cyc (blocked g) (missing g))
        end
      else Some (mkResult ordered [] (blocked g) (missing g))
  end.

(** ** Limits (part_005) *)

Definition MAX_DEPENDENCY_DEPTH : nat := 50.
Definition MAX_DEPENDENCIES : nat := 20.

(** ** would_create_circular_dependency

    [can_reach n] is the closure [can_reach(current_id, depth)] with
    [n = MAX_DEPENDENCY_DEPTH + 1 - depth]: [n = 0] is [depth > 50].  The set
    [visited] is shared by all calls and is threaded through them. *)
Fixpoint can_reach (n : nat) (fm : gmap Z feature) (source_id current_id : Z)
    (visited : gset Z) : bool * gset Z :=
  match n with
  | O => (true, visited)
  | S n' =>
      if Z.eqb current_id source_id then (true, visited)
      else if decide (current_id ∈ visited) then (false, visited)
      else
        let visited := {[current_id]} ∪ visited in
        match fm !! current_id with
        | None => (false, visited)
        | Some current =>
            let fix loop (deps : list Z) (visited : gset Z) : bool * gset Z :=
              match deps with
              | [] => (false, visited)
              | dep_id :: deps' =>
                  let '(b, visited') := can_reach n' fm source_id dep_id visited in
                  if b then (true, visited') else loop deps' visited'
              end in
            loop (dependencies current) visited
        end
  end.

Definition would_create_circular_dependency (features : list feature) (source_id target_id : Z)
  : bool :=
  if Z.eqb source_id target_id then true
  else
    let fm := feature_map features in
    match fm !! source_id, fm !! target_id with
    | Some _, Some _ => fst (can_reach (S MAX_DEPENDENCY_DEPTH) fm source_id target_id ∅)
    | _, _ => false
    end.

(** ** Array.prototype.sort with a comparator

    ECMAScript's sort is stable; for a consistent comparator its result is
    the stable sort below (insertion sort, an element goes after every
    element it does not compare below). *)
Fixpoint insert_by {A} (cmp : A -> A -> Z) (x : A) (l : list A) : list A :=
  match l with
  | [] => [x]
  | y :: l' => if cmp x y <? 0 then x :: l else y :: insert_by cmp x l'
  end.

Definition sort_by {A} (cmp : A -> A -> Z) (l : list A) : list A :=
  fold_left (fun acc x => insert_by cmp x acc) l [].

(** The numeric comparator [(a, b) => a - b]. *)
Definition num_cmp (a b : Z) : Z := a - b.

(** ** compute_scheduling_scores

    [depths] is a JS [Map] whose key order is observed ([depths.keys()]):
    it is an association list, [set] updating in place or appending. *)
Fixpoint amap_get (k : Z) (m : list (Z * Z)) : option Z :=
  match m with
  | [] => None
  | (k', v) :: m' => if Z.eqb k k' then Some v else amap_get k m'
  end.

Fixpoint amap_set (k v : Z) (m : list (Z * Z)) : list (Z * Z) :=
  match m with
  | [] => [(k, v)]
  | (k', v') :: m' => if Z.eqb k k' then (k, v) :: m' else (k', v') :: amap_set k v m'
  end.

(** [Math.max(...xs)] on a non-empty list; the engine never calls it on an
    empty one (both maps hold every feature id), where JS gives [-Infinity]. *)
Definition js_max (xs : list Z) : Z :=
  match xs with
  | [] => 0
  | x :: xs' => fold_left Z.max xs' x
  end.

(** [children] and [parents]: only dependency ids that are feature ids count. *)
Definition family_step (fid : Z) (cp : gmap Z (list Z) * gmap Z (list Z)) (dep_id : Z)
  : gmap Z (list Z) * gmap Z (list Z) :=
  let '(children, parents) := cp in
  match children !! dep_id with
  | Some ch =>
      (<[dep_id := ch ++ [fid]]> children,
       <[fid := default [] (parents !! fid) ++ [dep_id]]> parents)
  | None => (children, parents)
  end.

Definition build_family (features : list feature) : gmap Z (list Z) * gmap Z (list Z) :=
  fold_left (fun cp f => fold_left (family_step (id f)) (dependencies f) cp)
    features (const_map features [], const_map features []).

(** The BFS [while (queue.length > 0)]; [None]: not finished within [fuel]
    iterations. *)
Fixpoint bfs (fuel : nat) (children : gmap Z (list Z)) (queue : list (Z * Z))
    (depths : list (Z * Z)) : option (list (Z * Z)) :=
  match fuel with
  | O => None
  | S fuel' =>
      match queue with
      | [] => Some depths
      | (node_id, depth) :: queue' =>
          let depths :=
            match amap_get node_id depths with
            | Some d0 => if Z.gtb depth d0 then amap_set node_id depth depths else depths
            | None => amap_set node_id depth depths
            end in
          bfs fuel' children
            (queue' ++ map (fun child_id => (child_id, depth + 1))
                           (default [] (children !! node_id)))
            depths
      end
  end.

Definition roots (features : list feature) (parents : gmap Z (list Z)) : list Z :=
  id <$> filter (fun f => default [] (parents !! id f) = []) features.

Definition orphans (features : list feature) (depths : list (Z * Z)) : list (Z * Z) :=
  fold_left (fun dp f => match amap_get (id f) dp with
                         | Some _ => dp
                         | None => amap_set (id f) 0 dp
                         end) features depths.

Definition downstream_step (parents : gmap Z (list Z)) (ds : gmap Z Z) (fid : Z) : gmap Z Z :=
  fold_left (fun ds parent_id =>
               <[parent_id := default 0 (ds !! parent_id) + 1 + default 0 (ds !! fid)]> ds)
    (default [] (parents !! fid)) ds.

Definition score (max_depth max_downstream : Z) (depths : list (Z * Z)) (downstream : gmap Z Z)
    (f : feature) : Q :=
  let fid := id f in
  let unblock :=
    if Z.gtb max_downstream 0
    then (inject_Z (default 0%Z (downstream !! fid)) / inject_Z max_downstream)%Q else 0%Q in
  let depth_score :=
    if Z.gtb max_depth 0
    then (1 - inject_Z (default 0%Z (amap_get fid depths)) / inject_Z max_depth)%Q else 1%Q in
  let priority_factor := (inject_Z (10 - Z.min (priority f) 10)%Z / 10)%Q in
  (1000 * unblock + 100 * depth_score + 10 * priority_factor)%Q.

Definition compute_scheduling_scores (fuel : nat) (features : list feature)
  : option (gmap Z Q) :=
  match features with
  | [] => Some ∅
  | _ =>
      let '(children, parents) := build_family features in
      match bfs fuel children (map (fun r => (r, 0)) (roots features parents)) [] with
      | None => None
      | Some depths =>
          let depths := orphans features depths in
          let sorted_ids :=
            sort_by (fun a b => default 0 (amap_get b depths) - default 0 (amap_get a depths))
                    (map fst depths) in
          let downstream := fold_left (downstream_step parents) sorted_ids
                                      (const_map features 0) in
          let max_depth := js_max (map snd depths) in
          let max_downstream := js_max (map snd (map_to_list downstream)) in
          Some (fold_left (fun sc f => <[id f := score max_depth max_downstream depths downstream f]> sc)
                          features ∅)
      end
  end.

(** ** compute_depth (dependency_resolver-utils.ts)

    The recursion is bounded by [fuel] (the JS call stack); [None] means the
    stack was exhausted. *)
Definition build_adjacency_list (features : list feature) : gmap Z (list Z) :=
  fold_left (fun m f => <[id f := dependencies f]> m) features ∅.

Fixpoint compute_depth (fuel : nat) (feature_id : Z) (graph : gmap Z (list Z)) (memo : gmap Z Z)
  : option (Z * gmap Z Z) :=
  match fuel with
  | O => None
  | S fuel' =>
      match memo !! feature_id with
      | Some d => Some (d, memo)
      | None =>
          match default [] (graph !! feature_id) with
          | [] => Some (0, <[feature_id := 0]> memo)
          | deps =>
              let fix depths (ds : list Z) (memo : gmap Z Z) : option (list Z * gmap Z Z) :=
                match ds with
                | [] => Some ([], memo)
                | dep_id :: ds' =>
                    match compute_depth fuel' dep_id graph memo with
                    | None => None
                    | Some (x, memo') =>
                        match depths ds' memo' with
                        | None => None
                        | Some (xs, memo'') => Some (x :: xs, memo'')
                        end
                    end
                end in
              match depths deps memo with
              | None => None
              | Some (xs, memo') =>
                  let depth := 1 + js_max xs in Some (depth, <[feature_id := depth]> memo')
              end
          end
      end
  end.

(** ** get_ready_features and get_blocked_features *)

Definition passing_ids (features : list feature) : gset Z :=
  list_to_set (id <$> filter (fun f => passes f = true) features).

(** The [ready] array before it is sorted by score (the same loop appears
    in feature_get_ready). *)
Definition ready_features (features : list feature) : list feature :=
  let p := passing_ids features in
  filter (fun f => passes f = false /\ in_progress f = false /\
                   Forall (fun dep_id => dep_id ∈ p) (dependencies f)) features.

Definition get_blocked_features (features : list feature) : list (feature * list Z) :=
  let p := passing_ids features in
  fold_right (fun f acc =>
                if passes f then acc
                else
                  let blocking := filter (fun d => d ∉ p) (dependencies f) in
                  match blocking with
                  | [] => acc
                  | _ => (f, blocking) :: acc
                  end) [] features.

(** ** The feature store and the tools of feature-explorer

    A row of the [features] table, restricted to the columns these tools
    read or write; [row_dependencies] is the JSON column ([None] is SQL
    NULL).  [last_rowid] is the AUTOINCREMENT counter. *)
Record row := mkRow {
  row_id : Z;
  row_priority : Z;
  row_dependencies : option (list Z);
  row_passes : bool;
  row_in_progress : bool
}.

Record store := mkStore {
  rows : list row;
  last_rowid : Z
}.

(** [SELECT MAX(priority) FROM features]: NULL on an empty table. *)
Definition max_priority (rs : list row) : option Z :=
  fold_left (fun acc r => Some (match acc with
                                | None => row_priority r
                                | Some m => Z.max m (row_priority r)
                                end)) rs None.

(** [(maxRows[0]?.max_priority ?? 0) + 1] *)
Definition next_priority (rs : list row) : Z := default 0 (max_priority rs) + 1.

Definition find_row (rs : list row) (fid : Z) : option row :=
  find (fun r => Z.eqb (row_id r) fid) rs.

(** [UPDATE features SET ... WHERE id = fid] *)
Definition update_row (rs : list row) (fid : Z) (upd : row -> row) : list row :=
  map (fun r => if Z.eqb (row_id r) fid then upd r else r) rs.

Definition set_deps (d : option (list Z)) (r : row) : row :=
  mkRow (row_id r) (row_priority r) d (row_passes r) (row_in_progress r).

Definition insert_row (st : store) (prio : Z) (deps : option (list Z)) : store * Z :=
  let nid := last_rowid st + 1 in
  (mkStore (rows st ++ [mkRow nid prio deps false false]) nid, nid).

Definition feature_of_row (r : row) : feature :=
  mkFeature (row_id r) (row_priority r) (default [] (row_dependencies r))
            (row_passes r) (row_in_progress r).

Definition feature_create (st : store) : store * Z :=
  insert_row st (next_priority (rows st)) None.

(** [None]: the tool returned an error and wrote nothing. *)
Definition feature_skip (st : store) (feature_id : Z) : option store :=
  match find_row (rows st) feature_id with
  | None => None
  | Some r =>
      if row_passes r then None
      else
        let new_priority := next_priority (rows st) in
        Some (mkStore (update_row (rows st) feature_id
                         (fun r => mkRow (row_id r) new_priority (row_dependencies r)
                                         (row_passes r) false))
                      (last_rowid st))
  end.

(** First pass of feature_create_bulk on [depends_on_indices] (the text
    fields are not modelled). *)
Definition bulk_indices_ok (i : nat) (indices : list Z) : bool :=
  match indices with
  | [] => true
  | _ =>
      negb (Nat.ltb MAX_DEPENDENCIES (length indices)) &&
      bool_decide (NoDup indices) &&
      forallb (fun idx => (0 <=? idx) && (idx <? Z.of_nat i)) indices
  end.

Fixpoint bulk_valid_from (i : nat) (specs : list (list Z)) : bool :=
  match specs with
  | [] => true
  | indices :: specs' => bulk_indices_ok i indices && bulk_valid_from (S i) specs'
  end.

(** Second pass: row [i] gets priority [start_priority + i]. *)
Fixpoint bulk_insert (st : store) (start_priority : Z) (i : nat) (k : nat) : store * list Z :=
  match k with
  | O => (st, [])
  | S k' =>
      let '(st1, fid) := insert_row st (start_priority + Z.of_nat i) None in
      let '(st2, fids) := bulk_insert st1 start_priority (S i) k' in
      (st2, fid :: fids)
  end.

(** Third pass. *)
Fixpoint bulk_link (rs : list row) (created : list Z) (i : nat) (specs : list (list Z))
  : list row :=
  match specs with
  | [] => rs
  | indices :: specs' =>
      let rs :=
        match indices with
        | [] => rs
        | _ =>
            let dep_ids := sort_by num_cmp (map (fun idx => nth (Z.to_nat idx) created 0) indices) in
            update_row rs (nth i created 0) (set_deps (Some dep_ids))
        end in
      bulk_link rs created (S i) specs'
  end.

Definition feature_create_bulk (st : store) (specs : list (list Z)) : option store :=
  if bulk_valid_from O specs then
    let start_priority := next_priority (rows st) in
    let '(st1, created) := bulk_insert st start_priority O (length specs) in
    Some (mkStore (bulk_link (rows st1) created O specs) (last_rowid st1))
  else None.

Definition feature_add_dependency (st : store) (feature_id dependency_id : Z) : option store :=
  if Z.eqb feature_id dependency_id then None
  else
    match find_row (rows st) feature_id, find_row (rows st) dependency_id with
    | Some feature, Some _ =>
        let current_deps := default [] (row_dependencies feature) in
        if Nat.leb MAX_DEPENDENCIES (length current_deps) then None
        else if bool_decide (dependency_id ∈ current_deps) then None
        else if would_create_circular_dependency (feature_of_row <$> rows st) feature_id dependency_id
        then None
        else
          let sorted_deps := sort_by num_cmp (current_deps ++ [dependency_id]) in
          Some (mkStore (update_row (rows st) feature_id (set_deps (Some sorted_deps)))
                        (last_rowid st))
    | _, _ => None
    end.

Definition feature_set_dependencies (st : store) (feature_id : Z) (dependency_ids : list Z)
  : option store :=
  if bool_decide (feature_id ∈ dependency_ids) then None
  else if Nat.ltb MAX_DEPENDENCIES (length dependency_ids) then None
  else if negb (bool_decide (NoDup dependency_ids)) then None
  else
    match find_row (rows st) feature_id with
    | None => None
    | Some _ =>
        let all_feature_ids : gset Z := list_to_set (row_id <$> rows st) in
        match filter (fun d => d ∉ all_feature_ids) dependency_ids with
        | _ :: _ => None
        | [] =>
            let test_features :=
              (fun f => if Z.eqb (id f) feature_id
                        then mkFeature (id f) (priority f) dependency_ids (passes f) (in_progress f)
                        else f) <$> (feature_of_row <$> rows st) in
            if existsb (would_create_circular_dependency test_features feature_id) dependency_ids
            then None
            else
              let sorted_deps := match dependency_ids with
                                 | [] => []
                                 | _ => sort_by num_cmp dependency_ids
                                 end in
              let deps_to_save := match sorted_deps with [] => None | _ => Some sorted_deps end in
              Some (mkStore (update_row (rows st) feature_id (set_deps deps_to_save))
                            (last_rowid st))
        end
    end.

Definition feature_remove_dependency (st : store) (feature_id dependency_id : Z) : option store :=
  match find_row (rows st) feature_id with
  | None => None
  | Some feature =>
      let current_deps := default [] (row_dependencies feature) in
      if negb (bool_decide (dependency_id ∈ current_deps)) then None
      else
        let updated_deps := filter (fun d => d <> dependency_id) current_deps in
        let deps_to_save := match updated_deps with [] => None | _ => Some updated_deps end in
        Some (mkStore (update_row (rows st) feature_id (set_deps deps_to_save)) (last_rowid st))
  end.

(** ** The other helpers of database-utils.ts

    An optional [passing_ids] argument left [undefined] is [None]; a call
    that throws an [Error] returns [None]. *)
Definition are_dependencies_satisfied (feature : feature) (passing_ids : option (gset Z))
  : option bool :=
  let deps := dependencies feature in
  match deps with
  | [] => Some true
  | _ =>
      match passing_ids with
      | None => None
      | Some p => Some (forallb (fun dep_id => bool_decide (dep_id ∈ p)) deps)
      end
  end.

Definition get_blocking_dependencies (feature : feature) (passing_ids : option (gset Z))
  : option (list Z) :=
  let deps := dependencies feature in
  match passing_ids with
  | None => None
  | Some p => Some (filter (fun dep_id => dep_id ∉ p) deps)
  end.

(** Decimal digits of [n >= 0] in front of [acc]; [fuel] bounds the
    number of digits. *)
Fixpoint decimal_digits (fuel : nat) (n : Z) (acc : String.string) : String.string :=
  match fuel with
  | O => acc
  | S fuel' =>
      let acc := String.String (Ascii.ascii_of_nat (48 + Z.to_nat (n mod 10))) acc in
      if n <? 10 then acc else decimal_digits fuel' (n / 10) acc
  end.

(** [String(n)] for an integer [n]. *)
Definition number_to_string (n : Z) : String.string :=
  let digits := decimal_digits (Pos.size_nat (Z.to_pos (Z.abs n))) (Z.abs n) ""%string in
  if n <? 0 then String.String "-"%char digits else digits.

(** [xs.join(sep)] *)
Fixpoint join (sep : String.string) (xs : list String.string) : String.string :=
  match xs with
  | [] => ""%string
  | [x] => x
  | x :: xs' => String.append x (String.append sep (join sep xs'))
  end.

(** The duplicate test [dependency_ids.length !== new Set(dependency_ids).size]
    holds exactly when the list has a repeated element. *)
Definition validate_dependencies (feature_id : Z) (dependency_ids : list Z)
    (all_feature_ids : gset Z) : bool * String.string :=
  if Nat.ltb MAX_DEPENDENCIES (length dependency_ids) then
    (false, String.append "Maximum "%string
              (String.append (number_to_string (Z.of_nat MAX_DEPENDENCIES))
                             " dependencies allowed"%string))
  else if bool_decide (feature_id ∈ dependency_ids) then
    (false, "A feature cannot depend on itself"%string)
  else
    let missing := filter (fun d => d ∉ all_feature_ids) dependency_ids in
    match missing with
    | _ :: _ =>
        (false, String.append "Dependencies not found: "%string
                  (join ", "%string (map number_to_string missing)))
    | [] =>
        if negb (bool_decide (NoDup dependency_ids))
        then (false, "Duplicate dependencies not allowed"%string)
        else (true, ""%string)
    end.

(** [ready.sort(...)] in get_ready_features: score descending (a missing
    score counts as 0), then priority, then id. *)
Definition ready_cmp (scores : gmap Z Q) (a b : feature) : Q :=
  let score_diff := (default 0 (scores !! id b) - default 0 (scores !! id a))%Q in
  if negb (Qeq_bool score_diff 0) then score_diff
  else
    let priority_diff := priority a - priority b in
    if negb (Z.eqb priority_diff 0) then inject_Z priority_diff
    else inject_Z (id a - id b).

(** The same comparator as written in feature_get_ready. *)
Definition ready_cmp_explorer (scores : gmap Z Q) (a b : feature) : Q :=
  let scoreA := default 0%Q (scores !! id a) in
  let scoreB := default 0%Q (scores !! id b) in
  if negb (Qeq_bool scoreA scoreB) then (scoreB - scoreA)%Q
  else if negb (Z.eqb (priority a) (priority b)) then inject_Z (priority a - priority b)
  else inject_Z (id a - id b).

(** [Array.prototype.sort] with a comparator returning a number, as
    [sort_by] above. *)
Fixpoint insert_by_q {A} (cmp : A -> A -> Q) (x : A) (l : list A) : list A :=
  match l with
  | [] => [x]
  | y :: l' =>
      match (cmp x y ?= 0)%Q with
      | Lt => x :: l
      | _ => y :: insert_by_q cmp x l'
      end
  end.

Definition sort_by_q {A} (cmp : A -> A -> Q) (l : list A) : list A :=
  fold_left (fun acc x => insert_by_q cmp x acc) l [].

(** [xs.slice(0, limit)] for an integer [limit]; a negative end counts
    from the end of the array. *)
Definition slice_to {A} (limit : Z) (xs : list A) : list A :=
  let len := Z.of_nat (length xs) in
  let e := if limit <? 0 then Z.max (len + limit) 0 else Z.min limit len in
  take (Z.to_nat e) xs.

(** [None]: [compute_scheduling_scores] did not return within [fuel]. *)
Definition get_ready_features (fuel : nat) (features : list feature) (limit : Z)
  : option (list feature) :=
  let ready := ready_features features in
  match compute_scheduling_scores fuel features with
  | None => None
  | Some scores => Some (slice_to limit (sort_by_q (ready_cmp scores) ready))
  end.

(** The [status] of a graph node. *)
Inductive graph_status := status_done | status_blocked | status_in_progress | status_pending.

(** A node of the graph data; [name] and [category] are not modelled. *)
Record graph_node := mkNode {
  node_id : Z;
  node_status : graph_status;
  node_priority : Z;
  node_dependencies : list Z
}.

(** [edges] holds the pairs [(source, target)]. *)
Record graph_data := mkGraphData {
  nodes : list graph_node;
  edges : list (Z * Z)
}.

(** The status of a feature in the graph data. *)
Definition graph_status_of (p : gset Z) (f : feature) : graph_status :=
  let deps := dependencies f in
  let blocking := filter (fun d => d ∉ p) deps in
  if passes f then status_done
  else match blocking with
       | _ :: _ => status_blocked
       | [] => if in_progress f then status_in_progress else status_pending
       end.

(** One iteration of the [for (const f of features)] loop. *)
Definition graph_data_step (p : gset Z) (gd : graph_data) (f : feature) : graph_data :=
  let deps := dependencies f in
  mkGraphData (nodes gd ++ [mkNode (id f) (graph_status_of p f) (priority f) deps])
              (fold_left (fun edges dep_id => edges ++ [(dep_id, id f)]) deps (edges gd)).

(** build_graph_data; feature_get_graph of feature-explorer runs the same
    loop on the rows of the store. *)
Definition build_graph_data (features : list feature) : graph_data :=
  let p := passing_ids features in
  fold_left (graph_data_step p) features (mkGraphData [] []).

(** ** build_reverse_adjacency (dependency_resolver-utils.ts)

    Each key gets its own fresh array, so a [push] changes that key only. *)
Definition build_reverse_adjacency (features : list feature) : gmap Z (list Z) :=
  fold_left (fun reverse feature =>
    fold_left (fun reverse dep_id =>
      match reverse !! dep_id with
      | Some l => <[dep_id := l ++ [id feature]]> reverse
      | None => reverse
      end) (dependencies feature) reverse)
    features (const_map features []).

(** ** The status tools of feature-explorer

    [SELECT * FROM features WHERE id = ?] is [find_row]; a tool that
    re-reads the updated row returns it, and an empty re-read ([[0]] is
    [undefined], whose fields throw) is an error. *)
Definition set_flags (passes_v in_progress_v : bool) (r : row) : row :=
  mkRow (row_id r) (row_priority r) (row_dependencies r) passes_v in_progress_v.

Definition set_in_progress (in_progress_v : bool) (r : row) : row :=
  mkRow (row_id r) (row_priority r) (row_dependencies r) (row_passes r) in_progress_v.

Definition reread (rs : list row) (last : Z) (feature_id : Z) : option (store * row) :=
  match find_row rs feature_id with
  | Some updated => Some (mkStore rs last, updated)
  | None => None
  end.

Definition feature_mark_passing (st : store) (feature_id : Z) : option store :=
  match find_row (rows st) feature_id with
  | None => None
  | Some _ => Some (mkStore (update_row (rows st) feature_id (set_flags true false))
                            (last_rowid st))
  end.

Definition feature_mark_failing (st : store) (feature_id : Z) : option (store * row) :=
  match find_row (rows st) feature_id with
  | None => None
  | Some _ =>
      reread (update_row (rows st) feature_id (set_flags false false)) (last_rowid st)
             feature_id
  end.

Definition feature_mark_in_progress (st : store) (feature_id : Z) : option (store * row) :=
  match find_row (rows st) feature_id with
  | None => None
  | Some feature =>
      if row_passes feature then None
      else if row_in_progress feature then None
      else reread (update_row (rows st) feature_id (set_in_progress true)) (last_rowid st)
                  feature_id
  end.

(** The result carries [already_claimed]. *)
Definition feature_claim_and_get (st : store) (feature_id : Z) : option (store * row * bool) :=
  match find_row (rows st) feature_id with
  | None => None
  | Some feature =>
      if row_passes feature then None
      else
        let already_claimed := row_in_progress feature in
        let rs := if already_claimed then rows st
                  else update_row (rows st) feature_id (set_in_progress true) in
        match reread rs (last_rowid st) feature_id with
        | Some (st', updated) => Some (st', updated, already_claimed)
        | None => None
        end
  end.

Definition feature_clear_in_progress (st : store) (feature_id : Z) : option (store * row) :=
  match find_row (rows st) feature_id with
  | None => None
  | Some _ =>
      reread (update_row (rows st) feature_id (set_in_progress false)) (last_rowid st)
             feature_id
  end.

(** [(passing, in_progress, total)] of feature_get_stats; the rounded
    [percentage] is not modelled. *)
Definition feature_get_stats (st : store) : Z * Z * Z :=
  let total := Z.of_nat (length (rows st)) in
  let passing := Z.of_nat (length (filter (fun r => row_passes r = true) (rows st))) in
  let in_progress := Z.of_nat (length (filter (fun r => row_in_progress r = true) (rows st))) in
  (passing, in_progress, total).

(** [(features, count, total_ready)] of feature_get_ready. *)
Definition feature_get_ready (fuel : nat) (st : store) (limit : Z)
  : option (list feature * Z * Z) :=
  let all_features := feature_of_row <$> rows st in
  let ready := ready_features all_features in
  match compute_scheduling_scores fuel all_features with
  | None => None
  | Some scores =>
      let ready := sort_by_q (ready_cmp_explorer scores) ready in
      Some (slice_to limit ready, Z.min (Z.of_nat (length ready)) limit,
            Z.of_nat (length ready))
  end.

(** [(features, count, total_blocked)] of feature_get_blocked; its loop is
    the one of get_blocked_features. *)
Definition feature_get_blocked (st : store) (limit : Z) : list (feature * list Z) * Z * Z :=
  let blocked := get_blocked_features (feature_of_row <$> rows st) in
  (slice_to limit blocked, Z.min (Z.of_nat (length blocked)) limit, Z.of_nat (length blocked)).

(** ** parse_sqlite_error and to_error_result (database-utils.ts)

    A string is a list of 8-bit characters, read as the code points
    U+0000 to U+00FF. [toLowerCase] maps A-Z and the Latin-1 capitals
    U+00C0 to U+00DE (except U+00D7) up by 32 and leaves the other code
    points of that range alone. *)
Definition ascii_to_lower (c : Ascii.ascii) : Ascii.ascii :=
  (let n := Ascii.nat_of_ascii c in
  if ((65 <=? n) && (n <=? 90)) || ((192 <=? n) && (n <=? 222) && negb (n =? 215))
  then Ascii.ascii_of_nat (n + 32) else c)%nat.

Fixpoint to_lower (s : String.string) : String.string :=
  match s with
  | String.EmptyString => String.EmptyString
  | String.String c s' => String.String (ascii_to_lower c) (to_lower s')
  end.

(** [s.includes(sub)]. *)
Fixpoint includes (s sub : String.string) : bool :=
  String.prefix sub s ||
  match s with
  | String.EmptyString => false
  | String.String _ s' => includes s' sub
  end.

Record error_info := mkErrorInfo {
  code : String.string;
  message : String.string;
  details : option String.string
}.

(** An [Error] object: its [message] and its [stack]. *)
Record js_error := mkJsError {
  error_message : String.string;
  error_stack : option String.string
}.

Definition parse_sqlite_error (error : js_error) : option error_info :=
  let message := to_lower (error_message error) in
  if includes message "unique" then
    Some (mkErrorInfo "CONFLICT_DUPLICATE_KEY" "Duplicate key violation" (Some (error_message error)))
  else if includes message "check constraint" then
    Some (mkErrorInfo "CONFLICT_CONSTRAINT_VIOLATION" "Check constraint violated"
                      (Some (error_message error)))
  else if includes message "foreign key" then
    Some (mkErrorInfo "CONFLICT_FOREIGN_KEY" "Foreign key constraint violated"
                      (Some (error_message error)))
  else if includes message "locked" || includes message "busy" then
    Some (mkErrorInfo "DATABASE_LOCK_TIMEOUT" "Database is locked" (Some (error_message error)))
  else None.

(** A caught value: an [Error], or any other value with its [String(error)]. *)
Inductive caught := caught_error (e : js_error) | caught_other (shown : String.string).

(** The [error] field of the result; [success] is always [false]. *)
Definition to_error_result (error : caught) : error_info :=
  match error with
  | caught_error e =>
      match parse_sqlite_error e with
      | Some sqlite_error => sqlite_error
      | None => mkErrorInfo "UNKNOWN_ERROR" (error_message e) (error_stack e)
      end
  | caught_other shown => mkErrorInfo "UNKNOWN_ERROR" shown None
  end.

(** The keywords parse_sqlite_error looks for and the codes it returns. *)
Definition sqlite_keywords : list String.string :=
  ["unique"; "check constraint"; "foreign key"; "locked"; "busy"]%string.

Definition sqlite_codes : list String.string :=
  ["CONFLICT_DUPLICATE_KEY"; "CONFLICT_CONSTRAINT_VIOLATION"; "CONFLICT_FOREIGN_KEY";
   "DATABASE_LOCK_TIMEOUT"]%string.

(** ** Example snapshots *)

Definition feat (i p : Z) (ds : list Z) : feature := mkFeature i p ds false false.

(** [{1:p10, 2:p5, 3:p1}], no edges. *)
Definition ex_priorities : list feature := [feat 1 10 []; feat 2 5 []; feat 3 1 []].

(** The cycle [1 -> 2 -> 3 -> 1] next to an independent node [4]. *)
Definition ex_cycle : list feature :=
  [feat 1 1 [2]; feat 2 2 [3]; feat 3 3 [1]; feat 4 4 []].

(** [1 -> 2] only: feature 1 depends on 2. *)
Definition ex_edge : list feature := [feat 1 1 [2]; feat 2 2 []].

(** Three independent features. *)
Definition ex_independent : list feature := [feat 1 1 []; feat 2 2 []; feat 3 3 []].

(** The chain [1 -> 2 -> ... -> n]. *)
Definition chain (n : nat) : list feature :=
  map (fun i => feat (Z.of_nat i) (Z.of_nat i) [Z.of_nat i + 1]) (seq 1 (pred n)) ++
  [feat (Z.of_nat n) (Z.of_nat n) []].

(** A 60-long chain next to an unrelated feature 100. *)
Definition ex_deep : list feature := chain 60 ++ [feat 100 100 []].

(** Feature 1 depends on the id 999, which is not a feature. *)
Definition ex_missing : list feature := [feat 1 1 [999]].

(** Feature 1 is a root; features 2 and 3 depend on each other. *)
Definition ex_root_cycle : list feature := [feat 1 1 []; feat 2 2 [1; 3]; feat 3 3 [2]].

(** The two-cycle [1 -> 2 -> 1]. *)
Definition ex_two_cycle : list feature := [feat 1 1 [2]; feat 2 2 [1]].

(** A feature with a negative priority, depended on by a second one. *)
Definition ex_negative : list feature := [feat 1 (-1) []; feat 2 5 [1]].

(** Three features, 2 depending on 3; then 1 set to depend on 3 and 2. *)
Definition ex_store_123 : store :=
  mkStore [mkRow 1 1 None false false; mkRow 2 2 (Some [3]) false false;
           mkRow 3 3 None false false] 3.

Definition ex_store_123_set : store :=
  mkStore [mkRow 1 1 (Some [2; 3]) false false; mkRow 2 2 (Some [3]) false false;
           mkRow 3 3 None false false] 3.

(** [ex_store_123] after a bulk creation of two features, the second
    depending on the first. *)
Definition ex_store_123_bulk : store :=
  mkStore [mkRow 1 1 None false false; mkRow 2 2 (Some [3]) false false;
           mkRow 3 3 None false false; mkRow 4 4 None false false;
           mkRow 5 5 (Some [4]) false false] 5.

(** ** Properties stated about the program *)

(** The (priority, id) order of the heap, non-strict and strict. *)
Definition key_le (a b : feature) : Prop :=
  priority a < priority b \/ (priority a = priority b /\ id a <= id b).

Definition key_lt (a b : feature) : Prop :=
  priority a < priority b \/ (priority a = priority b /\ id a < id b).

(** [dep_edge fs a b]: feature [a] of the snapshot depends on [b], and [b] is
    a feature of the snapshot.  A snapshot is acyclic when no feature
    transitively depends on itself. *)
Definition dep_edge (fs : list feature) (a b : Z) : Prop :=
  ∃ f, f ∈ fs /\ id f = a /\ b ∈ dependencies f /\ b ∈ ids fs.

Definition acyclic (fs : list feature) : Prop :=
  ∀ x, ~ tc (dep_edge fs) x x.

(** [step fm a b]: [a] is a feature whose dependency list holds [b]. *)
Definition step (fm : gmap Z feature) (a b : Z) : Prop :=
  ∃ f, fm !! a = Some f /\ b ∈ dependencies f.

Definition reaches (fm : gmap Z feature) (x y : Z) : Prop := rtc (step fm) x y.

(** [deep_path fm src n x V]: from [x], following first dependencies, [n]
    features in a row that are neither visited nor the source. *)
Inductive deep_path (fm : gmap Z feature) (src : Z) : nat -> Z -> gset Z -> Prop :=
  | deep_nil x V : deep_path fm src O x V
  | deep_cons n x V f d ds :
      x <> src -> x ∉ V -> fm !! x = Some f -> dependencies f = d :: ds ->
      deep_path fm src n d ({[x]} ∪ V) -> deep_path fm src (S n) x V.

Definition blocked_step (p : gset Z) (f : feature) (acc : list (feature * list Z))
  : list (feature * list Z) :=
  if passes f then acc
  else
    let blocking := filter (fun d => d ∉ p) (dependencies f) in
    match blocking with
    | [] => acc
    | _ => (f, blocking) :: acc
    end.

Definition nonneg (p : Z * Z) : Prop := 0 <= snd p.

Definition nonneg_map (m : gmap Z Z) : Prop := ∀ k v, m !! k = Some v -> 0 <= v.

(** The invariant as the documentation words it: [p] is one more than the
    largest priority of [rs], or 1 when [rs] is empty. *)
Definition is_one_plus_max (rs : list row) (p : Z) : Prop :=
  (rs = [] /\ p = 1) \/
  ((∃ r, r ∈ rs /\ p = row_priority r + 1) /\ ∀ r, r ∈ rs -> row_priority r < p).

Definition deps_sorted (rs : list row) : Prop :=
  ∀ r l, r ∈ rs -> row_dependencies r = Some l -> Sorted Z.le l.

(** The order [get_ready_features] sorts by: the higher score first (a
    missing score counts as 0), then the (priority, id) order. *)
Definition ready_le (scores : gmap Z Q) (a b : feature) : Prop :=
  let sa := default 0%Q (scores !! id a) in
  let sb := default 0%Q (scores !! id b) in
  (sb < sa)%Q \/ (sa == sb /\ key_le a b)%Q.

(** [st'] differs from [st] at most in the [passes] and [in_progress]
    flags of the rows with id [fid]. *)
Definition flags_only (st st' : store) (fid : Z) : Prop :=
  last_rowid st' = last_rowid st /\ length (rows st') = length (rows st) /\
  ∀ i r, rows st !! i = Some r -> ∃ r', rows st' !! i = Some r' /\
    row_id r' = row_id r /\ row_priority r' = row_priority r /\
    row_dependencies r' = row_dependencies r /\ (row_id r <> fid -> r' = r).

(** The rows with id [fid] get the flags [p r] and [ip r], computed from
    the row [r] before the call. *)
Definition flags_set (st st' : store) (fid : Z) (p ip : row -> bool) : Prop :=
  ∀ i r r', rows st !! i = Some r -> rows st' !! i = Some r' -> row_id r = fid ->
    row_passes r' = p r /\ row_in_progress r' = ip r.

(** A well-formed table: unique ids, none above the last row id, and no
    dependency cycle among the stored features. *)
Definition table_ok (st : store) : Prop :=
  NoDup (row_id <$> rows st) /\ (∀ r, r ∈ rows st -> row_id r <= last_rowid st) /\
  acyclic (feature_of_row <$> rows st).

(** The snapshot feature_set_dependencies checks for cycles: the feature
    [fid] with its dependencies replaced by [ds]. *)
Definition test_feature (fid : Z) (ds : list Z) (f : feature) : feature :=
  if Z.eqb (id f) fid then mkFeature (id f) (priority f) ds (passes f) (in_progress f) else f.

(** ** Lemmas on the maps built from a snapshot *)

Section Maps.

Lemma feature_map_fold_lookup (l : list feature) (m : gmap Z feature) :
  NoDup (ids l) ->
  (∀ f, f ∈ l -> fold_left (fun m f => <[id f := f]> m) l m !! id f = Some f) /\
  (∀ x, x ∉ ids l -> fold_left (fun m f => <[id f := f]> m) l m !! x = m !! x).
Proof.
  revert m; induction l as [|g l IH]; intros m Hnd; cbn [fold_left].
  - split; [intros f Hf; inversion Hf | done].
  - unfold ids in Hnd; rewrite fmap_cons, NoDup_cons in Hnd. destruct Hnd as [Hg Hnd].
    destruct (IH (<[id g := g]> m) Hnd) as [IH1 IH2]. split.
    + intros f Hf. apply elem_of_cons in Hf as [->|Hf]; [|by apply IH1].
      rewrite IH2 by done. by rewrite lookup_insert_eq.
    + intros x Hx. unfold ids in Hx. rewrite fmap_cons, elem_of_cons in Hx.
      rewrite IH2 by (intros ?; apply Hx; by right).
      rewrite lookup_insert_ne; [done|]. intros Heq; subst x; apply Hx; by left.
Qed.

Lemma feature_map_lookup_in (fs : list feature) f :
  NoDup (ids fs) -> f ∈ fs -> feature_map fs !! id f = Some f.
Proof. intros Hnd Hf. by apply (feature_map_fold_lookup fs ∅ Hnd). Qed.

Lemma feature_map_lookup_notin (fs : list feature) x :
  NoDup (ids fs) -> x ∉ ids fs -> feature_map fs !! x = None.
Proof.
  intros Hnd Hx. unfold feature_map.
  rewrite (proj2 (feature_map_fold_lookup fs ∅ Hnd)) by done. apply lookup_empty.
Qed.

Lemma feature_map_lookup (fs : list feature) x f :
  NoDup (ids fs) -> feature_map fs !! x = Some f <-> f ∈ fs /\ id f = x.
Proof.
  intros Hnd. split.
  - intros Hx. destruct (decide (x ∈ ids fs)) as [Hin|Hin].
    + unfold ids in Hin. apply list_elem_of_fmap in Hin as (g & -> & Hg).
      rewrite feature_map_lookup_in in Hx by done. injection Hx as ->. done.
    + rewrite feature_map_lookup_notin in Hx by done. discriminate.
  - intros [Hf <-]. by apply feature_map_lookup_in.
Qed.

Lemma feature_map_is_Some (fs : list feature) x :
  NoDup (ids fs) -> is_Some (feature_map fs !! x) <-> x ∈ ids fs.
Proof.
  intros Hnd. split.
  - intros [f Hf]. apply feature_map_lookup in Hf as [Hf <-]; [|done].
    by apply list_elem_of_fmap_2.
  - intros Hx. unfold ids in Hx. apply list_elem_of_fmap in Hx as (f & -> & Hf).
    exists f. by apply feature_map_lookup_in.
Qed.

Lemma const_map_fold_lookup {V} (l : list feature) (v : V) (m : gmap Z V) x :
  fold_left (fun m f => <[id f := v]> m) l m !! x =
  if decide (x ∈ ids l) then Some v else m !! x.
Proof.
  revert m; induction l as [|g l IH]; intros m; cbn [fold_left].
  - case_decide as H; [inversion H|done].
  - rewrite IH. unfold ids. rewrite fmap_cons.
    destruct (decide (x ∈ id <$> l)) as [H1|H1];
      destruct (decide (x ∈ id g :: (id <$> l))) as [H2|H2]; try done.
    + exfalso; apply H2; by right.
    + apply elem_of_cons in H2 as [->|H2]; [by rewrite lookup_insert_eq|done].
    + rewrite lookup_insert_ne; [done|]. intros Heq; subst x; apply H2; by left.
Qed.

Lemma const_map_lookup {V} (fs : list feature) (v : V) x :
  const_map fs v !! x = if decide (x ∈ ids fs) then Some v else None.
Proof. unfold const_map. rewrite const_map_fold_lookup. by rewrite lookup_empty. Qed.

End Maps.

(** ** What [build_graph] computes *)

Section Build.

Variable fm : gmap Z feature.

Definition present (d : Z) : Prop := is_Some (fm !! d).

Definition n_present (ds : list Z) : nat := length (filter present ds).

Definition not_passing_dep (d : Z) : Prop :=
  match fm !! d with Some g => passes g = false | None => False end.

#[global] Instance not_passing_dep_dec d : Decision (not_passing_dep d).
Proof. unfold not_passing_dep. destruct (fm !! d); apply _. Defined.

Definition adj_contrib (c : Z) (f : feature) : list Z :=
  if decide (present c) then repeat (id f) (count_occ Z.eq_dec (dependencies f) c) else [].

Lemma build_deps_adjacency (fid : Z) (ds : list Z) (g : graph) (c : Z) :
  default [] (adjacency (fold_left (build_step fm fid) ds g) !! c) =
  default [] (adjacency g !! c) ++
  (if decide (present c) then repeat fid (count_occ Z.eq_dec ds c) else []).
Proof.
  revert g; induction ds as [|d ds IH]; intros g; cbn [fold_left].
  - case_decide; simpl; by rewrite app_nil_r.
  - rewrite IH. unfold build_step.
    destruct (fm !! d) as [dep|] eqn:Hd; cbn [adjacency in_degree blocked missing].
    + destruct (decide (d = c)) as [<-|Hne].
      * rewrite lookup_insert_eq. cbn [default]. rewrite !decide_True by (unfold present; rewrite Hd; done).
        rewrite count_occ_cons_eq by done. simpl. rewrite <- app_assoc; reflexivity.
      * rewrite lookup_insert_ne by done. by rewrite count_occ_cons_neq by done.
    + destruct (decide (d = c)) as [<-|Hne].
      * rewrite !decide_False by (unfold present; rewrite Hd; intros [? ?]; discriminate). done.
      * by rewrite count_occ_cons_neq by done.
Qed.

Lemma build_step_in_degree (fid : Z) (g : graph) (d x v : Z) :
  in_degree g !! x = Some v ->
  in_degree (build_step fm fid g d) !! x =
  Some (v + Z.of_nat (if decide (x = fid) then n_present [d] else O)).
Proof.
  intros Hx. unfold build_step, n_present.
  destruct (fm !! d) as [dep|] eqn:Hd; cbn [in_degree].
  - destruct (decide (x = fid)) as [->|Hne].
    + rewrite lookup_insert_eq, Hx.
      rewrite filter_cons_True by (unfold present; rewrite Hd; done). simpl. f_equal; lia.
    + rewrite lookup_insert_ne by congruence. rewrite Hx. f_equal; lia.
  - rewrite Hx. destruct (decide (x = fid)).
    + rewrite filter_cons_False by (unfold present; rewrite Hd; intros [? ?]; discriminate).
      simpl. f_equal; lia.
    + f_equal; lia.
Qed.

Lemma build_deps_in_degree (fid : Z) (ds : list Z) (g : graph) (x v : Z) :
  in_degree g !! x = Some v ->
  in_degree (fold_left (build_step fm fid) ds g) !! x =
  Some (v + Z.of_nat (if decide (x = fid) then n_present ds else O)).
Proof.
  revert g v; induction ds as [|d ds IH]; intros g v Hx; cbn [fold_left].
  - rewrite Hx. unfold n_present. case_decide; simpl; f_equal; lia.
  - rewrite (IH _ _ (build_step_in_degree fid g d x v Hx)). f_equal.
    unfold n_present. destruct (decide (x = fid)); [|lia].
    rewrite (filter_app _ [d] ds). rewrite length_app. lia.
Qed.

Lemma build_deps_blocked (fid : Z) (ds : list Z) (g : graph) (x : Z) :
  default [] (blocked (fold_left (build_step fm fid) ds g) !! x) =
  default [] (blocked g !! x) ++ (if decide (x = fid) then filter not_passing_dep ds else []).
Proof.
  revert g; induction ds as [|d ds IH]; intros g; cbn [fold_left].
  - case_decide; simpl; by rewrite app_nil_r.
  - rewrite IH. unfold build_step.
    destruct (fm !! d) as [dep|] eqn:Hd; cbn [adjacency in_degree blocked missing].
    + destruct (passes dep) eqn:Hp; simpl.
      * destruct (decide (x = fid)); [|done].
        rewrite filter_cons_False; [done|]. unfold not_passing_dep. rewrite Hd. congruence.
      * destruct (decide (x = fid)) as [->|Hne].
        -- rewrite lookup_insert_eq. simpl.
           rewrite filter_cons_True by (unfold not_passing_dep; rewrite Hd; done).
           rewrite <- app_assoc; reflexivity.
        -- by rewrite lookup_insert_ne by congruence.
    + destruct (decide (x = fid)); [|done].
      rewrite filter_cons_False; [done|]. unfold not_passing_dep. rewrite Hd. tauto.
Qed.

End Build.

Section BuildGraph.

Variable fm : gmap Z feature.

Lemma build_all_adjacency (l : list feature) (g : graph) (c : Z) :
  default [] (adjacency (fold_left (build_feature fm) l g) !! c) =
  default [] (adjacency g !! c) ++ concat (map (adj_contrib fm c) l).
Proof.
  revert g; induction l as [|f l IH]; intros g; cbn [fold_left].
  - simpl. by rewrite app_nil_r.
  - rewrite IH. unfold build_feature. rewrite build_deps_adjacency.
    simpl. rewrite app_assoc. reflexivity.
Qed.

Lemma build_all_in_degree (l : list feature) (g : graph) (x v : Z) :
  in_degree g !! x = Some v ->
  in_degree (fold_left (build_feature fm) l g) !! x =
  Some (v + Z.of_nat (sum_list_with
          (fun f => if decide (x = id f) then n_present fm (dependencies f) else O) l)).
Proof.
  revert g v; induction l as [|f l IH]; intros g v Hx; cbn [fold_left].
  - rewrite Hx. simpl. f_equal; lia.
  - rewrite (IH (build_feature fm g f) _ (build_deps_in_degree fm (id f) (dependencies f) g x v Hx)).
    simpl. f_equal. lia.
Qed.

Lemma build_all_blocked (l : list feature) (g : graph) (x : Z) :
  default [] (blocked (fold_left (build_feature fm) l g) !! x) =
  default [] (blocked g !! x) ++
  concat (map (fun f => if decide (x = id f) then filter (not_passing_dep fm) (dependencies f)
                        else []) l).
Proof.
  revert g; induction l as [|f l IH]; intros g; cbn [fold_left].
  - simpl. by rewrite app_nil_r.
  - rewrite IH. unfold build_feature. rewrite build_deps_blocked.
    simpl. rewrite app_assoc. reflexivity.
Qed.

End BuildGraph.

Section Unique.

Variable fs : list feature.
Hypothesis Hnd : NoDup (ids fs).

Lemma unique_pick {A} (h : feature -> A) (dflt : A) (f : feature) (l : list feature) :
  NoDup (ids l) -> f ∈ l ->
  concat (map (fun g => if decide (id f = id g) then [h g] else []) l) = [h f].
Proof.
  induction l as [|g l IH]; intros Hl Hf; [inversion Hf|].
  unfold ids in Hl; rewrite fmap_cons, NoDup_cons in Hl. destruct Hl as [Hg Hl].
  simpl. apply elem_of_cons in Hf as [->|Hf].
  - rewrite decide_True by done. simpl.
    assert (Hz : concat (map (fun g' => if decide (id g = id g') then [h g'] else []) l) = []).
    { clear IH. induction l as [|g' l IH']; [done|].
      rewrite fmap_cons, not_elem_of_cons in Hg. destruct Hg as [Hg1 Hg2].
      rewrite fmap_cons, NoDup_cons in Hl. destruct Hl as [_ Hl].
      simpl. rewrite decide_False by done. simpl. by apply IH'. }
    by rewrite Hz.
  - rewrite decide_False.
    + simpl. by apply IH.
    + intros Heq. apply Hg. rewrite <- Heq. by apply list_elem_of_fmap_2.
Qed.

Lemma concat_if_pick {A} (h : feature -> list A) (f : feature) :
  f ∈ fs ->
  concat (map (fun g => if decide (id f = id g) then h g else []) fs) = h f.
Proof.
  intros Hf.
  assert (E : concat (map (fun g => if decide (id f = id g) then h g else []) fs) =
              concat (concat (map (fun g => if decide (id f = id g) then [h g] else []) fs))).
  { clear Hf Hnd. induction fs as [|g l IH]; [done|]. simpl.
    rewrite concat_app, IH. case_decide; simpl; [by rewrite app_nil_r|done]. }
  rewrite E, (unique_pick h [] f fs Hnd Hf). simpl. by rewrite app_nil_r.
Qed.

Lemma sum_if_absent (h : feature -> nat) (x : Z) (l : list feature) :
  x ∉ ids l -> sum_list_with (fun g => if decide (x = id g) then h g else O) l = O.
Proof.
  induction l as [|g l IH]; intros Hx; [done|].
  unfold ids in Hx; rewrite fmap_cons, not_elem_of_cons in Hx. destruct Hx as [Hx1 Hx2].
  simpl. rewrite decide_False by done. rewrite IH by done. done.
Qed.

Lemma sum_if_pick (h : feature -> nat) (f : feature) (l : list feature) :
  NoDup (ids l) -> f ∈ l ->
  sum_list_with (fun g => if decide (id f = id g) then h g else O) l = h f.
Proof.
  induction l as [|g l IH]; intros Hl Hf; [inversion Hf|].
  unfold ids in Hl; rewrite fmap_cons, NoDup_cons in Hl. destruct Hl as [Hg Hl].
  simpl. apply elem_of_cons in Hf as [->|Hf].
  - rewrite decide_True by done. rewrite sum_if_absent by done. lia.
  - rewrite decide_False.
    + by apply IH.
    + intros E. apply Hg. rewrite <- E. by apply list_elem_of_fmap_2.
Qed.

End Unique.

Section Graph.

Variable fs : list feature.
Hypothesis Hnd : NoDup (ids fs).

Let fm := feature_map fs.
Let G := build_graph fs.

Lemma graph_adjacency (c : Z) :
  default [] (adjacency G !! c) = concat (map (adj_contrib fm c) fs).
Proof.
  unfold G, build_graph. rewrite build_all_adjacency. cbn [adjacency].
  rewrite const_map_lookup. by case_decide.
Qed.

Lemma graph_in_degree (f : feature) :
  f ∈ fs -> in_degree G !! id f = Some (Z.of_nat (n_present fm (dependencies f))).
Proof.
  intros Hf. unfold G, build_graph.
  rewrite (build_all_in_degree _ _ _ _ 0).
  - f_equal. rewrite (sum_if_pick (fun g => n_present fm (dependencies g))) by done. lia.
  - cbn [in_degree]. rewrite const_map_lookup. rewrite decide_True; [done|].
    by apply list_elem_of_fmap_2.
Qed.

Lemma graph_blocked (f : feature) :
  f ∈ fs -> default [] (blocked G !! id f) = filter (not_passing_dep fm) (dependencies f).
Proof.
  intros Hf. unfold G, build_graph. rewrite build_all_blocked. cbn [blocked].
  rewrite lookup_empty. simpl. by apply concat_if_pick.
Qed.

Lemma count_occ_concat (L : list (list Z)) (x : Z) :
  count_occ Z.eq_dec (concat L) x = sum_list_with (fun l => count_occ Z.eq_dec l x) L.
Proof.
  induction L as [|l L IH]; [done|]. simpl. by rewrite count_occ_app, IH.
Qed.

Lemma adj_count (c : Z) (f : feature) :
  f ∈ fs ->
  count_occ Z.eq_dec (concat (map (adj_contrib fm c) fs)) (id f) =
  if decide (present fm c) then count_occ Z.eq_dec (dependencies f) c else O.
Proof.
  intros Hf. rewrite count_occ_concat.
  assert (E : ∀ l : list feature,
    sum_list_with (fun l => count_occ Z.eq_dec l (id f)) (map (adj_contrib fm c) l) =
    sum_list_with (fun g => if decide (id f = id g)
                             then (if decide (present fm c)
                                   then count_occ Z.eq_dec (dependencies g) c else O)
                             else O) l).
  { induction l as [|g l IH]; [done|]. simpl. rewrite IH. f_equal.
    unfold adj_contrib. destruct (decide (present fm c)); [|by case_decide].
    destruct (decide (id f = id g)) as [E|E].
    - by apply count_occ_repeat_eq.
    - apply count_occ_repeat_neq. done. }
  rewrite E. by apply sum_if_pick.
Qed.

Lemma adj_elem (c y : Z) :
  y ∈ concat (map (adj_contrib fm c) fs) -> ∃ f, f ∈ fs /\ id f = y.
Proof.
  intros Hy. apply list_elem_of_In, in_concat in Hy as (l & Hl & Hy).
  apply in_map_iff in Hl as (f & <- & Hf). exists f. split; [by apply list_elem_of_In|].
  unfold adj_contrib in Hy. case_decide; [|inversion Hy].
  by apply repeat_spec in Hy.
Qed.

End Graph.

(** ** The heap returns a minimum for (priority, id) *)

Lemma heap_cmp_neg (a b : feature) : heap_cmp a b < 0 <-> key_lt a b.
Proof. unfold heap_cmp, key_lt. case_decide; lia. Qed.

Lemma heap_min_spec (x : feature) (h : list feature) :
  heap_min x h ∈ x :: h /\ ∀ y, y ∈ x :: h -> key_le (heap_min x h) y.
Proof.
  revert x; induction h as [|z h IH]; intros x; simpl.
  - split; [by left|]. intros y Hy. apply list_elem_of_singleton in Hy as ->.
    unfold key_le; lia.
  - destruct (Z.ltb_spec (heap_cmp z x) 0) as [Hlt|Hge].
    + apply heap_cmp_neg in Hlt.
      destruct (IH z) as [Hin Hle]. split.
      * apply elem_of_cons in Hin as [->|Hin]; [by right; left|by right; right].
      * intros y Hy. apply elem_of_cons in Hy as [->|Hy].
        -- specialize (Hle z (list_elem_of_here _ _)). unfold key_le, key_lt in *; lia.
        -- by apply Hle.
    + assert (Hxz : key_le x z) by (unfold key_le; unfold heap_cmp in Hge; case_decide; lia).
      destruct (IH x) as [Hin Hle]. split.
      * apply elem_of_cons in Hin as [->|Hin]; [by left|by right; right].
      * intros y Hy. apply elem_of_cons in Hy as [->|Hy]; [by apply Hle; left|].
        apply elem_of_cons in Hy as [->|Hy].
        -- specialize (Hle x (list_elem_of_here _ _)). unfold key_le in *; lia.
        -- by apply Hle; right.
Qed.

Lemma remove_one_perm (x : feature) (h : list feature) :
  x ∈ h -> h ≡ₚ x :: remove_one x h.
Proof.
  induction h as [|y h IH]; intros Hx; [inversion Hx|]. simpl.
  destruct (decide (x = y)) as [->|Hne]; [done|].
  apply elem_of_cons in Hx as [->|Hx]; [done|].
  rewrite (IH Hx) at 1. apply Permutation_swap.
Qed.

Lemma heap_pop_spec (h h' : list feature) (m : feature) :
  heap_pop h = Some (m, h') -> m ∈ h /\ h ≡ₚ m :: h' /\ ∀ y, y ∈ h -> key_le m y.
Proof.
  destruct h as [|x h]; simpl; [discriminate|]. intros E; injection E as <- <-.
  destruct (heap_min_spec x h) as [Hin Hle]. split; [done|]. split; [|done].
  by apply remove_one_perm.
Qed.

Lemma heap_pop_none (h : list feature) : heap_pop h = None -> h = [].
Proof. destruct h; simpl; [done|discriminate]. Qed.

(** ** Kahn's loop *)

Section Kahn.

Variable fs : list feature.
Hypothesis Hnd : NoDup (ids fs).

Let fm := feature_map fs.

Lemma fm_unique (f g : feature) : f ∈ fs -> g ∈ fs -> id f = id g -> f = g.
Proof.
  intros Hf Hg E. pose proof (feature_map_lookup_in fs f Hnd Hf) as H1.
  pose proof (feature_map_lookup_in fs g Hnd Hg) as H2. congruence.
Qed.

Lemma ids_in (f : feature) (l : list feature) : f ∈ l -> id f ∈ ids l.
Proof. intros Hf. by apply list_elem_of_fmap_2. Qed.

(** The decrement loop: every dependent id loses one per occurrence, and the
    features pushed are exactly those whose in-degree reaches 0. *)
Lemma relax_spec (L : list Z) (deg : gmap Z Z) (heap : list feature) :
  (∀ x, x ∈ L -> x ∈ ids fs) ->
  (∀ x, x ∈ L -> ∃ v, deg !! x = Some v /\ Z.of_nat (count_occ Z.eq_dec L x) <= v) ->
  let '(deg', heap') := relax fm L deg heap in
  (∀ x, deg' !! x = (fun v => v - Z.of_nat (count_occ Z.eq_dec L x)) <$> deg !! x) /\
  ∃ P, heap' = heap ++ P /\ NoDup (ids P) /\
       ∀ g, g ∈ P <-> g ∈ fs /\ id g ∈ L /\
                      deg !! id g = Some (Z.of_nat (count_occ Z.eq_dec L (id g))).
Proof.
  revert deg heap; induction L as [|x L IH]; intros deg heap HL Hv; cbn [relax].
  - simpl. split.
    + intros x. destruct (deg !! x); simpl; [f_equal; lia|done].
    + exists []. rewrite app_nil_r. split; [done|]. split; [constructor|].
      intros g. split; [intros Hg; inversion Hg|]. intros (_ & Hg & _); inversion Hg.
  - destruct (Hv x (list_elem_of_here _ _)) as (v & Hdx & Hcx).
    rewrite count_occ_cons_eq in Hcx by done.
    assert (HxL : x ∈ ids fs) by (apply HL; left).
    unfold ids in HxL. apply list_elem_of_fmap in HxL as (f & Hfx & Hf).
    assert (Hfm : fm !! x = Some f) by (subst x; by apply feature_map_lookup_in).
    rewrite Hdx. change (default 0 (Some v)) with v. rewrite Hfm.
    set (heap1 := if Z.eqb (v - 1) 0 then heap ++ [f] else heap).
    set (deg1 := <[x := v - 1]> deg).
    assert (HL' : ∀ y, y ∈ L -> y ∈ ids fs) by (intros y Hy; apply HL; by right).
    assert (Hv' : ∀ y, y ∈ L -> ∃ w, deg1 !! y = Some w /\
                                  Z.of_nat (count_occ Z.eq_dec L y) <= w).
    { intros y Hy. destruct (decide (y = x)) as [->|Hne].
      - exists (v - 1). unfold deg1. rewrite lookup_insert_eq. split; [done|lia].
      - destruct (Hv y (proj2 (elem_of_cons _ _ _) (or_intror Hy))) as (w & Hw & Hcw).
        exists w. unfold deg1. rewrite lookup_insert_ne by done. split; [done|].
        rewrite count_occ_cons_neq in Hcw by done. done. }
    specialize (IH deg1 heap1 HL' Hv').
    destruct (relax fm L deg1 heap1) as [deg' heap'] eqn:Hr.
    destruct IH as [IHd (P & -> & HPnd & HP)]. cbv beta iota. split.
    + intros y. rewrite IHd. unfold deg1. destruct (decide (y = x)) as [->|Hne].
      * rewrite lookup_insert_eq, Hdx, count_occ_cons_eq by done. simpl. f_equal; lia.
      * rewrite lookup_insert_ne by done. rewrite count_occ_cons_neq by done. done.
    + unfold heap1. destruct (Z.eqb_spec (v - 1) 0) as [Hz|Hz].
      * assert (HxL : count_occ Z.eq_dec L x = O) by lia.
        assert (HxL' : x ∉ L).
        { intros Hx. apply list_elem_of_In, (count_occ_In Z.eq_dec) in Hx. lia. }
        exists (f :: P). rewrite <- app_assoc. split; [done|]. split.
        -- unfold ids. rewrite fmap_cons, NoDup_cons. split; [|done].
           intros Hx. apply list_elem_of_fmap in Hx as (g & Hgx & Hg).
           apply HP in Hg as (_ & HgL & _). apply HxL'. rewrite Hfx, Hgx. done.
        -- intros g. rewrite elem_of_cons, HP. unfold deg1. split.
           ++ intros [->|(Hg & HgL & Hgd)].
              ** split; [done|]. rewrite <- Hfx. split; [left|].
                 rewrite Hdx, count_occ_cons_eq, HxL by done. f_equal; lia.
              ** assert (id g <> x) by (intros E; apply HxL'; rewrite <- E; done).
                 rewrite lookup_insert_ne in Hgd by congruence.
                 split; [done|]. split; [by right|].
                 rewrite count_occ_cons_neq by congruence. done.
           ++ intros (Hg & HgL & Hgd). apply elem_of_cons in HgL as [HgL|HgL].
              ** left. apply fm_unique; [done|done|congruence].
              ** right. assert (id g <> x) by (intros E; apply HxL'; rewrite <- E; done).
                 rewrite lookup_insert_ne by congruence. split; [done|]. split; [done|].
                 rewrite count_occ_cons_neq in Hgd by congruence. done.
      * exists P. split; [done|]. split; [done|].
        intros g. rewrite HP. unfold deg1. split.
        -- intros (Hg & HgL & Hgd). split; [done|]. split; [by right|].
           destruct (decide (id g = x)) as [E|Hne].
           ++ rewrite E in Hgd |- *. rewrite lookup_insert_eq in Hgd.
              rewrite Hdx, count_occ_cons_eq by done. injection Hgd as Hgd. f_equal; lia.
           ++ rewrite lookup_insert_ne in Hgd by congruence.
              rewrite count_occ_cons_neq by congruence. done.
        -- intros (Hg & HgL & Hgd). split; [done|].
           destruct (decide (id g = x)) as [E|Hne].
           ++ rewrite E in Hgd |- *. rewrite Hdx, count_occ_cons_eq in Hgd by done.
              injection Hgd as Hgd. rewrite lookup_insert_eq.
              split; [|f_equal; lia].
              apply list_elem_of_In, (count_occ_In Z.eq_dec). lia.
           ++ apply elem_of_cons in HgL as [HgL|HgL]; [congruence|].
              split; [done|]. rewrite lookup_insert_ne by congruence.
              rewrite count_occ_cons_neq in Hgd by congruence. done.
Qed.

Lemma NoDup_ids_filter (P : feature -> Prop) `{∀ f, Decision (P f)} (l : list feature) :
  NoDup (ids l) -> NoDup (ids (filter P l)).
Proof.
  induction l as [|g l IH]; intros Hl; [constructor|].
  unfold ids in Hl; rewrite fmap_cons, NoDup_cons in Hl. destruct Hl as [Hg Hl].
  rewrite filter_cons. case_decide; [|by apply IH].
  unfold ids. rewrite fmap_cons, NoDup_cons. split; [|by apply IH].
  intros Hin. apply Hg. apply list_elem_of_fmap in Hin as (g' & E & Hg').
  apply list_elem_of_filter in Hg' as [_ Hg']. rewrite E. by apply ids_in.
Qed.

(** Number of dependency occurrences of [f] that are features not yet in [ord]. *)
Definition rem (ord : list feature) (f : feature) : nat :=
  length (filter (fun d => present fm d /\ d ∉ ids ord) (dependencies f)).

Lemma rem_nil (f : feature) : rem [] f = n_present fm (dependencies f).
Proof.
  unfold rem, n_present. f_equal. apply list_filter_iff. intros d. unfold ids.
  simpl. split; [tauto|]. intros Hd; split; [done|]. intros Hin; inversion Hin.
Qed.

Lemma rem_snoc (ord : list feature) (cur f : feature) :
  cur ∈ fs -> id cur ∉ ids ord ->
  (rem (ord ++ [cur]) f + count_occ Z.eq_dec (dependencies f) (id cur) = rem ord f)%nat.
Proof.
  intros Hc Hco. unfold rem.
  assert (Hm : ∀ d, d ∈ ids (ord ++ [cur]) <-> d ∈ ids ord \/ d = id cur).
  { intros d. unfold ids. rewrite fmap_app, elem_of_app. simpl.
    rewrite list_elem_of_singleton. tauto. }
  assert (Hp : present fm (id cur)).
  { unfold present, fm. rewrite feature_map_lookup_in by done. by eexists. }
  induction (dependencies f) as [|d ds IH]; [done|].
  rewrite !filter_cons. destruct (decide (d = id cur)) as [->|Hne].
  - rewrite count_occ_cons_eq by done.
    rewrite decide_False.
    + rewrite decide_True by done. simpl. lia.
    + intros [_ Hn]. apply Hn. apply Hm. by right.
  - rewrite count_occ_cons_neq by done.
    destruct (decide (present fm d ∧ d ∉ ids ord)) as [[Hd1 Hd2]|Hd].
    + rewrite decide_True.
      * simpl. lia.
      * split; [done|]. rewrite Hm. tauto.
    + rewrite decide_False; [done|]. intros [Hd1 Hd2]. apply Hd. split; [done|].
      intros Hin; apply Hd2, Hm; by left.
Qed.

Definition adjL (c : Z) : list Z := default [] (adjacency (build_graph fs) !! c).

(** The loop invariant of Kahn's algorithm: [ord] is the output so far and
    [heap] the heap; a feature has been pushed iff all its present
    dependencies are in [ord], and its in-degree counts those that are not. *)
Definition kahn_inv (ord heap : list feature) (deg : gmap Z Z) : Prop :=
  NoDup (ids (ord ++ heap)) /\ (∀ f, f ∈ ord ++ heap -> f ∈ fs) /\
  (∀ f, f ∈ fs -> deg !! id f = Some (Z.of_nat (rem ord f))) /\
  (∀ f, f ∈ fs -> f ∈ ord ++ heap <-> rem ord f = O).

Lemma kahn_inv_init :
  kahn_inv [] (kahn_seed fs (build_graph fs)) (in_degree (build_graph fs)).
Proof.
  unfold kahn_inv, kahn_seed, fm. simpl. split; [|split; [|split]].
  - by apply NoDup_ids_filter.
  - intros f Hf. by apply list_elem_of_filter in Hf as [_ Hf].
  - intros f Hf. rewrite graph_in_degree by done. by rewrite rem_nil.
  - intros f Hf. rewrite list_elem_of_filter, graph_in_degree, rem_nil by done.
    split; [intros [E _]; injection E as E; unfold fm in *; lia|]. intros E. unfold fm in *. rewrite E. split; [done|tauto].
Qed.

Lemma kahn_inv_step (ord heap heap1 heap2 : list feature) (deg deg' : gmap Z Z) (cur : feature) :
  kahn_inv ord heap deg -> heap_pop heap = Some (cur, heap1) ->
  relax fm (adjL (id cur)) deg heap1 = (deg', heap2) ->
  kahn_inv (ord ++ [cur]) heap2 deg'.
Proof.
  intros (Hnd1 & Hsub & Hdeg & Hiff) Hpop Hrel.
  destruct (heap_pop_spec _ _ _ Hpop) as (Hcur & Hperm & _).
  assert (Hcfs : cur ∈ fs) by (apply Hsub; apply elem_of_app; by right).
  assert (Hco : id cur ∉ ids ord).
  { intros Hin. unfold ids in Hnd1. rewrite fmap_app in Hnd1.
    apply NoDup_app in Hnd1 as (_ & Hd & _). apply (Hd (id cur) Hin). by apply ids_in. }
  assert (HL : adjL (id cur) = concat (map (adj_contrib fm (id cur)) fs))
    by (unfold adjL; apply graph_adjacency).
  assert (Hpc : present fm (id cur)).
  { unfold present, fm. rewrite feature_map_lookup_in by done. by eexists. }
  assert (Hcnt : ∀ f, f ∈ fs -> count_occ Z.eq_dec (adjL (id cur)) (id f) =
                               count_occ Z.eq_dec (dependencies f) (id cur)).
  { intros f Hf. rewrite HL. rewrite (adj_count fs Hnd) by done. by rewrite decide_True. }
  assert (Hrem : ∀ f, f ∈ fs -> (rem (ord ++ [cur]) f +
                      count_occ Z.eq_dec (dependencies f) (id cur) = rem ord f)%nat)
    by (intros f Hf; by apply rem_snoc).
  assert (H1 : ∀ x, x ∈ adjL (id cur) -> x ∈ ids fs).
  { intros x Hx. rewrite HL in Hx. destruct (adj_elem fs _ _ Hx) as (f & Hf & <-).
    by apply ids_in. }
  assert (H2 : ∀ x, x ∈ adjL (id cur) -> ∃ v, deg !! x = Some v /\
                 Z.of_nat (count_occ Z.eq_dec (adjL (id cur)) x) <= v).
  { intros x Hx. rewrite HL in Hx. destruct (adj_elem fs _ _ Hx) as (f & Hf & <-).
    exists (Z.of_nat (rem ord f)). split; [by apply Hdeg|].
    rewrite Hcnt by done. specialize (Hrem f Hf). lia. }
  pose proof (relax_spec (adjL (id cur)) deg heap1 H1 H2) as HR.
  rewrite Hrel in HR. destruct HR as [Hdeg' (P & -> & HndP & HP)].
  assert (HPfs : ∀ g, g ∈ P -> g ∈ fs /\ rem (ord ++ [cur]) g = O /\ rem ord g <> O).
  { intros g Hg. apply HP in Hg as (Hg & HgL & Hgd). rewrite Hdeg in Hgd by done.
    injection Hgd as Hgd. rewrite Hcnt in Hgd by done. apply Nat2Z.inj in Hgd.
    specialize (Hrem g Hg). apply list_elem_of_In, (count_occ_In Z.eq_dec) in HgL.
    rewrite Hcnt in HgL by done. split; [done|]. lia. }
  assert (Hmem : ∀ f, f ∈ (ord ++ [cur]) ++ heap1 ++ P <-> f ∈ ord ++ heap \/ f ∈ P).
  { intros f. rewrite !elem_of_app. rewrite Hperm. rewrite list_elem_of_singleton, elem_of_cons.
    tauto. }
  split; [|split; [|split]].
  - assert (Hp : ids ((ord ++ [cur]) ++ heap1 ++ P) ≡ₚ ids (ord ++ heap) ++ ids P).
    { unfold ids. rewrite !fmap_app. rewrite Hperm. rewrite fmap_cons.
      rewrite <- !app_assoc. reflexivity. }
    rewrite Hp. apply NoDup_app. split; [done|]. split; [|done].
    intros x Hx HxP. unfold ids in Hx, HxP.
    apply list_elem_of_fmap in Hx as (f & -> & Hf).
    apply list_elem_of_fmap in HxP as (g & Eg & Hg).
    destruct (HPfs g Hg) as (Hgfs & _ & Hgr).
    assert (f = g) as <- by (apply fm_unique; [by apply Hsub|done|done]).
    apply Hgr. by apply Hiff.
  - intros f Hf. apply Hmem in Hf as [Hf|Hf]; [by apply Hsub|by apply HPfs].
  - intros f Hf. rewrite Hdeg', Hdeg by done. cbn [fmap option_fmap option_map].
    rewrite Hcnt by done. specialize (Hrem f Hf). f_equal. lia.
  - intros f Hf. rewrite Hmem. specialize (Hrem f Hf). split.
    + intros [Hf1|Hf1]; [|by apply HPfs].
      apply (Hiff f Hf) in Hf1. lia.
    + intros H0. destruct (decide (rem ord f = O)) as [Hz|Hz]; [left; by apply Hiff|].
      right. apply HP. split; [done|]. split.
      * apply list_elem_of_In, (count_occ_In Z.eq_dec). rewrite Hcnt by done. lia.
      * rewrite Hdeg by done. rewrite Hcnt by done. do 2 f_equal. lia.
Qed.

Lemma kahn_inv_length (ord heap : list feature) (deg : gmap Z Z) :
  kahn_inv ord heap deg -> (length (ord ++ heap) <= length fs)%nat.
Proof.
  intros (Hnd1 & Hsub & _).
  assert (Hs : ids (ord ++ heap) ⊆+ ids fs).
  { apply NoDup_submseteq; [done|]. intros x Hx. unfold ids in Hx.
    apply list_elem_of_fmap in Hx as (f & -> & Hf). apply ids_in. by apply Hsub. }
  apply submseteq_length in Hs. unfold ids in Hs. by rewrite !length_fmap in Hs.
Qed.

Lemma key_le_lt_False (a b : feature) : key_le a b -> key_lt b a -> False.
Proof. unfold key_le, key_lt. lia. Qed.

Lemma ids_lookup_ne (l : list feature) (i j : nat) (a b : feature) :
  NoDup (ids l) -> l !! i = Some a -> l !! j = Some b -> i <> j -> id a <> id b.
Proof.
  intros Hl Ha Hb Hij E. apply Hij. apply (NoDup_lookup (ids l) i j (id a) Hl).
  - unfold ids. by rewrite list_lookup_fmap, Ha.
  - unfold ids. by rewrite list_lookup_fmap, Hb, E.
Qed.

(** The order Kahn's loop produces from position [length ord] on: each
    feature output at position [i] had all its present dependencies output
    before [i], and any later feature with a smaller key still had one of
    them outstanding at step [i]. *)
Definition greedy_from (k : nat) (out : list feature) : Prop :=
  ∀ i a, (k <= i)%nat -> out !! i = Some a ->
    rem (take i out) a = O /\
    ∀ j b, (i < j)%nat -> out !! j = Some b -> key_lt b a -> rem (take i out) b <> O.

Lemma kahn_run (n : nat) (ord heap : list feature) (deg : gmap Z Z) :
  kahn_inv ord heap deg -> (length fs < n + length ord)%nat ->
  ∃ out, kahn n fm (adjacency (build_graph fs)) deg heap ord = Some out /\
         (∃ sfx, out = ord ++ sfx) /\ (∃ deg', kahn_inv out [] deg') /\
         greedy_from (length ord) out.
Proof.
  revert ord heap deg; induction n as [|n IH]; intros ord heap deg Hinv Hn.
  - pose proof (kahn_inv_length _ _ _ Hinv) as Hl. rewrite length_app in Hl. lia.
  - cbn [kahn]. destruct (heap_pop heap) as [[cur heap1]|] eqn:Hpop.
    + destruct (relax fm (default [] (adjacency (build_graph fs) !! id cur)) deg heap1)
        as [deg' heap2] eqn:Hrel.
      pose proof (kahn_inv_step _ _ _ _ _ _ _ Hinv Hpop Hrel) as Hinv'.
      destruct (heap_pop_spec _ _ _ Hpop) as (Hcur & _ & Hmin).
      assert (Hlen : (length (ord ++ [cur]) <= length fs)%nat).
      { pose proof (kahn_inv_length _ _ _ Hinv) as Hl. rewrite !length_app in Hl |- *.
        destruct heap; [inversion Hcur|]. simpl in *. lia. }
      destruct (IH (ord ++ [cur]) heap2 deg' Hinv') as (out & Hk & [sfx Hsfx] & [degf Hf] & Hg).
      { rewrite length_app in Hlen |- *. simpl in *. lia. }
      exists out. split; [done|]. split; [exists (cur :: sfx); by rewrite Hsfx, <- app_assoc|].
      split; [by exists degf|].
      intros i a Hi Ha. destruct (decide (i = length ord)) as [->|Hne].
      2: { apply Hg; [rewrite length_app; simpl; lia|done]. }
      assert (Ea : a = cur).
      { rewrite Hsfx, <- app_assoc in Ha. change ([cur] ++ sfx) with (cur :: sfx) in Ha. rewrite list_lookup_middle in Ha by done.
        by injection Ha. }
      subst a. assert (Ht : take (length ord) out = ord).
      { rewrite Hsfx, <- app_assoc. apply take_app_length. }
      rewrite Ht. destruct Hinv as (_ & Hsub & _ & Hiff).
      split; [apply Hiff; [apply Hsub|]; apply elem_of_app; by right|].
      intros j b Hj Hb Hlt Hz.
      destruct Hf as (Hndo & Hsubo & _).
      assert (Hbfs : b ∈ fs).
      { apply Hsubo. rewrite app_nil_r. by eapply list_elem_of_lookup_2. }
      apply (Hiff b Hbfs), elem_of_app in Hz as [Hz|Hz].
      * apply list_elem_of_lookup_1 in Hz as [k Hk'].
        assert (Hko : out !! k = Some b) by (rewrite Hsfx, <- app_assoc; by apply lookup_app_l_Some).
        apply lookup_lt_Some in Hk'. rewrite app_nil_r in Hndo.
        apply (ids_lookup_ne out k j b b Hndo Hko Hb); [lia|done].
      * exact (key_le_lt_False _ _ (Hmin b Hz) Hlt).
    + apply heap_pop_none in Hpop. subst heap. exists ord. split; [done|].
      split; [exists []; by rewrite app_nil_r|]. split; [by exists deg|].
      intros i a Hi Ha. rewrite lookup_ge_None_2 in Ha by done. discriminate.
Qed.

Lemma kahn_order_spec :
  ∃ ord, kahn_order fs = Some ord /\ (∃ deg, kahn_inv ord [] deg) /\ greedy_from O ord.
Proof.
  destruct (kahn_run (S (length fs)) [] (kahn_seed fs (build_graph fs))
              (in_degree (build_graph fs)) kahn_inv_init) as (ord & Hk & _ & Hinv & Hg).
  { simpl. lia. }
  exists ord. split; [done|]. split; [done|]. done.
Qed.

End Kahn.

(** ** Termination of _detect_cycles

    Each call of [dfs] marks a fresh id visited; all ids lie in a finite set
    [U], so the fuel only needs to exceed the size of [U]. *)

Lemma size_list_to_set_le (l : list Z) : (size (list_to_set l : gset Z) <= length l)%nat.
Proof.
  induction l as [|x l IH]; cbn [list_to_set length]; [rewrite size_empty; lia|].
  rewrite size_union_alt, size_singleton.
  pose proof (subseteq_size (list_to_set l ∖ {[x]} : gset Z) (list_to_set l)
                ltac:(set_solver)). lia.
Qed.

Section DfsFuel.

Variable fm : gmap Z feature.
Variable U : gset Z.
Hypothesis HU : ∀ x g d, fm !! x = Some g -> d ∈ dependencies g -> d ∈ U.

Lemma size_diff_mono (V V' : gset Z) : V ⊆ V' -> (size (U ∖ V') <= size (U ∖ V))%nat.
Proof. intros H. apply subseteq_size. set_solver. Qed.

Lemma size_diff_add (x : Z) (V : gset Z) :
  x ∈ U -> x ∉ V -> (size (U ∖ ({[x]} ∪ V)) < size (U ∖ V))%nat.
Proof. intros H1 H2. apply subset_size. set_solver. Qed.

Lemma dfs_some (fuel : nat) (fid : Z) (s : dfs_state) :
  fid ∈ U -> fid ∉ visited s -> (size (U ∖ visited s) <= fuel)%nat ->
  ∃ b s', dfs fuel fm fid s = Some (b, s') /\ visited s ⊆ visited s'.
Proof.
  revert fid s; induction fuel as [|fuel IH]; intros fid s HfU Hfv Hsz.
  - pose proof (size_diff_add fid (visited s) HfU Hfv). lia.
  - cbn [dfs].
    assert (HD : ∀ d, d ∈ default [] (dependencies <$> fm !! fid) -> d ∈ U).
    { destruct (fm !! fid) as [g|] eqn:E; simpl; [intros d Hd; by eapply HU|].
      intros d Hd; inversion Hd. }
    assert (Hlt : (size (U ∖ ({[fid]} ∪ visited s)) <= fuel)%nat)
      by (pose proof (size_diff_add fid (visited s) HfU Hfv); lia).
    assert (Hvis : {[fid]} ∪ visited s ⊆
                   visited (mkDfs ({[fid]} ∪ visited s) ({[fid]} ∪ rec_stack s)
                                  (path s ++ [fid]) (cycles s))) by (simpl; set_solver).
    revert Hvis HD.
    generalize (mkDfs ({[fid]} ∪ visited s) ({[fid]} ∪ rec_stack s) (path s ++ [fid]) (cycles s))
      as s2.
    generalize (default [] (dependencies <$> fm !! fid)) as ds.
    induction ds as [|d ds IHds]; intros s2 Hvis HD; cbv beta iota fix.
    + eexists _, _. split; [reflexivity|]. simpl. set_solver.
    + destruct (decide (d ∉ visited s2)) as [Hd|Hd].
      * destruct (IH d s2 (HD d (list_elem_of_here _ _)) Hd) as (b & s3 & E3 & Hv3).
        { pose proof (size_diff_mono _ _ Hvis). lia. }
        rewrite E3. destruct b.
        -- eexists _, _. split; [reflexivity|]. set_solver.
        -- apply IHds; [set_solver|]. intros x Hx. apply HD. by right.
      * destruct (decide (d ∈ rec_stack s2)).
        -- eexists _, _. split; [reflexivity|]. simpl. set_solver.
        -- apply IHds; [done|]. intros x Hx. apply HD. by right.
Qed.

Lemma detect_loop_some (fuel : nat) (l : list feature) (s : dfs_state) :
  (∀ f, f ∈ l -> id f ∈ U) -> (size (U ∖ visited s) <= fuel)%nat ->
  ∃ s', detect_loop fuel fm l s = Some s'.
Proof.
  revert s; induction l as [|f l IH]; intros s Hl Hsz; simpl; [by eexists|].
  destruct (decide (id f ∉ visited s)) as [Hf|Hf].
  - destruct (dfs_some fuel (id f) s (Hl f (list_elem_of_here _ _)) Hf Hsz)
      as (b & s' & E & Hv).
    rewrite E. apply IH; [intros g Hg; apply Hl; by right|].
    pose proof (size_diff_mono _ _ Hv). lia.
  - apply IH; [intros g Hg; apply Hl; by right|done].
Qed.

End DfsFuel.

Lemma detect_cycles_some (l : list feature) :
  NoDup (ids l) -> ∃ c, _detect_cycles l = Some c.
Proof.
  intros Hnd. set (U := list_to_set (ids l ++ concat (map dependencies l)) : gset Z).
  unfold _detect_cycles, detect_cycles_fuel.
  destruct (detect_loop_some (feature_map l) U) with (fuel := dfs_fuel l) (l := l)
      (s := mkDfs ∅ ∅ [] []) as [s' E].
  - intros x g d Hg Hd. apply feature_map_lookup in Hg as [Hg _]; [|done].
    unfold U. rewrite elem_of_list_to_set, elem_of_app. right.
    apply list_elem_of_In, in_concat. exists (dependencies g).
    split; [apply in_map; by apply list_elem_of_In|by apply list_elem_of_In].
  - intros f Hf. unfold U. rewrite elem_of_list_to_set, elem_of_app. left.
    by apply list_elem_of_fmap_2.
  - unfold dfs_fuel. simpl.
    pose proof (size_list_to_set_le (ids l ++ concat (map dependencies l))).
    pose proof (subseteq_size (U ∖ ∅) U ltac:(set_solver)). unfold U in *. lia.
  - rewrite E. by eexists.
Qed.


Lemma ord_filter_perm (ord fs : list feature) :
  NoDup (ids fs) -> NoDup (ids ord) -> (∀ f, f ∈ ord -> f ∈ fs) ->
  ord ++ filter (fun f => f ∉ ord) fs ≡ₚ fs.
Proof.
  intros Hnd Hndo Hsub. apply NoDup_fmap_1 in Hnd. apply NoDup_fmap_1 in Hndo.
  apply NoDup_Permutation.
  - apply NoDup_app. split; [done|]. split; [|by apply NoDup_filter].
    intros x Hx Hx'. apply list_elem_of_filter in Hx' as [Hx' _]. done.
  - done.
  - intros x. rewrite elem_of_app, list_elem_of_filter. split.
    + intros [Hx|[_ Hx]]; [by apply Hsub|done].
    + intros Hx. destruct (decide (x ∈ ord)); [by left|by right].
Qed.

Lemma ord_full_perm (ord fs : list feature) :
  NoDup (ids ord) -> (∀ f, f ∈ ord -> f ∈ fs) -> (length fs <= length ord)%nat ->
  ord ≡ₚ fs.
Proof.
  intros Hndo Hsub Hlen. apply NoDup_fmap_1 in Hndo.
  apply submseteq_length_Permutation; [|done]. by apply NoDup_submseteq.
Qed.

Lemma perm_ids_facts (l fs : list feature) :
  NoDup (ids fs) -> l ≡ₚ fs ->
  length l = length fs /\ ids l ≡ₚ ids fs /\ NoDup (ids l).
Proof.
  intros Hnd Hp. split; [by apply Permutation_length|].
  assert (Hi : ids l ≡ₚ ids fs) by (unfold ids; by rewrite Hp).
  split; [done|]. by rewrite Hi.
Qed.

(** C1: for every snapshot whose ids are unique, [resolve_dependencies]
    returns a result whose [ordered_features] is a permutation of the
    snapshot: the same length, the same ids, each exactly once, whether or
    not the dependency graph has cycles (the residual nodes are appended). *)
Theorem resolve_dependencies_total (fs : list feature) :
  NoDup (ids fs) ->
  ∃ r, resolve_dependencies fs = Some r /\ ordered_features r ≡ₚ fs /\
       length (ordered_features r) = length fs /\
       ids (ordered_features r) ≡ₚ ids fs /\ NoDup (ids (ordered_features r)).
Proof.
  intros Hnd. destruct (kahn_order_spec fs Hnd) as (ord & Hk & [deg (Hndo & Hsub & _)] & _).
  rewrite app_nil_r in Hndo, Hsub.
  unfold resolve_dependencies. rewrite Hk. destruct (Nat.ltb (length ord) (length fs)) eqn:Hlt.
  - destruct (detect_cycles_some (filter (fun f => f ∉ ord) fs)) as [c Hc].
    { by apply NoDup_ids_filter. }
    rewrite Hc. eexists; split; [reflexivity|]. cbn [ordered_features].
    pose proof (ord_filter_perm ord fs Hnd Hndo Hsub) as Hp.
    split; [done|]. by apply perm_ids_facts.
  - eexists; split; [reflexivity|]. cbn [ordered_features].
    apply Nat.ltb_ge in Hlt.
    pose proof (ord_full_perm ord fs Hndo Hsub Hlt) as Hp.
    split; [done|]. by apply perm_ids_facts.
Qed.

(** ** Acyclic snapshots *)

Section FiniteCycle.

Variable E : Z -> Z -> Prop.

Fixpoint walk (x : Z) (p : list Z) : Prop :=
  match p with
  | [] => True
  | y :: p' => E x y /\ walk y p'
  end.

Lemma walk_reach (x z : Z) (p : list Z) : walk x p -> z ∈ p -> tc E x z.
Proof.
  revert x; induction p as [|y p IH]; intros x Hw Hz; [inversion Hz|].
  destruct Hw as [Hxy Hw]. apply elem_of_cons in Hz as [->|Hz].
  - by apply tc_once.
  - eapply tc_l; [done|]. by apply IH.
Qed.

Lemma walk_repeat (x : Z) (p : list Z) : walk x p -> ~ NoDup (x :: p) -> ∃ z, tc E z z.
Proof.
  revert x; induction p as [|y p IH]; intros x Hw Hn.
  - exfalso. apply Hn. constructor; [intros H; inversion H|constructor].
  - destruct (decide (x ∈ y :: p)) as [Hx|Hx].
    + exists x. by apply (walk_reach x x (y :: p)).
    + destruct Hw as [_ Hw]. apply (IH y Hw). intros Hnd. apply Hn. by constructor.
Qed.

Lemma finite_cycle (L : list Z) (P : Z -> Prop) (x0 : Z) :
  (∀ x, P x -> x ∈ L) -> (∀ x, P x -> ∃ y, P y /\ E x y) -> P x0 ->
  ∃ z, tc E z z.
Proof.
  intros HL Hs H0.
  assert (Hw : ∀ k x, P x -> ∃ p, length p = k /\ walk x p /\ ∀ y, y ∈ p -> P y).
  { induction k as [|k IH]; intros x Hx; [exists []; split; [done|]; split; [done|];
      intros y Hy; inversion Hy|].
    destruct (Hs x Hx) as (y & Hy & Hxy). destruct (IH y Hy) as (p & Hl & Hwp & Hp).
    exists (y :: p). split; [simpl; lia|]. split; [done|].
    intros z Hz. apply elem_of_cons in Hz as [->|Hz]; [done|by apply Hp]. }
  destruct (Hw (length L) x0 H0) as (p & Hl & Hwp & Hp).
  apply (walk_repeat x0 p Hwp). intros Hnd.
  assert (Hs' : x0 :: p ⊆+ L).
  { apply NoDup_submseteq; [done|]. intros y Hy. apply HL.
    apply elem_of_cons in Hy as [->|Hy]; [done|by apply Hp]. }
  apply submseteq_length in Hs'. simpl in Hs'. lia.
Qed.

End FiniteCycle.

Lemma filter_length_zero {A} (P : A -> Prop) `{∀ x, Decision (P x)} (l : list A) :
  length (filter P l) = O <-> ∀ x, x ∈ l -> ~ P x.
Proof.
  induction l as [|y l IH]; [split; [intros _ x Hx; inversion Hx|done]|].
  rewrite filter_cons. case_decide as Hy.
  - simpl. split; [discriminate|]. intros Hn. exfalso. apply (Hn y); [left|done].
  - rewrite IH. split.
    + intros Hn x Hx. apply elem_of_cons in Hx as [->|Hx]; [done|by apply Hn].
    + intros Hn x Hx. apply Hn. by right.
Qed.

Lemma rem_zero (fs ord : list feature) (f : feature) :
  NoDup (ids fs) ->
  rem fs ord f = O <-> ∀ d, d ∈ dependencies f -> d ∈ ids fs -> d ∈ ids ord.
Proof.
  intros Hnd. unfold rem. rewrite filter_length_zero. split.
  - intros H d Hd Hdf. destruct (decide (d ∈ ids ord)) as [|Hn]; [done|].
    exfalso. apply (H d Hd). split; [|done]. unfold present. by apply feature_map_is_Some.
  - intros H d Hd [Hp Hn]. apply Hn, H; [done|]. unfold present in Hp.
    by apply feature_map_is_Some in Hp.
Qed.

Lemma rem_nonzero (fs ord : list feature) (f : feature) :
  NoDup (ids fs) -> rem fs ord f <> O ->
  ∃ d, d ∈ dependencies f /\ d ∈ ids fs /\ d ∉ ids ord.
Proof.
  intros Hnd Hr. unfold rem in Hr.
  destruct (filter (fun d => present (feature_map fs) d /\ d ∉ ids ord) (dependencies f))
    as [|d l] eqn:E; [done|].
  assert (Hd : d ∈ filter (fun d => present (feature_map fs) d /\ d ∉ ids ord) (dependencies f))
    by (rewrite E; left).
  apply list_elem_of_filter in Hd as [[Hp Hn] Hd]. exists d. split; [done|]. split; [|done].
  unfold present in Hp. by apply feature_map_is_Some in Hp.
Qed.

Lemma kahn_acyclic_complete (fs ord : list feature) (deg : gmap Z Z) :
  NoDup (ids fs) -> acyclic fs -> kahn_inv fs ord [] deg -> ∀ f, f ∈ fs -> f ∈ ord.
Proof.
  intros Hnd Hac (_ & _ & _ & Hiff) f Hf.
  destruct (decide (f ∈ ord)) as [|Hfo]; [done|]. exfalso.
  destruct (finite_cycle (dep_edge fs) (ids fs)
              (fun z => ∃ g, g ∈ fs /\ id g = z /\ g ∉ ord) (id f)) as [z Hz].
  - intros x (g & Hg & <- & _). by apply ids_in.
  - intros x (g & Hg & <- & Hgo).
    assert (Hr : rem fs ord g <> O).
    { intros Hr. apply Hgo. apply (Hiff g Hg) in Hr. by rewrite app_nil_r in Hr. }
    destruct (rem_nonzero fs ord g Hnd Hr) as (d & Hd & Hdf & Hdo).
    exists d. split; [|by exists g].
    unfold ids in Hdf. apply list_elem_of_fmap in Hdf as (h & -> & Hh).
    exists h. split; [done|]. split; [done|]. intros Hho. apply Hdo. by apply ids_in.
  - by exists f.
  - by apply (Hac z).
Qed.

(** C3: on an acyclic snapshot with unique ids, [resolve_dependencies] is
    Kahn's algorithm driven by a min-heap on (priority, id): no cycle is
    reported, every feature comes after all of its present dependencies,
    and whenever a feature [b] comes after a feature [a] although [b] has
    the smaller (priority, id) key (in particular the smaller priority),
    some present dependency of [b] was not yet output when [a] was, so [b]
    could not have been taken first.  On [{1:p10, 2:p5, 3:p1}] with no
    edges the order is [[3; 2; 1]]. *)
Theorem resolve_dependencies_priority_order :
  (∀ fs, NoDup (ids fs) -> acyclic fs ->
   ∃ r, resolve_dependencies fs = Some r /\ circular_dependencies r = [] /\
     (∀ j b d, ordered_features r !! j = Some b -> d ∈ dependencies b -> d ∈ ids fs ->
        d ∈ ids (take j (ordered_features r))) /\
     (∀ i j a b, (i < j)%nat -> ordered_features r !! i = Some a ->
        ordered_features r !! j = Some b -> key_lt b a ->
        ∃ d, d ∈ dependencies b /\ d ∈ ids fs /\ d ∉ ids (take i (ordered_features r)))) /\
  (fun r => ids (ordered_features r)) <$> resolve_dependencies ex_priorities = Some [3; 2; 1].
Proof.
  split; [|vm_compute; reflexivity].
  intros fs Hnd Hac. destruct (kahn_order_spec fs Hnd) as (ord & Hk & [deg Hinv] & Hg).
  pose proof (kahn_acyclic_complete fs ord deg Hnd Hac Hinv) as Hall.
  destruct Hinv as (Hndo & Hsub & _). rewrite app_nil_r in Hndo, Hsub.
  assert (Hlen : (length fs <= length ord)%nat).
  { apply submseteq_length, NoDup_submseteq; [|done]. by apply NoDup_fmap_1 in Hnd. }
  unfold resolve_dependencies. rewrite Hk. rewrite (proj2 (Nat.ltb_ge _ _) Hlen).
  eexists; split; [reflexivity|]. cbn [ordered_features circular_dependencies].
  split; [done|]. split.
  - intros j b d Hb Hd Hdf. destruct (Hg j b ltac:(lia) Hb) as [H0 _].
    exact (proj1 (rem_zero fs (take j ord) b Hnd) H0 d Hd Hdf).
  - intros i j a b Hij Ha Hb Hlt. destruct (Hg i a ltac:(lia) Ha) as [_ H1].
    apply (rem_nonzero fs); [done|]. by apply (H1 j b).
Qed.

(** ** What would_create_circular_dependency decides *)

Section CanReach.

Variable fm : gmap Z feature.
Variable src : Z.

(** A [false] answer leaves a visited set that contains the start, and
    whose new members are not the source and have all their dependencies
    visited. *)
Definition closed_from (V V' : gset Z) : Prop :=
  V ⊆ V' /\ ∀ y, y ∈ V' -> y ∉ V ->
    y <> src /\ ∀ f, fm !! y = Some f -> ∀ d, d ∈ dependencies f -> d ∈ V'.

Lemma can_reach_false (n : nat) (x : Z) (V V' : gset Z) :
  can_reach n fm src x V = (false, V') -> x ∈ V' /\ closed_from V V'.
Proof.
  revert x V V'; induction n as [|n IH]; intros x V V' Hc; cbn [can_reach] in Hc;
    [discriminate|].
  destruct (Z.eqb_spec x src) as [Hx|Hx]; [discriminate|].
  destruct (decide (x ∈ V)) as [Hv|Hv].
  { injection Hc as <-. split; [done|]. split; [done|]. intros y Hy Hy'. done. }
  destruct (fm !! x) as [f|] eqn:Hf.
  2: { injection Hc as <-. split; [set_solver|]. split; [set_solver|].
       intros y Hy Hy'. assert (y = x) as -> by set_solver. split; [done|].
       intros g Hg. congruence. }
  assert (Hloop : ∀ ds V1 V2,
    (fix loop (deps : list Z) (visited : gset Z) : bool * gset Z :=
       match deps with
       | [] => (false, visited)
       | dep_id :: deps' =>
           let '(b, visited') := can_reach n fm src dep_id visited in
           if b then (true, visited') else loop deps' visited'
       end) ds V1 = (false, V2) ->
    (∀ d, d ∈ ds -> d ∈ V2) /\ closed_from V1 V2).
  { induction ds as [|d ds IHds]; intros V1 V2 Hl.
    - injection Hl as <-. split; [intros d Hd; inversion Hd|]. split; [done|].
      intros y Hy Hy'. done.
    - destruct (can_reach n fm src d V1) as [[] V3] eqn:Hd; [discriminate|].
      destruct (IH d V1 V3 Hd) as (Hd3 & H13 & Hc13).
      destruct (IHds V3 V2 Hl) as (Hds & H32 & Hc32).
      split.
      + intros e He. apply elem_of_cons in He as [->|He]; [set_solver|by apply Hds].
      + split; [set_solver|]. intros y Hy Hy'.
        destruct (decide (y ∈ V3)) as [Hy3|Hy3].
        * destruct (Hc13 y Hy3 Hy') as [Hne Hcl]. split; [done|].
          intros g Hg e He. specialize (Hcl g Hg e He). set_solver.
        * by apply Hc32. }
  destruct (Hloop (dependencies f) ({[x]} ∪ V) V' Hc) as (Hds & Hsub & Hcl).
  split; [set_solver|]. split; [set_solver|].
  intros y Hy Hy'. destruct (decide (y = x)) as [->|Hne].
  - split; [done|]. intros g Hg. rewrite Hf in Hg. injection Hg as <-. done.
  - apply Hcl; [done|]. set_solver.
Qed.

Lemma can_reach_complete (n : nat) (x : Z) (V' : gset Z) :
  can_reach n fm src x ∅ = (false, V') -> ~ reaches fm x src.
Proof.
  intros Hc Hr. destruct (can_reach_false n x ∅ V' Hc) as (Hx & _ & Hcl).
  assert (Hall : ∀ a y, a ∈ V' -> rtc (step fm) a y -> y ∈ V').
  { intros a y Ha Hy. induction Hy as [|a b c Hab Hbc IHy]; [done|].
    apply IHy. destruct Hab as (g & Hg & Hb).
    destruct (Hcl a Ha) as [_ Hcl']; [set_solver|]. by apply (Hcl' g Hg). }
  destruct (Hcl src (Hall x src Hx Hr)) as [Hne _]; [set_solver|]. done.
Qed.

End CanReach.

Lemma can_reach_deep (fm : gmap Z feature) (src : Z) (n : nat) (x : Z) (V : gset Z) :
  deep_path fm src n x V -> fst (can_reach n fm src x V) = true.
Proof.
  induction 1 as [x V|n x V f d ds Hx Hv Hf Hd Hp IH]; [done|].
  cbn [can_reach]. rewrite (proj2 (Z.eqb_neq _ _) Hx). rewrite decide_False by done.
  rewrite Hf, Hd. destruct (can_reach n fm src d ({[x]} ∪ V)) as [b V'] eqn:E.
  simpl in IH. subst b. done.
Qed.

(** C4 (as corrected): [would_create_circular_dependency fs s t] is [true]
    when [s = t]; for [s <> t] it is [false] when [s] or [t] is not a
    feature of [fs]; when both are, it is [true] whenever [t] already
    reaches [s] through dependency edges (so a [false] answer means no such
    path).  With [1 -> 2], the call [(2, 1)] is [true]; with three
    independent features, the call [(3, 1)] is [false]. *)
Theorem would_create_circular_dependency_spec :
  (∀ fs s t, s = t -> would_create_circular_dependency fs s t = true) /\
  (∀ fs s t, s <> t -> feature_map fs !! s = None \/ feature_map fs !! t = None ->
     would_create_circular_dependency fs s t = false) /\
  (∀ fs s t, s <> t -> is_Some (feature_map fs !! s) -> is_Some (feature_map fs !! t) ->
     reaches (feature_map fs) t s -> would_create_circular_dependency fs s t = true) /\
  would_create_circular_dependency ex_edge 2 1 = true /\
  would_create_circular_dependency ex_independent 3 1 = false.
Proof.
  split; [|split; [|split; [|split]]].
  - intros fs s t ->. unfold would_create_circular_dependency. by rewrite Z.eqb_refl.
  - intros fs s t Hne Hn. unfold would_create_circular_dependency.
    rewrite (proj2 (Z.eqb_neq _ _) Hne). cbv zeta.
    destruct Hn as [Hn|Hn]; rewrite Hn; [done|]. by destruct (feature_map fs !! s).
  - intros fs s t Hne [fs' Hs] [ft Ht] Hr. unfold would_create_circular_dependency.
    rewrite (proj2 (Z.eqb_neq _ _) Hne). cbv zeta. rewrite Hs, Ht.
    destruct (can_reach (S MAX_DEPENDENCY_DEPTH) (feature_map fs) s t ∅) as [[] V'] eqn:E;
      [done|].
    exfalso. exact (can_reach_complete _ _ _ _ _ E Hr).
  - vm_compute. reflexivity.
  - vm_compute. reflexivity.
Qed.

(** C4 counterexample: against the 60-long chain [1 -> ... -> 60] and an
    unrelated feature 100, the call [(100, 1)] answers [true] although 1
    does not reach 100: the search gives up past depth 50. *)
Lemma would_create_circular_dependency_deep_chain :
  would_create_circular_dependency ex_deep 100 1 = true /\
  ~ reaches (feature_map ex_deep) 1 100.
Proof.
  split; [vm_compute; reflexivity|].
  destruct (can_reach 100 (feature_map ex_deep) 100 1 ∅) as [b V'] eqn:E.
  assert (Hb : b = false).
  { change b with (fst (b, V')). rewrite <- E. vm_compute. reflexivity. }
  subst b. exact (can_reach_complete _ _ _ _ _ E).
Qed.

(** C5 (as corrected): only would_create_circular_dependency caps its
    search.  When [MAX_DEPENDENCY_DEPTH + 1] features in a row, none of
    them visited or the source, are explored from the target, it answers
    [true] (assume a cycle) instead of failing.  [_detect_cycles] has no
    depth cap: on every snapshot with unique ids it returns a cycle report
    (its recursion is bounded by the snapshot, not by 50). *)
Theorem depth_cap_spec :
  (∀ fs s t, s <> t -> is_Some (feature_map fs !! s) -> is_Some (feature_map fs !! t) ->
     deep_path (feature_map fs) s (S MAX_DEPENDENCY_DEPTH) t ∅ ->
     would_create_circular_dependency fs s t = true) /\
  (∀ fs, NoDup (ids fs) -> ∃ c, _detect_cycles fs = Some c).
Proof.
  split.
  - intros fs s t Hne [fs' Hs] [ft Ht] Hp. unfold would_create_circular_dependency.
    rewrite (proj2 (Z.eqb_neq _ _) Hne). cbv zeta. rewrite Hs, Ht.
    by apply can_reach_deep.
  - intros fs Hnd. by apply detect_cycles_some.
Qed.

(** C5 counterexample: on the acyclic 60-long chain, [_detect_cycles]
    recurses deeper than 51 calls (it does not finish within that depth)
    and then reports no cycle: it neither stops at depth 50 nor assumes a
    cycle. *)
Lemma detect_cycles_no_depth_cap :
  detect_cycles_fuel 51 (chain 60) = None /\ _detect_cycles (chain 60) = Some [].
Proof. split; vm_compute; reflexivity. Qed.

(** ** Blocked and ready features *)

Lemma passing_ids_spec (fs : list feature) (d : Z) :
  d ∈ passing_ids fs <-> ∃ g, g ∈ fs /\ id g = d /\ passes g = true.
Proof.
  unfold passing_ids. rewrite elem_of_list_to_set. split.
  - intros Hd. apply list_elem_of_fmap in Hd as (g & -> & Hg).
    apply list_elem_of_filter in Hg as [Hp Hg]. by exists g.
  - intros (g & Hg & <- & Hp). apply list_elem_of_fmap_2. by apply list_elem_of_filter.
Qed.

Lemma not_passing_dep_iff (fs : list feature) (d : Z) :
  NoDup (ids fs) ->
  not_passing_dep (feature_map fs) d <-> d ∈ ids fs /\ d ∉ passing_ids fs.
Proof.
  intros Hnd. unfold not_passing_dep. rewrite passing_ids_spec.
  destruct (feature_map fs !! d) as [g|] eqn:E.
  - apply feature_map_lookup in E as [Hg <-]; [|done]. split.
    + intros Hp. split; [by apply list_elem_of_fmap_2|].
      intros (g' & Hg' & Hi & Hp'). assert (g' = g) as -> by (by apply (fm_unique fs)).
      congruence.
    + intros [_ Hn]. destruct (passes g) eqn:Hp; [|done]. exfalso. apply Hn. by exists g.
  - split; [done|]. intros [Hd _]. apply (feature_map_is_Some fs d Hnd) in Hd as [g Hg].
    congruence.
Qed.

Lemma resolve_dependencies_some (fs : list feature) :
  NoDup (ids fs) ->
  ∃ r, resolve_dependencies fs = Some r /\ blocked_features r = blocked (build_graph fs).
Proof.
  intros Hnd. destruct (kahn_order_spec fs Hnd) as (ord & Hk & _).
  unfold resolve_dependencies. rewrite Hk.
  destruct (Nat.ltb (length ord) (length fs)).
  - destruct (detect_cycles_some (filter (fun f => f ∉ ord) fs)) as [c Hc].
    { by apply NoDup_ids_filter. }
    rewrite Hc. by eexists.
  - by eexists.
Qed.

Lemma blocked_fold_spec (p : gset Z) (l : list feature) (f : feature) (bl : list Z) :
  (f, bl) ∈ fold_right (blocked_step p) [] l <->
  f ∈ l /\ passes f = false /\ bl = filter (fun d => d ∉ p) (dependencies f) /\ bl <> [].
Proof.
  induction l as [|g l IH]; simpl.
  - split; [intros H; inversion H|]. intros [H _]; inversion H.
  - unfold blocked_step at 1. destruct (passes g) eqn:Hg.
    + rewrite IH, elem_of_cons. split; [tauto|].
      intros ([->|Hf] & Hp & Hb & Hn); [congruence|tauto].
    + cbv zeta. destruct (filter (fun d => d ∉ p) (dependencies g)) as [|x xs] eqn:E.
      * rewrite IH, elem_of_cons. split; [tauto|].
        intros ([->|Hf] & Hp & Hb & Hn); [congruence|tauto].
      * rewrite elem_of_cons, IH, elem_of_cons. split.
        -- intros [Heq|H]; [injection Heq as -> ->|tauto].
           split; [by left|]. split; [done|]. split; [done|discriminate].
        -- intros ([->|Hf] & Hp & Hb & Hn); [left; by rewrite Hb, E|right; tauto].
Qed.

Lemma get_blocked_features_spec (fs : list feature) (f : feature) (bl : list Z) :
  (f, bl) ∈ get_blocked_features fs <->
  f ∈ fs /\ passes f = false /\
  bl = filter (fun d => d ∉ passing_ids fs) (dependencies f) /\ bl <> [].
Proof. exact (blocked_fold_spec (passing_ids fs) fs f bl). Qed.

(** C6 (corrected). The [blocked_features] map of [resolve_dependencies]
    lists, for each feature of a snapshot with unique ids, exactly those of
    its dependency ids that are present in the snapshot and not passing;
    [get_blocked_features] reports a non-passing feature with [blocked_by]
    equal to all of its dependency ids outside the passing set, absent ids
    included, whenever that list is non-empty. *)
Theorem blocked_lists_spec :
  (∀ fs : list feature, NoDup (ids fs) ->
     ∃ r, resolve_dependencies fs = Some r /\
       ∀ f, f ∈ fs ->
         default [] (blocked_features r !! id f) =
         filter (fun d => d ∈ ids fs /\ d ∉ passing_ids fs) (dependencies f)) /\
  (∀ (fs : list feature) (f : feature) (bl : list Z),
     (f, bl) ∈ get_blocked_features fs <->
     f ∈ fs /\ passes f = false /\
     bl = filter (fun d => d ∉ passing_ids fs) (dependencies f) /\ bl <> []).
Proof.
  split.
  - intros fs Hnd. destruct (resolve_dependencies_some fs Hnd) as (r & Hr & Hb).
    exists r. split; [done|]. intros f Hf. rewrite Hb.
    rewrite (graph_blocked fs Hnd f Hf). apply list_filter_iff.
    intros d. by apply not_passing_dep_iff.
  - apply get_blocked_features_spec.
Qed.

(** C6 counterexample: in [ex_missing] feature 1 depends on the absent id
    999, and [get_blocked_features] still reports 999 as a blocker. *)
Lemma get_blocked_features_missing_dep :
  get_blocked_features ex_missing = [(feat 1 1 [999], [999])] /\
  999 ∉ ids ex_missing.
Proof.
  split.
  - vm_compute. reflexivity.
  - unfold ids, ex_missing. cbn. rewrite elem_of_cons. intros [H|H]; [lia|inversion H].
Qed.

(** C7 (corrected). A feature is kept by the readiness filter of
    [get_ready_features] exactly when it is in the snapshot, not passing,
    not in progress, and each of its dependency ids is the id of a passing
    feature of the snapshot; an absent dependency id makes it not ready.
    A dependency-free, non-passing, non-in-progress feature is ready. *)
Theorem ready_features_spec :
  (∀ (fs : list feature) (f : feature),
     f ∈ ready_features fs <->
     f ∈ fs /\ passes f = false /\ in_progress f = false /\
     ∀ d, d ∈ dependencies f -> ∃ g, g ∈ fs /\ id g = d /\ passes g = true) /\
  (∀ (fs : list feature) (f : feature),
     f ∈ fs -> passes f = false -> in_progress f = false -> dependencies f = [] ->
     f ∈ ready_features fs).
Proof.
  assert (Hr : ∀ (fs : list feature) (f : feature),
     f ∈ ready_features fs <->
     f ∈ fs /\ passes f = false /\ in_progress f = false /\
     ∀ d, d ∈ dependencies f -> ∃ g, g ∈ fs /\ id g = d /\ passes g = true).
  { intros fs f. unfold ready_features. rewrite list_elem_of_filter, Forall_forall.
    setoid_rewrite passing_ids_spec. tauto. }
  split; [exact Hr|].
  intros fs f Hf Hp Hi Hd. apply Hr. repeat split; try done.
  intros d. rewrite Hd. intros H. inversion H.
Qed.

(** C7 counterexample: the only feature of [ex_missing] is not passing,
    not in progress, and its one dependency id 999 is absent from the
    snapshot, yet it is not ready. *)
Lemma ready_features_missing_dep :
  ready_features ex_missing = [] /\
  feat 1 1 [999] ∈ ex_missing /\ 999 ∉ ids ex_missing.
Proof.
  split; [vm_compute; reflexivity|]. split.
  - unfold ex_missing. by left.
  - unfold ids, ex_missing. cbn. rewrite elem_of_cons. intros [H|H]; [lia|inversion H].
Qed.

(** ** Termination of the score and depth computations *)

Lemma bfs_two_cycle (ch : gmap Z (list Z)) (a b : Z) :
  ch !! a = Some [b] -> ch !! b = Some [a] ->
  ∀ fuel d dp, bfs fuel ch [(a, d)] dp = None /\ bfs fuel ch [(b, d)] dp = None.
Proof.
  intros Ha Hb fuel. induction fuel as [|n IH]; intros d dp; [done|].
  split; cbn [bfs]; rewrite ?Ha, ?Hb; cbn [default map app].
  - eapply (proj2 (IH _ _)).
  - eapply (proj1 (IH _ _)).
Qed.

Lemma compute_depth_two_cycle (g : gmap Z (list Z)) (a b : Z) :
  g !! a = Some [b] -> g !! b = Some [a] ->
  ∀ fuel memo, memo !! a = None -> memo !! b = None ->
  compute_depth fuel a g memo = None /\ compute_depth fuel b g memo = None.
Proof.
  intros Ha Hb fuel. induction fuel as [|n IH]; intros memo Hma Hmb; [done|].
  destruct (IH memo Hma Hmb) as [IHa IHb].
  split; cbn [compute_depth]; rewrite ?Hma, ?Hmb, ?Ha, ?Hb; simpl.
  - by rewrite IHb.
  - by rewrite IHa.
Qed.

(** C2 (code bug). Neither computation finishes on these cyclic snapshots,
    whatever the bound on its iterations or its call depth: the BFS of
    [compute_scheduling_scores] keeps re-queueing the two-cycle [2 <-> 3]
    reached from the root 1 of [ex_root_cycle], and [compute_depth] keeps
    recursing around [1 <-> 2] of [ex_two_cycle], its memo being written only
    after the recursive calls return. *)
Theorem scores_and_depth_diverge_on_cycles :
  (∀ fuel, compute_scheduling_scores fuel ex_root_cycle = None) /\
  (∀ fuel, compute_depth fuel 1 (build_adjacency_list ex_two_cycle) ∅ = None).
Proof.
  split.
  - intros fuel. unfold compute_scheduling_scores.
    destruct (build_family ex_root_cycle) as [ch par] eqn:E.
    assert (H1 : ch !! 1 = Some [2]).
    { change ch with (ch, par).1. rewrite <- E. vm_compute. reflexivity. }
    assert (H2 : ch !! 2 = Some [3]).
    { change ch with (ch, par).1. rewrite <- E. vm_compute. reflexivity. }
    assert (H3 : ch !! 3 = Some [2]).
    { change ch with (ch, par).1. rewrite <- E. vm_compute. reflexivity. }
    assert (Hr : roots ex_root_cycle par = [1]).
    { change par with (ch, par).2. rewrite <- E. vm_compute. reflexivity. }
    unfold ex_root_cycle at 1. rewrite Hr. cbn [map].
    destruct fuel as [|n]; [done|]. cbn [bfs]. rewrite H1. cbn [default map app Datatypes.id].
    by rewrite (proj1 (bfs_two_cycle ch 2 3 H2 H3 n _ _)).
  - intros fuel. apply (compute_depth_two_cycle _ 1 2); try done; vm_compute; reflexivity.
Qed.

(** ** Range of the scheduling scores *)

Lemma Qdiv_unit (a m : Z) : 0 <= a <= m -> 0 < m ->
  (0 <= inject_Z a / inject_Z m <= 1)%Q.
Proof.
  intros [Ha Ham] Hm. rewrite Zlt_Qlt in Hm. rewrite Zle_Qle in Ha, Ham.
  change (inject_Z 0) with 0%Q in Ha, Hm. split.
  - apply Qle_shift_div_l; [done|]. lra.
  - apply Qle_shift_div_r; [done|]. lra.
Qed.

Lemma fold_max_ge (l : list Z) (a : Z) :
  a <= fold_left Z.max l a /\ ∀ x, x ∈ l -> x <= fold_left Z.max l a.
Proof.
  revert a. induction l as [|y l IH]; intros a; simpl.
  - split; [lia|]. intros x Hx. inversion Hx.
  - destruct (IH (Z.max a y)) as [H1 H2]. split; [lia|].
    intros x Hx. apply elem_of_cons in Hx as [->|Hx]; [lia|]. by apply H2.
Qed.

Lemma js_max_ge (xs : list Z) (x : Z) : x ∈ xs -> x <= js_max xs.
Proof.
  destruct xs as [|y xs]; [intros H; inversion H|]. simpl.
  destruct (fold_max_ge xs y) as [H1 H2].
  intros Hx. apply elem_of_cons in Hx as [->|Hx]; [lia|]. by apply H2.
Qed.

Lemma amap_get_in (k v : Z) (m : list (Z * Z)) : amap_get k m = Some v -> v ∈ map snd m.
Proof.
  induction m as [|[k' v'] m IH]; simpl; [discriminate|].
  destruct (Z.eqb k k'); [intros [= ->]; by left|]. intros H. right. by apply IH.
Qed.

Lemma amap_set_Forall (P : Z * Z -> Prop) (k v : Z) (m : list (Z * Z)) :
  Forall P m -> P (k, v) -> Forall P (amap_set k v m).
Proof.
  intros Hm Hkv. induction Hm as [|[k' v'] m Hx Hm IH]; simpl; [by constructor|].
  destruct (Z.eqb k k'); by constructor.
Qed.

Lemma bfs_nonneg (fuel : nat) (ch : gmap Z (list Z)) (queue dp dp' : list (Z * Z)) :
  bfs fuel ch queue dp = Some dp' -> Forall nonneg queue -> Forall nonneg dp ->
  Forall nonneg dp'.
Proof.
  revert queue dp. induction fuel as [|n IH]; intros queue dp; simpl; [discriminate|].
  destruct queue as [|[node depth] queue]; [by intros [= ->]|].
  intros Hb Hq Hdp. apply Forall_cons in Hq as [Hn Hq]. unfold nonneg in Hn; simpl in Hn.
  apply IH in Hb; [done| |].
  - apply Forall_app. split; [done|]. apply Forall_forall.
    intros p Hp. apply list_elem_of_In, in_map_iff in Hp as (c & <- & _). unfold nonneg. simpl. lia.
  - destruct (amap_get node dp); [destruct (Z.gtb depth z)|];
      try (apply amap_set_Forall; [done|]); done.
Qed.

Lemma orphans_nonneg (l : list feature) (dp : list (Z * Z)) :
  Forall nonneg dp -> Forall nonneg (orphans l dp).
Proof.
  unfold orphans. revert dp. induction l as [|f l IH]; intros dp Hdp; simpl; [done|].
  apply IH. destruct (amap_get (id f) dp); [done|].
  apply amap_set_Forall; [done|]. unfold nonneg. simpl. lia.
Qed.

Lemma downstream_nonneg (par : gmap Z (list Z)) (l : list Z) (ds : gmap Z Z) :
  nonneg_map ds -> nonneg_map (fold_left (downstream_step par) l ds).
Proof.
  revert ds. induction l as [|fid l IH]; intros ds Hds; simpl; [done|].
  apply IH. unfold downstream_step.
  generalize (default [] (par !! fid)) as ps. intros ps. revert ds Hds.
  induction ps as [|p ps IHp]; intros ds Hds; simpl; [done|]. apply IHp.
  intros k v Hk. apply lookup_insert_Some in Hk as [[<- <-]|[_ Hk]]; [|by eapply Hds].
  destruct (ds !! p) eqn:E1; destruct (ds !! fid) eqn:E2; simpl;
    repeat match goal with H : ds !! _ = Some _ |- _ => apply Hds in H end; lia.
Qed.

Lemma fold_insert_lookup {V} (P : V -> Prop) (s : feature -> V) (l : list feature) (m : gmap Z V) :
  (∀ k v, m !! k = Some v -> P v) -> (∀ f, f ∈ l -> P (s f)) ->
  ∀ k v, fold_left (fun sc f => <[id f := s f]> sc) l m !! k = Some v -> P v.
Proof.
  revert m. induction l as [|f l IH]; intros m Hm Hl; simpl; [done|].
  apply IH; [|intros g Hg; apply Hl; by right].
  intros k v Hk. apply lookup_insert_Some in Hk as [[_ <-]|[_ Hk]]; [apply Hl; by left|].
  by eapply Hm.
Qed.

Lemma score_range (md mds : Z) (dp : list (Z * Z)) (ds : gmap Z Z) (f : feature) :
  md = js_max (map snd dp) -> mds = js_max (map snd (map_to_list ds)) ->
  Forall nonneg dp -> nonneg_map ds -> 0 <= priority f ->
  (0 <= score md mds dp ds f <= 1110)%Q.
Proof.
  intros Hmd Hmds Hdp Hds Hp. unfold score.
  assert (Hu : (0 <= (if Z.gtb mds 0
     then inject_Z (default 0%Z (ds !! id f)) / inject_Z mds else 0) <= 1)%Q).
  { destruct (Z.gtb mds 0) eqn:Eg; [|lra]. apply Z.gtb_lt in Eg. apply Qdiv_unit; [|lia].
    destruct (ds !! id f) as [v|] eqn:E; simpl; [|lia]. split; [by eapply Hds|].
    subst mds. apply js_max_ge. apply list_elem_of_fmap. exists (id f, v). split; [done|].
    by apply elem_of_map_to_list. }
  assert (Hd : (0 <= (if Z.gtb md 0
     then 1 - inject_Z (default 0%Z (amap_get (id f) dp)) / inject_Z md else 1) <= 1)%Q).
  { destruct (Z.gtb md 0) eqn:Eg; [|lra]. apply Z.gtb_lt in Eg.
    assert (0 <= default 0 (amap_get (id f) dp) <= md) as Hv.
    { destruct (amap_get (id f) dp) as [v|] eqn:E; simpl; [|lia].
      apply amap_get_in in E. split.
      - apply list_elem_of_fmap in E as ([k v'] & -> & Hin).
        rewrite Forall_forall in Hdp. exact (Hdp _ Hin).
      - subst md. by apply js_max_ge. }
    pose proof (Qdiv_unit _ _ Hv ltac:(lia)). lra. }
  assert (Hpf : (0 <= inject_Z (10 - Z.min (priority f) 10) / 10 <= 1)%Q).
  { change 10%Q with (inject_Z 10). apply Qdiv_unit; lia. }
  lra.
Qed.

(** C8 (corrected). Whenever [compute_scheduling_scores] returns and every
    feature has a non-negative priority, every score lies between 0 and
    1110. *)
Theorem scheduling_scores_bounded (fuel : nat) (fs : list feature) (sc : gmap Z Q) :
  compute_scheduling_scores fuel fs = Some sc ->
  Forall (fun f => 0 <= priority f) fs ->
  ∀ k v, sc !! k = Some v -> (0 <= v <= 1110)%Q.
Proof.
  intros Hc Hp. unfold compute_scheduling_scores in Hc.
  destruct fs as [|f0 fs0].
  { injection Hc as <-. intros k v Hk.
    pose proof (lookup_empty (M:=gmap Z) (A:=Q) k). congruence. }
  destruct (build_family (f0 :: fs0)) as [ch par].
  destruct (bfs fuel ch _ []) as [dp|] eqn:Eb; [|discriminate].
  injection Hc as <-.
  apply (fold_insert_lookup (fun q => 0 <= q <= 1110)%Q _ (f0 :: fs0) ∅).
  { intros k v Hk. pose proof (lookup_empty (M:=gmap Z) (A:=Q) k). congruence. }
  intros f Hf. apply score_range; try reflexivity.
  - assert (Hd : Forall nonneg dp).
    { apply (bfs_nonneg _ _ _ _ _ Eb); [|constructor].
      apply Forall_forall. intros p Hq. apply list_elem_of_In, in_map_iff in Hq as (r & <- & _).
      unfold nonneg. simpl. lia. }
    apply orphans_nonneg. destruct (amap_get (id f0) dp); [done|].
    apply amap_set_Forall; [done|]. unfold nonneg. simpl. lia.
  - apply downstream_nonneg. intros k v Hk. rewrite const_map_lookup in Hk.
    case_decide; [|discriminate]. injection Hk as <-. lia.
  - rewrite Forall_forall in Hp. by apply Hp.
Qed.

Lemma scheduling_scores_bounded_witness :
  ∃ sc, compute_scheduling_scores 100 ex_priorities = Some sc /\
        ∀ k v, sc !! k = Some v -> (0 <= v <= 1110)%Q.
Proof.
  eexists. split; [vm_compute; reflexivity|].
  apply (scheduling_scores_bounded 100 ex_priorities).
  - vm_compute. reflexivity.
  - repeat constructor; simpl; lia.
Defined.

(** C8 counterexample: with the priority [-1] of feature 1 in [ex_negative],
    its score is 1111, above 1110. *)
Lemma scheduling_score_negative_priority :
  ∃ sc v, compute_scheduling_scores 100 ex_negative = Some sc /\
          sc !! 1 = Some v /\ (v == 1111)%Q.
Proof.
  do 2 eexists. split; [vm_compute; reflexivity|]. split; [vm_compute; reflexivity|].
  vm_compute. reflexivity.
Qed.

(** ** The priority counter *)

Lemma max_priority_fold (rs : list row) (acc : option Z) :
  match fold_left (fun acc r => Some (match acc with
                                      | None => row_priority r
                                      | Some m => Z.max m (row_priority r)
                                      end)) rs acc with
  | None => acc = None /\ rs = []
  | Some m => (acc = Some m \/ ∃ r, r ∈ rs /\ row_priority r = m) /\
              (∀ a, acc = Some a -> a <= m) /\ (∀ r, r ∈ rs -> row_priority r <= m)
  end.
Proof.
  revert acc. induction rs as [|r rs IH]; intros acc; simpl.
  - destruct acc as [m|]; [|done]. split; [by left|]. split.
    + intros a [= ->]. lia.
    + intros r Hr. inversion Hr.
  - specialize (IH (Some (match acc with None => row_priority r
                                       | Some m => Z.max m (row_priority r) end))).
    destruct (fold_left _ rs _) as [m|]; [|by destruct IH].
    destruct IH as (Hw & Hacc & Hall).
    specialize (Hacc _ eq_refl). split; [|split].
    + destruct Hw as [Hw|(r' & Hr' & Hm)]; [|right; exists r'; split; [by right|done]].
      injection Hw as Hw. destruct acc as [a|].
      * destruct (Z.max_spec a (row_priority r)) as [[_ E]|[_ E]].
        -- right. exists r. split; [by left|lia].
        -- left. f_equal. lia.
      * right. exists r. split; [by left|done].
    + intros a ->. lia.
    + intros r' Hr'. apply elem_of_cons in Hr' as [->|Hr']; [|by apply Hall].
      destruct acc; lia.
Qed.

Lemma next_priority_spec (rs : list row) : is_one_plus_max rs (next_priority rs).
Proof.
  unfold next_priority, max_priority, is_one_plus_max.
  pose proof (max_priority_fold rs None) as H.
  destruct (fold_left _ rs None) as [m|]; simpl.
  - destruct H as ([Hw|(r & Hr & Hm)] & _ & Hall); [discriminate|].
    right. split; [exists r; split; [done|lia]|]. intros r' Hr'. apply Hall in Hr'. lia.
  - left. destruct H as [_ ->]. done.
Qed.

Lemma find_row_in (rs : list row) (fid : Z) (r : row) :
  find_row rs fid = Some r -> r ∈ rs /\ row_id r = fid.
Proof.
  unfold find_row. intros H. apply find_some in H as [Hin Heq].
  split; [by apply list_elem_of_In|]. by apply Z.eqb_eq.
Qed.

Lemma find_update_row (rs : list row) (fid : Z) (upd : row -> row) :
  (∀ r, row_id (upd r) = row_id r) ->
  find_row (update_row rs fid upd) fid = upd <$> find_row rs fid.
Proof.
  intros Hid. unfold find_row, update_row. induction rs as [|r rs IH]; simpl; [done|].
  destruct (Z.eqb (row_id r) fid) eqn:E; simpl.
  - by rewrite Hid, E.
  - by rewrite E.
Qed.

Lemma update_row_forall (P : row -> Prop) (rs : list row) (fid : Z) (upd : row -> row) :
  (∀ r, r ∈ rs -> P r) -> (∀ r, r ∈ rs -> row_id r = fid -> P (upd r)) ->
  ∀ r, r ∈ update_row rs fid upd -> P r.
Proof.
  intros Hall Hupd r Hr. unfold update_row in Hr.
  apply list_elem_of_In, in_map_iff in Hr as (r0 & <- & Hin). apply list_elem_of_In in Hin.
  destruct (Z.eqb (row_id r0) fid) eqn:E; [apply Hupd; [done|by apply Z.eqb_eq]|by apply Hall].
Qed.

Lemma update_row_priorities (rs : list row) (fid : Z) (d : option (list Z)) :
  map row_priority (update_row rs fid (set_deps d)) = map row_priority rs.
Proof.
  unfold update_row. rewrite map_map. apply map_ext. intros r.
  by destruct (Z.eqb (row_id r) fid).
Qed.

Lemma bulk_link_priorities (rs : list row) (created : list Z) (i : nat) (specs : list (list Z)) :
  map row_priority (bulk_link rs created i specs) = map row_priority rs.
Proof.
  revert rs i. induction specs as [|indices specs IH]; intros rs i; simpl; [done|].
  rewrite IH. destruct indices; [done|]. apply update_row_priorities.
Qed.

Lemma bulk_insert_rows (st : store) (sp : Z) (i k : nat) :
  ∃ newrows, rows (bulk_insert st sp i k).1 = rows st ++ newrows /\ length newrows = k /\
    ∀ j r, newrows !! j = Some r ->
      row_priority r = sp + Z.of_nat (i + j) /\ row_dependencies r = None.
Proof.
  revert st i. induction k as [|k IH]; intros st i; simpl.
  - exists []. split; [by rewrite app_nil_r|]. split; [done|]. intros j r H. inversion H.
  - destruct (IH (mkStore (rows st ++ [mkRow (last_rowid st + 1) (sp + Z.of_nat i) None false false])
                          (last_rowid st + 1)) (S i)) as (nr & Hr & Hl & Hp).
    destruct (bulk_insert _ sp (S i) k) as [st2 fids] eqn:E. simpl in Hr |- *.
    exists (mkRow (last_rowid st + 1) (sp + Z.of_nat i) None false false :: nr).
    split; [by rewrite Hr, <- app_assoc|]. split; [simpl; lia|].
    intros [|j] r Hj; simpl in Hj.
    + injection Hj as <-. simpl. split; [f_equal; lia|done].
    + apply Hp in Hj as [-> ->]. split; [f_equal; lia|done].
Qed.

Lemma bulk_priorities_next (rs newrows : list row) (sp : Z) :
  is_one_plus_max rs sp ->
  (∀ j r, newrows !! j = Some r -> row_priority r = sp + Z.of_nat j) ->
  ∀ j r, newrows !! j = Some r -> is_one_plus_max (rs ++ take j newrows) (row_priority r).
Proof.
  intros Hsp Hp j r Hj. rewrite (Hp _ _ Hj).
  destruct j as [|j].
  - rewrite take_0, app_nil_r. by rewrite Nat2Z.inj_0, Z.add_0_r.
  - assert (Hlt : ∀ r', r' ∈ rs -> row_priority r' < sp).
    { intros r' Hr'. destruct Hsp as [[-> _]|[_ Hall]]; [inversion Hr'|by apply Hall]. }
    destruct (lookup_lt_is_Some_2 newrows j) as [r0 Hr0].
    { apply lookup_lt_Some in Hj. lia. }
    right. split.
    + exists r0. split.
      * apply elem_of_app. right. apply list_elem_of_lookup_2 with j.
        apply lookup_take_Some. split; [done|lia].
      * rewrite (Hp _ _ Hr0). lia.
    + intros r' Hr'. apply elem_of_app in Hr' as [Hr'|Hr']; [apply Hlt in Hr'; lia|].
      apply list_elem_of_lookup_1 in Hr' as [j' Hj'].
      apply lookup_take_Some in Hj' as [Hj' Hlt']. rewrite (Hp _ _ Hj'). lia.
Qed.

(** C9 (confirmed). [feature_create] appends one row whose priority is one
    more than the largest priority in the store (1 on an empty store);
    [feature_skip] gives the skipped feature that priority; and
    [feature_create_bulk] appends rows the [j]-th of which gets one more than
    the largest priority among the rows present when it is inserted, the
    third pass leaving all priorities unchanged.  Each assigned priority is
    larger than every priority before it. *)
Theorem priority_counter_spec :
  (∀ st : store, ∃ r, rows (feature_create st).1 = rows st ++ [r] /\
     row_id r = (feature_create st).2 /\ is_one_plus_max (rows st) (row_priority r)) /\
  (∀ (st st' : store) (fid : Z), feature_skip st fid = Some st' ->
     ∃ r, find_row (rows st') fid = Some r /\ is_one_plus_max (rows st) (row_priority r)) /\
  (∀ (st st' : store) (specs : list (list Z)), feature_create_bulk st specs = Some st' ->
     ∃ newrows, length newrows = length specs /\
       map row_priority (rows st') = map row_priority (rows st ++ newrows) /\
       ∀ j r, newrows !! j = Some r ->
         is_one_plus_max (rows st ++ take j newrows) (row_priority r)).
Proof.
  split; [|split].
  - intros st. eexists. split; [reflexivity|]. split; [reflexivity|].
    apply next_priority_spec.
  - intros st st' fid. unfold feature_skip.
    destruct (find_row (rows st) fid) as [r|] eqn:E; [|discriminate].
    destruct (row_passes r); [discriminate|]. intros [= <-]. simpl.
    rewrite find_update_row by done. rewrite E. eexists. split; [reflexivity|].
    apply next_priority_spec.
  - intros st st' specs. unfold feature_create_bulk.
    destruct (bulk_valid_from O specs); [|discriminate].
    destruct (bulk_insert_rows st (next_priority (rows st)) O (length specs))
      as (nr & Hr & Hl & Hp).
    destruct (bulk_insert st _ O _) as [st1 created]. simpl in Hr.
    intros [= <-]. exists nr. split; [done|]. simpl. split.
    + by rewrite bulk_link_priorities, Hr.
    + apply (bulk_priorities_next _ _ (next_priority (rows st))); [apply next_priority_spec|].
      intros j r Hj. by apply Hp in Hj as [-> _].
Qed.

(** ** Sorted dependency lists *)

Lemma insert_by_sorted (x : Z) (l : list Z) :
  Sorted Z.le l -> Sorted Z.le (insert_by num_cmp x l).
Proof.
  induction l as [|y l IH]; intros H; simpl; [by repeat constructor|].
  unfold num_cmp. destruct (x - y <? 0) eqn:E.
  - apply Z.ltb_lt in E. constructor; [done|]. constructor. lia.
  - apply Z.ltb_ge in E. apply Sorted_inv in H as [Hl Hh]. constructor; [by apply IH|].
    destruct l as [|z l]; simpl; [constructor; lia|].
    destruct (x - z <? 0); constructor; [lia|]. by inversion Hh.
Qed.

Lemma sort_by_sorted (l : list Z) : Sorted Z.le (sort_by num_cmp l).
Proof.
  unfold sort_by. assert (H : Sorted Z.le (@nil Z)) by constructor. revert H.
  generalize (@nil Z). induction l as [|x l IH]; intros acc H; simpl; [done|].
  apply IH. by apply insert_by_sorted.
Qed.

Lemma filter_sorted (P : Z -> Prop) `{∀ x, Decision (P x)} (l : list Z) :
  Sorted Z.le l -> Sorted Z.le (filter P l).
Proof.
  intros Hl. apply StronglySorted_Sorted. apply Sorted_StronglySorted in Hl; [|intros ???; lia].
  induction Hl as [|x l Hs IH Hf]; [constructor|]. rewrite filter_cons. case_decide; [|done].
  constructor; [done|]. apply Forall_forall. intros y Hy.
  apply list_elem_of_filter in Hy as [_ Hy]. rewrite Forall_forall in Hf. by apply Hf.
Qed.

Lemma deps_sorted_update (rs : list row) (fid : Z) (d : option (list Z)) :
  deps_sorted rs -> (∀ l, d = Some l -> Sorted Z.le l) ->
  deps_sorted (update_row rs fid (set_deps d)).
Proof.
  intros Hrs Hd r l Hr. revert Hr.
  apply (update_row_forall (fun r => row_dependencies r = Some l -> Sorted Z.le l)).
  - intros r' Hr'. by apply Hrs.
  - intros r' _ _. apply Hd.
Qed.

Lemma deps_sorted_bulk_link (rs : list row) (created : list Z) (i : nat) (specs : list (list Z)) :
  deps_sorted rs -> deps_sorted (bulk_link rs created i specs).
Proof.
  revert rs i. induction specs as [|indices specs IH]; intros rs i H; simpl; [done|].
  apply IH. destruct indices; [done|]. apply deps_sorted_update; [done|].
  intros l [= <-]. apply sort_by_sorted.
Qed.

Lemma deps_sorted_app_none (rs nr : list row) :
  deps_sorted rs -> (∀ r, r ∈ nr -> row_dependencies r = None) -> deps_sorted (rs ++ nr).
Proof.
  intros Hrs Hnr r l Hr Hl. apply elem_of_app in Hr as [Hr|Hr]; [by eapply Hrs|].
  rewrite (Hnr r Hr) in Hl. discriminate.
Qed.

(** C10 (confirmed). Every tool that writes rows keeps all stored
    dependency lists sorted in ascending order: adding, setting and bulk
    creating write lists sorted by [sort_by num_cmp], removing filters a list
    that was already sorted, and creating and skipping write none. *)
Theorem deps_sorted_preserved :
  (∀ st st' fid did, deps_sorted (rows st) ->
     feature_add_dependency st fid did = Some st' -> deps_sorted (rows st')) /\
  (∀ st st' fid ds, deps_sorted (rows st) ->
     feature_set_dependencies st fid ds = Some st' -> deps_sorted (rows st')) /\
  (∀ st st' specs, deps_sorted (rows st) ->
     feature_create_bulk st specs = Some st' -> deps_sorted (rows st')) /\
  (∀ st st' fid did, deps_sorted (rows st) ->
     feature_remove_dependency st fid did = Some st' -> deps_sorted (rows st')) /\
  (∀ st, deps_sorted (rows st) -> deps_sorted (rows (feature_create st).1)) /\
  (∀ st st' fid, deps_sorted (rows st) ->
     feature_skip st fid = Some st' -> deps_sorted (rows st')).
Proof.
  split; [|split; [|split; [|split; [|split]]]].
  - intros st st' fid did Hs H. unfold feature_add_dependency in H.
    repeat (case_match; try discriminate). injection H as <-. simpl.
    apply deps_sorted_update; [done|]. intros l [= <-]. apply sort_by_sorted.
  - intros st st' fid ds Hs H. unfold feature_set_dependencies in H.
    destruct (bool_decide (fid ∈ ds)); [discriminate|].
    destruct (Nat.ltb _ _); [discriminate|].
    destruct (negb _); [discriminate|].
    destruct (find_row _ _); [|discriminate].
    destruct (filter _ _); [|discriminate].
    destruct (existsb _ _); [discriminate|].
    injection H as <-. simpl. apply deps_sorted_update; [done|].
    intros l Hl. destruct ds as [|d ds]; [discriminate|].
    destruct (sort_by num_cmp (d :: ds)) eqn:E; [discriminate|].
    injection Hl as <-. rewrite <- E. apply sort_by_sorted.
  - intros st st' specs Hs H. unfold feature_create_bulk in H.
    destruct (bulk_valid_from O specs); [|discriminate].
    destruct (bulk_insert_rows st (next_priority (rows st)) O (length specs))
      as (nr & Hr & _ & Hp).
    destruct (bulk_insert st _ O _) as [st1 created]. simpl in Hr.
    injection H as <-. simpl. apply deps_sorted_bulk_link. rewrite Hr.
    apply deps_sorted_app_none; [done|]. intros r Hin.
    apply list_elem_of_lookup_1 in Hin as [j Hj]. by apply Hp in Hj as [_ ->].
  - intros st st' fid did Hs H. unfold feature_remove_dependency in H.
    destruct (find_row (rows st) fid) as [r|] eqn:E; [|discriminate].
    destruct (negb _); [discriminate|].
    injection H as <-. simpl. apply deps_sorted_update; [done|].
    apply find_row_in in E as [Hr _].
    assert (Hc : Sorted Z.le (default [] (row_dependencies r))).
    { destruct (row_dependencies r) as [l|] eqn:El; simpl; [by eapply Hs|constructor]. }
    intros l Hl. destruct (filter _ _) eqn:Ef; [discriminate|].
    injection Hl as <-. rewrite <- Ef. by apply filter_sorted.
  - intros st Hs. simpl. apply deps_sorted_app_none; [done|].
    intros r Hr. by apply list_elem_of_singleton in Hr as ->.
  - intros st st' fid Hs H. unfold feature_skip in H.
    destruct (find_row (rows st) fid) as [r|]; [|discriminate].
    destruct (row_passes r); [discriminate|]. injection H as <-. simpl.
    intros r' l Hr'. revert Hr'.
    apply (update_row_forall (fun r => row_dependencies r = Some l -> Sorted Z.le l)).
    + intros r0 Hr0. by apply Hs.
    + intros r0 Hr0 _. simpl. by apply Hs.
Qed.

Lemma resolve_dependencies_total_witness :
  NoDup (ids ex_cycle) /\
  ∃ r, resolve_dependencies ex_cycle = Some r /\ ordered_features r ≡ₚ ex_cycle /\
       length (ordered_features r) = length ex_cycle /\
       ids (ordered_features r) ≡ₚ ids ex_cycle /\ NoDup (ids (ordered_features r)).
Proof.
  assert (H : NoDup (ids ex_cycle)) by (apply (bool_decide_unpack _); vm_compute; reflexivity).
  split; [exact H|]. apply (resolve_dependencies_total ex_cycle). exact H.
Defined.

(** ** Missing dependencies *)

Section BuildMissing.

Variable fm : gmap Z feature.

Lemma build_deps_missing (fid : Z) (ds : list Z) (g : graph) (x : Z) :
  default [] (missing (fold_left (build_step fm fid) ds g) !! x) =
  default [] (missing g !! x) ++
  (if decide (x = fid) then filter (fun d => fm !! d = None) ds else []).
Proof.
  revert g; induction ds as [|d ds IH]; intros g; cbn [fold_left].
  - case_decide; simpl; by rewrite app_nil_r.
  - rewrite IH. unfold build_step.
    destruct (fm !! d) as [dep|] eqn:Hd; cbn [adjacency in_degree blocked missing].
    + destruct (decide (x = fid)); [|done].
      rewrite filter_cons_False; [done|]. congruence.
    + destruct (decide (x = fid)) as [->|Hne].
      * rewrite lookup_insert_eq. simpl. rewrite filter_cons_True by done.
        rewrite <- app_assoc; reflexivity.
      * by rewrite lookup_insert_ne by congruence.
Qed.

Lemma build_all_missing (l : list feature) (g : graph) (x : Z) :
  default [] (missing (fold_left (build_feature fm) l g) !! x) =
  default [] (missing g !! x) ++
  concat (map (fun f => if decide (x = id f) then filter (fun d => fm !! d = None) (dependencies f)
                        else []) l).
Proof.
  revert g; induction l as [|f l IH]; intros g; cbn [fold_left].
  - simpl. by rewrite app_nil_r.
  - rewrite IH. unfold build_feature. rewrite build_deps_missing.
    simpl. rewrite app_assoc. reflexivity.
Qed.

End BuildMissing.

Lemma resolve_dependencies_graph (fs : list feature) :
  NoDup (ids fs) ->
  ∃ r, resolve_dependencies fs = Some r /\ blocked_features r = blocked (build_graph fs) /\
       missing_dependencies r = missing (build_graph fs).
Proof.
  intros Hnd. destruct (kahn_order_spec fs Hnd) as (ord & Hk & _).
  unfold resolve_dependencies. rewrite Hk.
  destruct (Nat.ltb (length ord) (length fs)).
  - destruct (detect_cycles_some (filter (fun f => f ∉ ord) fs)) as [c Hc].
    { by apply NoDup_ids_filter. }
    rewrite Hc. by eexists.
  - by eexists.
Qed.

(** [missing_dependencies] of [resolve_dependencies]: on a snapshot with
    unique ids, each feature is mapped to exactly those of its dependency
    ids that are not ids of the snapshot, in the order of its list. *)
Theorem resolve_dependencies_missing (fs : list feature) :
  NoDup (ids fs) ->
  ∃ r, resolve_dependencies fs = Some r /\
    ∀ f, f ∈ fs ->
      default [] (missing_dependencies r !! id f) =
      filter (fun d => d ∉ ids fs) (dependencies f).
Proof.
  intros Hnd. destruct (resolve_dependencies_graph fs Hnd) as (r & Hr & _ & Hm).
  exists r. split; [done|]. intros f Hf. rewrite Hm.
  unfold build_graph. rewrite build_all_missing. cbn [missing].
  rewrite lookup_empty. simpl. rewrite (concat_if_pick fs Hnd _ f Hf).
  apply list_filter_iff. intros d.
  rewrite <- (feature_map_is_Some fs d Hnd). rewrite <- eq_None_not_Some. done.
Qed.

Lemma resolve_dependencies_missing_witness :
  NoDup (ids ex_missing) /\
  ∃ r, resolve_dependencies ex_missing = Some r /\
    ∀ f, f ∈ ex_missing ->
      default [] (missing_dependencies r !! id f) =
      filter (fun d => d ∉ ids ex_missing) (dependencies f).
Proof.
  assert (H : NoDup (ids ex_missing)) by (apply (bool_decide_unpack _); vm_compute; reflexivity).
  split; [exact H|]. apply (resolve_dependencies_missing ex_missing). exact H.
Defined.

(** ** are_dependencies_satisfied and get_blocking_dependencies *)

Lemma forallb_elem_of (p : gset Z) (l : list Z) :
  forallb (fun d => bool_decide (d ∈ p)) l = true <-> ∀ d, d ∈ l -> d ∈ p.
Proof.
  rewrite forallb_forall. split.
  - intros Hf d Hd. apply list_elem_of_In in Hd. specialize (Hf d Hd).
    by apply bool_decide_eq_true in Hf.
  - intros Hf d Hd. apply bool_decide_eq_true. apply Hf. by apply list_elem_of_In.
Qed.

Lemma filter_nil_iff {A} (P : A -> Prop) `{∀ x, Decision (P x)} (l : list A) :
  filter P l = [] <-> ∀ x, x ∈ l -> ~ P x.
Proof.
  rewrite <- filter_length_zero. split; [by intros ->|].
  intros Hl. by apply nil_length_inv.
Qed.

Lemma are_dependencies_satisfied_some (f : feature) (p : gset Z) :
  are_dependencies_satisfied f (Some p) = Some true <-> ∀ d, d ∈ dependencies f -> d ∈ p.
Proof.
  unfold are_dependencies_satisfied. cbv zeta.
  destruct (dependencies f) as [|d ds] eqn:E.
  - split; [intros _ x Hx; inversion Hx|done].
  - rewrite <- forallb_elem_of. split; [by intros [=]|by intros ->].
Qed.

(** Without a passing set, [are_dependencies_satisfied] answers [true] for
    a dependency-free feature and throws otherwise, while
    [get_blocking_dependencies] always throws.  With a set, the first
    answers [true] exactly when every dependency id is in the set, which is
    exactly when the second returns the empty list. *)
Theorem dependency_helpers_spec :
  (∀ f, dependencies f = [] -> are_dependencies_satisfied f None = Some true) /\
  (∀ f, dependencies f <> [] -> are_dependencies_satisfied f None = None) /\
  (∀ f, get_blocking_dependencies f None = None) /\
  (∀ f p, are_dependencies_satisfied f (Some p) = Some true <->
          ∀ d, d ∈ dependencies f -> d ∈ p) /\
  (∀ f p, are_dependencies_satisfied f (Some p) = Some true <->
          get_blocking_dependencies f (Some p) = Some []).
Proof.
  pose proof are_dependencies_satisfied_some as Hs.
  split; [|split; [|split; [|split]]].
  - intros f E. unfold are_dependencies_satisfied. by rewrite E.
  - intros f E. unfold are_dependencies_satisfied. by destruct (dependencies f).
  - done.
  - exact Hs.
  - intros f p. rewrite Hs. unfold get_blocking_dependencies. split.
    + intros Hp. f_equal. apply filter_nil_iff. intros d Hd Hn. by apply Hn, Hp.
    + intros [= Hf]. intros d Hd. apply filter_nil_iff with (x := d) in Hf; [|done].
      destruct (decide (d ∈ p)); [done|]. by exfalso.
Qed.

(** The loops of [get_ready_features] and [get_blocked_features] decide as
    the helpers do on the passing set of the snapshot: a feature is ready
    exactly when it is not passing, not in progress and
    [are_dependencies_satisfied] answers [true]; it is reported blocked
    with [blocked_by = bl] exactly when it is not passing and
    [get_blocking_dependencies] returns the non-empty [bl]. *)
Theorem engine_loops_agree_with_helpers (fs : list feature) :
  (∀ f, f ∈ ready_features fs <->
        f ∈ fs /\ passes f = false /\ in_progress f = false /\
        are_dependencies_satisfied f (Some (passing_ids fs)) = Some true) /\
  (∀ f bl, (f, bl) ∈ get_blocked_features fs <->
        f ∈ fs /\ passes f = false /\
        get_blocking_dependencies f (Some (passing_ids fs)) = Some bl /\ bl <> []).
Proof.
  split.
  - intros f. unfold ready_features. rewrite list_elem_of_filter, Forall_forall.
    rewrite are_dependencies_satisfied_some. tauto.
  - intros f bl. rewrite get_blocked_features_spec. unfold get_blocking_dependencies.
    split.
    + intros (Hf & Hp & -> & Hn). done.
    + intros (Hf & Hp & [= <-] & Hn). done.
Qed.

(** ** validate_dependencies *)

Lemma append_nonempty (c : Ascii.ascii) (s t : String.string) :
  String.append (String.String c s) t <> ""%string.
Proof. discriminate. Qed.

(** [validate_dependencies] accepts exactly the lists of at most
    [MAX_DEPENDENCIES] distinct ids, all in [all_feature_ids] and none equal
    to [feature_id]; its message is empty exactly when it accepts.  Every
    call that feature_set_dependencies accepts is accepted by
    [validate_dependencies] against the ids of the store. *)
Theorem validate_dependencies_spec :
  (∀ fid ds all, fst (validate_dependencies fid ds all) = true <->
     (length ds <= MAX_DEPENDENCIES)%nat /\ (fid ∉ ds) /\ (∀ d, d ∈ ds -> d ∈ all) /\ NoDup ds) /\
  (∀ fid ds all, snd (validate_dependencies fid ds all) = ""%string <->
     fst (validate_dependencies fid ds all) = true) /\
  (∀ st fid ds st', feature_set_dependencies st fid ds = Some st' ->
     validate_dependencies fid ds (list_to_set (row_id <$> rows st)) = (true, ""%string)).
Proof.
  assert (Hv : ∀ fid ds all,
    (validate_dependencies fid ds all = (true, ""%string) /\
     (length ds <= MAX_DEPENDENCIES)%nat /\ (fid ∉ ds) /\ (∀ d, d ∈ ds -> d ∈ all) /\ NoDup ds) \/
    (fst (validate_dependencies fid ds all) = false /\
     snd (validate_dependencies fid ds all) <> ""%string /\
     ~ ((length ds <= MAX_DEPENDENCIES)%nat /\ (fid ∉ ds) /\
        (∀ d, d ∈ ds -> d ∈ all) /\ NoDup ds))).
  { intros fid ds all. unfold validate_dependencies.
    destruct (Nat.ltb_spec MAX_DEPENDENCIES (length ds)) as [Hl|Hl].
    { right. split; [done|]. split; [apply append_nonempty|]. lia. }
    case_bool_decide as Hf.
    { right. split; [done|]. split; [discriminate|]. tauto. }
    destruct (filter (fun d => d ∉ all) ds) as [|m ms] eqn:Em.
    - pose proof (proj1 (filter_nil_iff _ _) Em) as Hall.
      case_bool_decide as Hn; simpl.
      + left. split; [done|]. repeat split; try done.
        intros d Hd. destruct (decide (d ∈ all)); [done|]. by exfalso; apply (Hall d).
      + right. split; [done|]. split; [discriminate|]. tauto.
    - right. split; [done|]. split; [apply append_nonempty|].
      intros (_ & _ & Hall & _).
      assert (Hm : m ∈ filter (fun d => d ∉ all) ds) by (rewrite Em; left).
      apply list_elem_of_filter in Hm as [Hm1 Hm2]. by apply Hm1, Hall. }
  split; [|split].
  - intros fid ds all. destruct (Hv fid ds all) as [(-> & Hc)|(Hf & _ & Hc)].
    + done.
    + rewrite Hf. split; [discriminate|tauto].
  - intros fid ds all. destruct (Hv fid ds all) as [(-> & _)|(Hf & Hs & _)].
    + done.
    + rewrite Hf. split; [tauto|discriminate].
  - intros st fid ds st' H. unfold feature_set_dependencies in H.
    case_bool_decide as Hf; [discriminate|].
    destruct (Nat.ltb_spec MAX_DEPENDENCIES (length ds)) as [Hl|Hl]; [discriminate|].
    case_bool_decide as Hn; [|discriminate]. cbn [negb] in H.
    destruct (find_row (rows st) fid); [|discriminate].
    destruct (filter _ ds) as [|m ms] eqn:Em; [|discriminate].
    pose proof (proj1 (filter_nil_iff _ _) Em) as Hall.
    destruct (Hv fid ds (list_to_set (row_id <$> rows st))) as [(-> & _)|(_ & _ & Hc)];
      [done|].
    exfalso. apply Hc. repeat split; try done.
    intros d Hd. destruct (decide (d ∈ (list_to_set (row_id <$> rows st) : gset Z))); [done|].
    by exfalso; apply (Hall d).
Qed.

(** ** build_graph_data *)

Lemma edges_fold (t : Z) (ds : list Z) (e : list (Z * Z)) :
  fold_left (fun edges dep_id => edges ++ [(dep_id, t)]) ds e = e ++ map (fun d => (d, t)) ds.
Proof.
  revert e; induction ds as [|d ds IH]; intros e; simpl; [by rewrite app_nil_r|].
  rewrite IH. by rewrite <- app_assoc.
Qed.

Lemma graph_data_fold (p : gset Z) (l : list feature) (gd : graph_data) :
  fold_left (graph_data_step p) l gd =
  mkGraphData (nodes gd ++ map (fun f => mkNode (id f) (graph_status_of p f) (priority f)
                                               (dependencies f)) l)
              (edges gd ++ concat (map (fun f => map (fun d => (d, id f)) (dependencies f)) l)).
Proof.
  revert gd; induction l as [|f l IH]; intros gd; simpl.
  - by rewrite !app_nil_r; destruct gd.
  - rewrite IH. unfold graph_data_step. simpl. rewrite edges_fold.
    by rewrite <- !app_assoc.
Qed.

(** build_graph_data (and feature_get_graph) gives one node per feature,
    in order, with the feature's id, priority and dependency list.  A node
    is [done] exactly when its feature passes, [blocked] exactly when
    get_blocked_features reports the feature, and [pending] exactly when
    the readiness filter keeps it.  There is an edge [(s, t)] exactly when
    a feature with id [t] lists [s] as a dependency, absent ids included. *)
Theorem build_graph_data_spec (fs : list feature) :
  length (nodes (build_graph_data fs)) = length fs /\
  (∀ i f n, fs !! i = Some f -> nodes (build_graph_data fs) !! i = Some n ->
     node_id n = id f /\ node_priority n = priority f /\ node_dependencies n = dependencies f /\
     (node_status n = status_done <-> passes f = true) /\
     (node_status n = status_blocked <-> ∃ bl, (f, bl) ∈ get_blocked_features fs) /\
     (node_status n = status_pending <-> f ∈ ready_features fs)) /\
  (∀ s t, (s, t) ∈ edges (build_graph_data fs) <->
          ∃ f, f ∈ fs /\ id f = t /\ s ∈ dependencies f).
Proof.
  unfold build_graph_data. rewrite graph_data_fold. cbn [nodes edges app].
  split; [|split].
  - by rewrite length_map.
  - intros i f n Hf Hn. rewrite list_lookup_fmap, Hf in Hn. injection Hn as <-.
    cbn [node_id node_priority node_dependencies node_status].
    assert (Hfs : f ∈ fs) by (by eapply list_elem_of_lookup_2).
    split; [done|]. split; [done|]. split; [done|].
    unfold graph_status_of. cbv zeta.
    setoid_rewrite get_blocked_features_spec. unfold ready_features.
    rewrite list_elem_of_filter, Forall_forall.
    destruct (passes f) eqn:Hp.
    { split; [done|]. split; [split; [discriminate|]; intros (bl & _ & ? & _); discriminate|].
      split; [discriminate|]. intros ((? & _) & _). discriminate. }
    destruct (filter (fun d => d ∉ passing_ids fs) (dependencies f)) as [|b bs] eqn:Eb.
    + pose proof (proj1 (filter_nil_iff _ _) Eb) as Hall.
      assert (Hnb : ~ ∃ bl, f ∈ fs /\ passes f = false /\
                      bl = filter (fun d => d ∉ passing_ids fs) (dependencies f) /\ bl <> [])
        by (intros (bl & _ & _ & -> & Hn); by rewrite Eb in Hn).
      destruct (in_progress f) eqn:Hi.
      * split; [split; discriminate|]. split; [split; [discriminate|intros (bl & A & _ & C & D); exfalso; apply Hnb; by exists bl]|].
        split; [discriminate|]. intros ((_ & ? & _) & _). discriminate.
      * split; [split; discriminate|]. split; [split; [discriminate|intros (bl & A & _ & C & D); exfalso; apply Hnb; by exists bl]|].
        split; [|done]. intros _. split; [|done]. split; [done|]. split; [done|].
        intros d Hd. destruct (decide (d ∈ passing_ids fs)); [done|].
        by exfalso; apply (Hall d).
    + split; [split; discriminate|]. split.
      * split; [|done]. intros _. exists (b :: bs). done.
      * split; [discriminate|]. intros ((_ & _ & Hd) & _).
        assert (Hb : b ∈ filter (fun d => d ∉ passing_ids fs) (dependencies f))
          by (rewrite Eb; left).
        apply list_elem_of_filter in Hb as [Hb1 Hb2]. exfalso. by apply Hb1, Hd.
  - intros s t. rewrite list_elem_of_In, in_concat. split.
    + intros (l & Hl & Hst). apply in_map_iff in Hl as (f & <- & Hf).
      apply in_map_iff in Hst as (d & [= <- <-] & Hd).
      exists f. split; [by apply list_elem_of_In|]. split; [done|]. by apply list_elem_of_In.
    + intros (f & Hf & <- & Hs). exists (map (fun d => (d, id f)) (dependencies f)).
      split; [apply in_map_iff; exists f; split; [done|]; by apply list_elem_of_In|].
      apply in_map_iff. exists s. split; [done|]. by apply list_elem_of_In.
Qed.

(** ** build_reverse_adjacency *)

Lemma feature_map_fold_is_Some (l : list feature) (m : gmap Z feature) (x : Z) :
  is_Some (fold_left (fun m f => <[id f := f]> m) l m !! x) <-> x ∈ ids l \/ is_Some (m !! x).
Proof.
  revert m; induction l as [|g l IH]; intros m; cbn [fold_left].
  - unfold ids. simpl. split; [tauto|]. intros [H|H]; [inversion H|done].
  - rewrite IH. unfold ids. rewrite fmap_cons, elem_of_cons.
    destruct (decide (x = id g)) as [->|Hne].
    + rewrite lookup_insert_eq. split; [tauto|]. intros _. right. by eexists.
    + rewrite lookup_insert_ne by congruence. tauto.
Qed.

Lemma feature_map_dom (fs : list feature) (x : Z) :
  is_Some (feature_map fs !! x) <-> is_Some (const_map fs ([] : list Z) !! x).
Proof.
  unfold feature_map. rewrite feature_map_fold_is_Some, const_map_lookup.
  rewrite lookup_empty. case_decide; split; try tauto.
  - intros _. by eexists.
  - intros [Hx|[? Hx]]; [done|discriminate].
  - intros [? Hx]; discriminate.
Qed.

Section Reverse.

Variable fm : gmap Z feature.

Definition same_keys (rev : gmap Z (list Z)) : Prop :=
  ∀ k, is_Some (fm !! k) <-> is_Some (rev !! k).

Lemma reverse_deps (fid : Z) (ds : list Z) (g : graph) :
  same_keys (adjacency g) ->
  fold_left (fun reverse dep_id =>
      match reverse !! dep_id with
      | Some l => <[dep_id := l ++ [fid]]> reverse
      | None => reverse
      end) ds (adjacency g) =
  adjacency (fold_left (build_step fm fid) ds g) /\
  same_keys (adjacency (fold_left (build_step fm fid) ds g)).
Proof.
  revert g; induction ds as [|d ds IH]; intros g Hk; cbn [fold_left]; [done|].
  assert (E : (match adjacency g !! d with
               | Some l => <[d := l ++ [fid]]> (adjacency g)
               | None => adjacency g
               end) = adjacency (build_step fm fid g d) /\
              same_keys (adjacency (build_step fm fid g d))).
  { unfold build_step. pose proof (Hk d) as Hkd.
    destruct (fm !! d) as [dep|] eqn:Hd; cbn [adjacency].
    - destruct (adjacency g !! d) as [l|] eqn:Ha; [|by destruct (proj1 Hkd ltac:(by eexists))].
      split; [done|]. intros k. destruct (decide (k = d)) as [->|Hne].
      + rewrite lookup_insert_eq, Hd. split; intros _; by eexists.
      + rewrite lookup_insert_ne by congruence. apply Hk.
    - destruct (adjacency g !! d) as [l|] eqn:Ha; [|split; [done|exact Hk]].
      by destruct (proj2 Hkd ltac:(by eexists)). }
  destruct E as [E Hk']. rewrite E. by apply IH.
Qed.

End Reverse.

Lemma reverse_all (fm : gmap Z feature) (l : list feature) (g : graph) :
  same_keys fm (adjacency g) ->
  fold_left (fun reverse feature =>
    fold_left (fun reverse dep_id =>
      match reverse !! dep_id with
      | Some l => <[dep_id := l ++ [id feature]]> reverse
      | None => reverse
      end) (dependencies feature) reverse) l (adjacency g) =
  adjacency (fold_left (build_feature fm) l g) /\
  same_keys fm (adjacency (fold_left (build_feature fm) l g)).
Proof.
  revert g; induction l as [|f l IH]; intros g Hk; cbn [fold_left]; [done|].
  destruct (reverse_deps fm (id f) (dependencies f) g Hk) as [E Hk'].
  rewrite E. by apply IH.
Qed.

(** build_reverse_adjacency computes the same map as the [adjacency] that
    resolve_dependencies builds: its keys are the feature ids, and on a
    snapshot with unique ids the key [c] lists the id of each feature [f]
    as many times as [c] occurs in the dependency list of [f]. *)
Theorem build_reverse_adjacency_spec (fs : list feature) :
  build_reverse_adjacency fs = adjacency (build_graph fs) /\
  (∀ c, is_Some (build_reverse_adjacency fs !! c) <-> c ∈ ids fs) /\
  (NoDup (ids fs) -> ∀ c f, c ∈ ids fs -> f ∈ fs ->
     count_occ Z.eq_dec (default [] (build_reverse_adjacency fs !! c)) (id f) =
     count_occ Z.eq_dec (dependencies f) c).
Proof.
  assert (Hk0 : same_keys (feature_map fs)
                  (adjacency (mkGraph (const_map fs []) (const_map fs 0) ∅ ∅))).
  { intros k. cbn [adjacency]. apply feature_map_dom. }
  destruct (reverse_all (feature_map fs) fs _ Hk0) as [E Hk].
  assert (Hrev : build_reverse_adjacency fs = adjacency (build_graph fs)) by exact E.
  split; [exact Hrev|]. split.
  - intros c. rewrite Hrev. rewrite <- (Hk c). rewrite feature_map_dom, const_map_lookup.
    case_decide as Hc; [split; [done|intros _; by eexists]|split; [intros [? Hx]; discriminate|done]].
  - intros Hnd c f Hc Hf. rewrite Hrev, graph_adjacency, (adj_count fs Hnd c f Hf).
    rewrite decide_True; [done|]. unfold present. by apply feature_map_is_Some.
Qed.

(** ** Sorting and slicing in get_ready_features *)

Section SortQ.

Context {A : Type}.
Variable cmp : A -> A -> Q.
Variable le : A -> A -> Prop.
Hypothesis Hlt : ∀ x y, (cmp x y ?= 0)%Q = Lt -> le x y.
Hypothesis Hge : ∀ x y, (cmp x y ?= 0)%Q <> Lt -> le y x.

Lemma insert_by_q_perm (x : A) (l : list A) : insert_by_q cmp x l ≡ₚ x :: l.
Proof.
  induction l as [|y l IH]; simpl; [done|].
  destruct (cmp x y ?= 0)%Q; try done; rewrite IH; by constructor.
Qed.

Lemma sort_by_q_perm (l : list A) : sort_by_q cmp l ≡ₚ l.
Proof.
  unfold sort_by_q. rewrite <- (app_nil_l l) at 2.
  generalize (@nil A) as acc. induction l as [|x l IH]; intros acc; simpl.
  - by rewrite app_nil_r.
  - rewrite IH, insert_by_q_perm. by rewrite <- Permutation_middle.
Qed.

Lemma insert_by_q_hd (y x : A) (l : list A) :
  HdRel le y l -> le y x -> HdRel le y (insert_by_q cmp x l).
Proof.
  intros Hy Hyx. destruct l as [|z l]; simpl; [by constructor|].
  destruct (cmp x z ?= 0)%Q; constructor; try done; by inversion Hy.
Qed.

Lemma insert_by_q_sorted (x : A) (l : list A) :
  Sorted le l -> Sorted le (insert_by_q cmp x l).
Proof.
  induction l as [|y l IH]; intros Hs; simpl; [by repeat constructor|].
  destruct (cmp x y ?= 0)%Q eqn:E;
    [| constructor; [done|constructor; by apply Hlt] |];
    inversion Hs as [|? ? Hs' Hhd]; (constructor; [by apply IH|]);
    (apply insert_by_q_hd; [done|]); apply Hge; by rewrite E.
Qed.

Lemma sort_by_q_sorted (l : list A) : Sorted le (sort_by_q cmp l).
Proof.
  unfold sort_by_q. assert (H0 : Sorted le (@nil A)) by constructor. revert H0.
  generalize (@nil A) as acc. induction l as [|x l IH]; intros acc Hacc; simpl; [done|].
  apply IH. by apply insert_by_q_sorted.
Qed.

End SortQ.

Lemma sort_by_q_ext {A} (c1 c2 : A -> A -> Q) (l : list A) :
  (∀ a b, c1 a b = c2 a b) -> sort_by_q c1 l = sort_by_q c2 l.
Proof.
  intros Hc. unfold sort_by_q. generalize (@nil A) as acc.
  induction l as [|x l IH]; intros acc; simpl; [done|].
  assert (E : insert_by_q c1 x acc = insert_by_q c2 x acc).
  { induction acc as [|y acc IHa]; simpl; [done|]. rewrite Hc. by rewrite IHa. }
  rewrite E. apply IH.
Qed.

Lemma inject_Z_cmp_lt (z : Z) : (inject_Z z ?= 0)%Q = Lt <-> z < 0.
Proof. rewrite <- Qlt_alt. change 0%Q with (inject_Z 0). by rewrite <- Zlt_Qlt. Qed.

Lemma ready_cmp_lt (sc : gmap Z Q) (a b : feature) :
  (ready_cmp sc a b ?= 0)%Q = Lt -> ready_le sc a b.
Proof.
  unfold ready_cmp, ready_le, key_le. cbv zeta.
  set (sa := default 0%Q (sc !! id a)). set (sb := default 0%Q (sc !! id b)).
  destruct (Qeq_bool (sb - sa) 0) eqn:E; cbn [negb].
  - apply Qeq_bool_iff in E. assert (Heq : sa == sb) by lra.
    destruct (Z.eqb_spec (priority a - priority b) 0) as [Hp|Hp]; cbn [negb];
      rewrite inject_Z_cmp_lt; intros Hz; right; split; [done| |done|]; lia.
  - intros Hl. apply Qlt_alt in Hl. left. lra.
Qed.

Lemma ready_cmp_ge (sc : gmap Z Q) (a b : feature) :
  (ready_cmp sc a b ?= 0)%Q <> Lt -> ready_le sc b a.
Proof.
  unfold ready_cmp, ready_le, key_le. cbv zeta.
  set (sa := default 0%Q (sc !! id a)). set (sb := default 0%Q (sc !! id b)).
  destruct (Qeq_bool (sb - sa) 0) eqn:E; cbn [negb].
  - apply Qeq_bool_iff in E. assert (Heq : sb == sa) by lra.
    destruct (Z.eqb_spec (priority a - priority b) 0) as [Hp|Hp]; cbn [negb];
      rewrite inject_Z_cmp_lt; intros Hz; right; split; [done| |done|]; lia.
  - intros Hl. assert (Hne : ~ (sb - sa == 0)%Q).
    { intros Hq. apply Qeq_bool_iff in Hq. congruence. }
    assert (Hle : (0 <= sb - sa)%Q).
    { apply Qnot_lt_le. intros Hq. apply Hl. by apply Qlt_alt. }
    left. lra.
Qed.

Lemma slice_to_nonneg {B} (limit : Z) (xs : list B) :
  0 <= limit -> slice_to limit xs = take (Z.to_nat limit) xs.
Proof.
  intros Hl. unfold slice_to. rewrite (proj2 (Z.ltb_ge limit 0) Hl).
  destruct (Z.le_gt_cases limit (Z.of_nat (length xs))) as [H|H].
  - by rewrite Z.min_l by done.
  - rewrite Z.min_r by lia. rewrite Nat2Z.id, take_ge by lia.
    rewrite take_ge; [done|lia].
Qed.

Lemma slice_to_length {B} (limit : Z) (xs : list B) :
  Z.of_nat (length (slice_to limit xs)) =
  if limit <? 0 then Z.max (Z.of_nat (length xs) + limit) 0
  else Z.min limit (Z.of_nat (length xs)).
Proof.
  unfold slice_to. rewrite length_take.
  destruct (Z.ltb_spec limit 0); lia.
Qed.

(** For a non-negative [limit], whenever the scores are computed,
    get_ready_features returns the first [limit] elements of an ordering
    of the ready features by score (highest first), then priority, then
    id. *)
Theorem get_ready_features_spec (fuel : nat) (fs : list feature) (sc : gmap Z Q) (limit : Z) :
  compute_scheduling_scores fuel fs = Some sc -> 0 <= limit ->
  ∃ s, get_ready_features fuel fs limit = Some (take (Z.to_nat limit) s) /\
       s ≡ₚ ready_features fs /\ Sorted (ready_le sc) s.
Proof.
  intros Hsc Hl. unfold get_ready_features. rewrite Hsc.
  exists (sort_by_q (ready_cmp sc) (ready_features fs)).
  rewrite slice_to_nonneg by done. split; [done|]. split.
  - apply sort_by_q_perm.
  - apply sort_by_q_sorted; [apply ready_cmp_lt|apply ready_cmp_ge].
Qed.

Lemma get_ready_features_spec_witness :
  ∃ sc, compute_scheduling_scores 10 ex_priorities = Some sc /\ 0 <= 2 /\
  ∃ s, get_ready_features 10 ex_priorities 2 = Some (take (Z.to_nat 2) s) /\
       s ≡ₚ ready_features ex_priorities /\ Sorted (ready_le sc) s.
Proof.
  eexists. split; [vm_compute; reflexivity|]. split; [lia|].
  apply (get_ready_features_spec 10 ex_priorities _ 2); [vm_compute; reflexivity|lia].
Defined.

Lemma ready_cmp_explorer_eq (sc : gmap Z Q) (a b : feature) :
  ready_cmp_explorer sc a b = ready_cmp sc a b.
Proof.
  unfold ready_cmp_explorer, ready_cmp. cbv zeta.
  set (sa := default 0%Q (sc !! id a)). set (sb := default 0%Q (sc !! id b)).
  assert (E1 : Qeq_bool sa sb = Qeq_bool (sb - sa) 0).
  { destruct (Qeq_bool sa sb) eqn:E; destruct (Qeq_bool (sb - sa) 0) eqn:E'; try done;
      [apply Qeq_bool_iff in E; apply Qeq_bool_neq in E'|
       apply Qeq_bool_neq in E; apply Qeq_bool_iff in E']; exfalso; lra. }
  rewrite E1. destruct (Qeq_bool (sb - sa) 0); [|done]. cbn [negb].
  destruct (Z.eqb_spec (priority a) (priority b));
    destruct (Z.eqb_spec (priority a - priority b) 0); try done; lia.
Qed.

(** feature_get_ready returns the same feature list as get_ready_features
    on the features of the store, and both fail to return together;
    [total_ready] counts all ready features.  feature_get_blocked returns
    the first [limit] entries of get_blocked_features, and [total_blocked]
    counts them all.  In both tools [count] equals the number of features
    returned exactly when [limit >= 0]: a negative [limit] drops the last
    [-limit] entries while [count] is [limit]. *)
Theorem explorer_ready_blocked_spec (fuel : nat) (st : store) (limit : Z) :
  (feature_get_ready fuel st limit = None <->
   get_ready_features fuel (feature_of_row <$> rows st) limit = None) /\
  (∀ l count total, feature_get_ready fuel st limit = Some (l, count, total) ->
     get_ready_features fuel (feature_of_row <$> rows st) limit = Some l /\
     total = Z.of_nat (length (ready_features (feature_of_row <$> rows st))) /\
     (count = Z.of_nat (length l) <-> 0 <= limit)) /\
  (∀ l count total, feature_get_blocked st limit = (l, count, total) ->
     l = slice_to limit (get_blocked_features (feature_of_row <$> rows st)) /\
     total = Z.of_nat (length (get_blocked_features (feature_of_row <$> rows st))) /\
     (count = Z.of_nat (length l) <-> 0 <= limit)).
Proof.
  assert (Hc : ∀ {B} (xs : list B),
            Z.min (Z.of_nat (length xs)) limit = Z.of_nat (length (slice_to limit xs)) <->
            0 <= limit).
  { intros B xs. rewrite slice_to_length. destruct (Z.ltb_spec limit 0); lia. }
  unfold feature_get_ready, get_ready_features.
  destruct (compute_scheduling_scores fuel (feature_of_row <$> rows st)) as [sc|].
  2: { split; [done|]. split; [by intros ???|].
       intros l count total [= <- <- <-]. split; [done|]. split; [done|]. apply Hc. }
  rewrite (sort_by_q_ext (ready_cmp_explorer sc) (ready_cmp sc))
    by apply ready_cmp_explorer_eq.
  split; [done|]. split.
  - intros l count total [= <- <- <-]. split; [done|].
    split; [by rewrite (Permutation_length (sort_by_q_perm _ _))|]. apply Hc.
  - intros l count total [= <- <- <-]. split; [done|]. split; [done|]. apply Hc.
Qed.

(** ** The status tools *)

Lemma update_row_lookup (rs : list row) (fid : Z) (upd : row -> row) (i : nat) :
  update_row rs fid upd !! i =
  (fun r => if Z.eqb (row_id r) fid then upd r else r) <$> (rs !! i).
Proof.
  revert i; induction rs as [|r rs IH]; intros i; [done|].
  destruct i; simpl; [done|]. apply IH.
Qed.

Lemma update_row_length (rs : list row) (fid : Z) (upd : row -> row) :
  length (update_row rs fid upd) = length rs.
Proof. apply length_map. Qed.

Lemma flags_only_update (st : store) (fid : Z) (upd : row -> row) :
  (∀ r, row_id (upd r) = row_id r /\ row_priority (upd r) = row_priority r /\
        row_dependencies (upd r) = row_dependencies r) ->
  flags_only st (mkStore (update_row (rows st) fid upd) (last_rowid st)) fid.
Proof.
  intros Hu. split; [done|]. split; [apply update_row_length|].
  intros i r Hr. cbn [rows]. rewrite update_row_lookup, Hr. simpl.
  eexists. split; [done|]. destruct (Z.eqb_spec (row_id r) fid) as [E|E].
  - destruct (Hu r) as (? & ? & ?). split; [done|]. split; [done|]. split; [done|].
    intros ?; contradiction.
  - done.
Qed.

Lemma flags_set_update (st : store) (fid : Z) (upd : row -> row) (p ip : row -> bool) :
  (∀ r, row_passes (upd r) = p r /\ row_in_progress (upd r) = ip r) ->
  flags_set st (mkStore (update_row (rows st) fid upd) (last_rowid st)) fid p ip.
Proof.
  intros Hu i r r' Hr Hr' Hid. cbn [rows] in Hr'. rewrite update_row_lookup, Hr in Hr'.
  simpl in Hr'. rewrite (proj2 (Z.eqb_eq _ _) Hid) in Hr'. injection Hr' as <-. apply Hu.
Qed.

Lemma reread_store (rs : list row) (last fid : Z) (st' : store) (r : row) :
  reread rs last fid = Some (st', r) -> st' = mkStore rs last /\ find_row rs fid = Some r.
Proof.
  unfold reread. destruct (find_row rs fid) as [r'|]; [|discriminate].
  by intros [= <- <-].
Qed.

Lemma update_row_absent (rs : list row) (fid : Z) (upd : row -> row) :
  fid ∉ row_id <$> rs -> update_row rs fid upd = rs.
Proof.
  induction rs as [|r rs IH]; intros Hf; [done|].
  rewrite fmap_cons, not_elem_of_cons in Hf. destruct Hf as [Hf1 Hf2].
  simpl. rewrite (proj2 (Z.eqb_neq _ _)) by congruence. by rewrite IH.
Qed.

(** The five status tools (mark passing, mark failing, mark in progress,
    claim, clear in progress) never change an id, a priority, a dependency
    list, the row counter or a row with another id.  On the rows with the
    given id, mark passing sets [passes] and clears [in_progress], mark
    failing clears both, mark in progress and claim set [in_progress] and
    keep [passes], and clear in progress clears [in_progress] and keeps
    [passes] (for claim: on a table with unique ids). *)
Theorem status_tools_frame :
  (∀ st fid st', feature_mark_passing st fid = Some st' ->
     flags_only st st' fid /\ flags_set st st' fid (fun _ => true) (fun _ => false)) /\
  (∀ st fid st' r, feature_mark_failing st fid = Some (st', r) ->
     flags_only st st' fid /\ flags_set st st' fid (fun _ => false) (fun _ => false)) /\
  (∀ st fid st' r, feature_mark_in_progress st fid = Some (st', r) ->
     flags_only st st' fid /\ flags_set st st' fid row_passes (fun _ => true)) /\
  (∀ st fid st' r b, NoDup (row_id <$> rows st) ->
     feature_claim_and_get st fid = Some (st', r, b) ->
     flags_only st st' fid /\ flags_set st st' fid row_passes (fun _ => true)) /\
  (∀ st fid st' r, feature_clear_in_progress st fid = Some (st', r) ->
     flags_only st st' fid /\ flags_set st st' fid row_passes (fun _ => false)).
Proof.
  split; [|split; [|split; [|split]]].
  - intros st fid st' H. unfold feature_mark_passing in H.
    destruct (find_row (rows st) fid); [|discriminate]. injection H as <-.
    split; [by apply flags_only_update|by apply flags_set_update].
  - intros st fid st' r H. unfold feature_mark_failing in H.
    destruct (find_row (rows st) fid); [|discriminate].
    apply reread_store in H as [-> _].
    split; [by apply flags_only_update|by apply flags_set_update].
  - intros st fid st' r H. unfold feature_mark_in_progress in H.
    destruct (find_row (rows st) fid) as [fe|]; [|discriminate].
    destruct (row_passes fe); [discriminate|]. destruct (row_in_progress fe); [discriminate|].
    apply reread_store in H as [-> _].
    split; [by apply flags_only_update|by apply flags_set_update].
  - intros st fid st' r b Hnd H. unfold feature_claim_and_get in H.
    destruct (find_row (rows st) fid) as [fe|] eqn:Ef; [|discriminate].
    destruct (row_passes fe) eqn:Hp; [discriminate|]. cbv zeta in H.
    destruct (reread _ _ _) as [[st1 r1]|] eqn:Er; [|discriminate].
    injection H as <- <- <-. apply reread_store in Er as [-> _].
    destruct (row_in_progress fe) eqn:Hi.
    + split.
      * split; [done|]. split; [done|]. intros i r Hr. exists r. done.
      * intros i r r' Hr Hr' Hid. cbn [rows] in Hr'. rewrite Hr in Hr'.
        injection Hr' as <-. split; [done|].
        apply find_row_in in Ef as [Hfe Hfid].
        apply list_elem_of_lookup_1 in Hfe as [j Hj].
        assert (i = j) as ->.
        { apply (NoDup_lookup _ _ _ (row_id r) Hnd).
          - by rewrite list_lookup_fmap, Hr.
          - rewrite list_lookup_fmap, Hj. simpl. by rewrite Hfid, Hid. }
        rewrite Hr in Hj. by injection Hj as ->.
    + split; [by apply flags_only_update|by apply flags_set_update].
  - intros st fid st' r H. unfold feature_clear_in_progress in H.
    destruct (find_row (rows st) fid); [|discriminate].
    apply reread_store in H as [-> _].
    split; [by apply flags_only_update|by apply flags_set_update].
Qed.

(** feature_mark_in_progress succeeds exactly when feature_claim_and_get
    makes a fresh claim ([already_claimed = false]), with the same store and
    row.  A second claim of the same feature changes nothing and reports
    [already_claimed = true] with the same row, and after any claim
    feature_mark_in_progress refuses the feature. *)
Theorem claim_and_get_spec :
  (∀ st fid st' r,
     feature_mark_in_progress st fid = Some (st', r) <->
     feature_claim_and_get st fid = Some (st', r, false)) /\
  (∀ st fid st1 r1 b,
     feature_claim_and_get st fid = Some (st1, r1, b) ->
     feature_claim_and_get st1 fid = Some (st1, r1, true) /\
     feature_mark_in_progress st1 fid = None).
Proof.
  split.
  - intros st fid st' r. unfold feature_mark_in_progress, feature_claim_and_get.
    destruct (find_row (rows st) fid) as [fe|]; [|done].
    destruct (row_passes fe); [done|]. cbv zeta.
    destruct (row_in_progress fe).
    + split; [discriminate|]. destruct (reread _ _ _) as [[? ?]|]; [|done].
      by intros [=].
    + destruct (reread _ _ _) as [[? ?]|]; [|done].
      split; [by intros [= -> ->]|by intros [= -> ->]].
  - intros st fid st1 r1 b H. unfold feature_claim_and_get in H.
    destruct (find_row (rows st) fid) as [fe|] eqn:Ef; [|discriminate].
    destruct (row_passes fe) eqn:Hp; [discriminate|]. cbv zeta in H.
    destruct (reread _ _ _) as [[st2 r2]|] eqn:Er; [|discriminate].
    injection H as -> -> <-. apply reread_store in Er as [-> Hr].
    assert (Hr1 : row_passes r1 = false /\ row_in_progress r1 = true ->
                  feature_claim_and_get (mkStore (if row_in_progress fe then rows st
                     else update_row (rows st) fid (set_in_progress true)) (last_rowid st)) fid =
                  Some (mkStore (if row_in_progress fe then rows st
                     else update_row (rows st) fid (set_in_progress true)) (last_rowid st), r1, true) /\
                  feature_mark_in_progress (mkStore (if row_in_progress fe then rows st
                     else update_row (rows st) fid (set_in_progress true)) (last_rowid st)) fid = None).
    { intros [Hp1 Hi1]. unfold feature_claim_and_get, feature_mark_in_progress. cbn [rows last_rowid].
      rewrite Hr, Hp1, Hi1. cbv zeta. unfold reread. by rewrite Hr. }
    apply Hr1. destruct (row_in_progress fe) eqn:Hi.
    + rewrite Ef in Hr. injection Hr as <-. done.
    + rewrite find_update_row in Hr by done. rewrite Ef in Hr. injection Hr as <-. done.
Qed.

Lemma count_update (P : row -> Prop) `{∀ r, Decision (P r)} (rs : list row) (fid : Z)
    (upd : row -> row) (r : row) :
  NoDup (row_id <$> rs) -> find_row rs fid = Some r ->
  Z.of_nat (length (filter P (update_row rs fid upd))) =
  Z.of_nat (length (filter P rs)) - (if decide (P r) then 1 else 0) +
  (if decide (P (upd r)) then 1 else 0).
Proof.
  induction rs as [|a rs IH]; intros Hnd Hf; [discriminate|].
  rewrite fmap_cons, NoDup_cons in Hnd. destruct Hnd as [Ha Hnd].
  unfold find_row in Hf. simpl in Hf. unfold update_row. simpl.
  destruct (Z.eqb_spec (row_id a) fid) as [E|E].
  - injection Hf as ->. subst fid. fold (update_row rs (row_id r) upd).
    rewrite update_row_absent by done. rewrite !filter_cons.
    destruct (decide (P (upd r))), (decide (P r)); simpl; lia.
  - fold (update_row rs fid upd). rewrite !filter_cons.
    specialize (IH Hnd Hf). destruct (decide (P a)); simpl; lia.
Qed.

(** On a table with unique ids, marking a feature passing raises the
    [passing] count of feature_get_stats by one unless it was already
    passing, lowers [in_progress] by one if it was in progress, and keeps
    [total]; marking it failing lowers [passing] by one if it was passing
    and [in_progress] by one if it was in progress. *)
Theorem stats_after_marking (st : store) (fid : Z) (r : row) :
  NoDup (row_id <$> rows st) -> find_row (rows st) fid = Some r ->
  let '(p, ip, t) := feature_get_stats st in
  (∀ st', feature_mark_passing st fid = Some st' ->
     feature_get_stats st' =
     (p + (if row_passes r then 0 else 1), ip - (if row_in_progress r then 1 else 0), t)) /\
  (∀ st' r', feature_mark_failing st fid = Some (st', r') ->
     feature_get_stats st' =
     (p - (if row_passes r then 1 else 0), ip - (if row_in_progress r then 1 else 0), t)).
Proof.
  intros Hnd Hf. unfold feature_get_stats. split.
  - intros st' H. unfold feature_mark_passing in H. rewrite Hf in H. injection H as <-.
    cbn [rows]. rewrite !(count_update _ _ _ _ r Hnd Hf), update_row_length. cbn.
    destruct (row_passes r), (row_in_progress r); simpl;
      (apply pair_equal_spec; split; [apply pair_equal_spec; split|]); lia.
  - intros st' r' H. unfold feature_mark_failing in H. rewrite Hf in H.
    apply reread_store in H as [-> _].
    cbn [rows]. rewrite !(count_update _ _ _ _ r Hnd Hf), update_row_length. cbn.
    destruct (row_passes r), (row_in_progress r); simpl;
      (apply pair_equal_spec; split; [apply pair_equal_spec; split|]); lia.
Qed.

Lemma stats_after_marking_witness :
  NoDup (row_id <$> rows (mkStore [mkRow 1 1 None false true; mkRow 2 2 None true false] 2)) /\
  find_row (rows (mkStore [mkRow 1 1 None false true; mkRow 2 2 None true false] 2)) 1 =
    Some (mkRow 1 1 None false true) /\
  let '(p, ip, t) := feature_get_stats (mkStore [mkRow 1 1 None false true; mkRow 2 2 None true false] 2) in
  (∀ st', feature_mark_passing (mkStore [mkRow 1 1 None false true; mkRow 2 2 None true false] 2) 1 = Some st' ->
     feature_get_stats st' =
     (p + (if row_passes (mkRow 1 1 None false true) then 0 else 1),
      ip - (if row_in_progress (mkRow 1 1 None false true) then 1 else 0), t)) /\
  (∀ st' r', feature_mark_failing (mkStore [mkRow 1 1 None false true; mkRow 2 2 None true false] 2) 1 = Some (st', r') ->
     feature_get_stats st' =
     (p - (if row_passes (mkRow 1 1 None false true) then 1 else 0),
      ip - (if row_in_progress (mkRow 1 1 None false true) then 1 else 0), t)).
Proof.
  assert (Hnd : NoDup (row_id <$> rows (mkStore [mkRow 1 1 None false true; mkRow 2 2 None true false] 2)))
    by (apply (bool_decide_unpack _); vm_compute; reflexivity).
  assert (Hf : find_row (rows (mkStore [mkRow 1 1 None false true; mkRow 2 2 None true false] 2)) 1 =
               Some (mkRow 1 1 None false true)) by reflexivity.
  split; [exact Hnd|]. split; [exact Hf|].
  exact (stats_after_marking _ 1 _ Hnd Hf).
Defined.

Lemma update_row_elem (rs : list row) (fid : Z) (upd : row -> row) (r : row) :
  r ∈ rs -> (if Z.eqb (row_id r) fid then upd r else r) ∈ update_row rs fid upd.
Proof.
  intros Hr. apply list_elem_of_In. apply list_elem_of_In in Hr. unfold update_row.
  apply (in_map (fun r => if Z.eqb (row_id r) fid then upd r else r)). done.
Qed.

(** Marking a feature passing never takes another feature off the ready
    list: every feature other than the marked one that was ready before
    feature_mark_passing is ready after it. *)
Theorem mark_passing_keeps_ready (st st' : store) (fid : Z) :
  feature_mark_passing st fid = Some st' ->
  ∀ f, f ∈ ready_features (feature_of_row <$> rows st) -> id f <> fid ->
       f ∈ ready_features (feature_of_row <$> rows st').
Proof.
  intros H f Hf Hid. unfold feature_mark_passing in H.
  destruct (find_row (rows st) fid) as [r0|]; [|discriminate]. injection H as <-. cbn [rows].
  unfold ready_features in *. rewrite list_elem_of_filter, Forall_forall in Hf |- *.
  destruct Hf as ((Hp & Hi & Hd) & Hf). split; [split; [done|split; [done|]]|].
  - intros d Hdd. specialize (Hd d Hdd). apply passing_ids_spec in Hd as (g & Hg & Hgd & Hgp).
    apply passing_ids_spec. apply list_elem_of_fmap in Hg as (rg & -> & Hrg).
    exists (feature_of_row (if Z.eqb (row_id rg) fid then set_flags true false rg else rg)).
    split; [by apply list_elem_of_fmap_2, update_row_elem|].
    destruct (Z.eqb (row_id rg) fid); done.
  - apply list_elem_of_fmap in Hf as (r & -> & Hr). apply list_elem_of_fmap_2.
    pose proof (update_row_elem (rows st) fid (set_flags true false) r Hr) as Hu.
    change (id (feature_of_row r)) with (row_id r) in Hid.
    rewrite (proj2 (Z.eqb_neq _ _) Hid) in Hu. exact Hu.
Qed.

Lemma mark_passing_keeps_ready_witness :
  feature_mark_passing (mkStore [mkRow 1 1 None false false; mkRow 2 2 None false false] 2) 2 =
    Some (mkStore [mkRow 1 1 None false false; mkRow 2 2 None true false] 2) /\
  ∀ f, f ∈ ready_features (feature_of_row <$> [mkRow 1 1 None false false; mkRow 2 2 None false false]) ->
       id f <> 2 ->
       f ∈ ready_features (feature_of_row <$> [mkRow 1 1 None false false; mkRow 2 2 None true false]).
Proof.
  assert (H : feature_mark_passing (mkStore [mkRow 1 1 None false false; mkRow 2 2 None false false] 2) 2 =
              Some (mkStore [mkRow 1 1 None false false; mkRow 2 2 None true false] 2))
    by reflexivity.
  split; [exact H|]. exact (mark_passing_keeps_ready _ _ 2 H).
Defined.

(** ** Editing dependency lists *)

Lemma insert_by_perm {A} (cmp : A -> A -> Z) (x : A) (l : list A) :
  insert_by cmp x l ≡ₚ x :: l.
Proof.
  induction l as [|y l IH]; simpl; [done|].
  destruct (cmp x y <? 0); [done|]. rewrite IH. by constructor.
Qed.

Lemma sort_by_perm {A} (cmp : A -> A -> Z) (l : list A) : sort_by cmp l ≡ₚ l.
Proof.
  unfold sort_by. rewrite <- (app_nil_l l) at 2.
  generalize (@nil A) as acc. induction l as [|x l IH]; intros acc; simpl.
  - by rewrite app_nil_r.
  - rewrite IH, insert_by_perm. by rewrite <- Permutation_middle.
Qed.

Lemma sorted_perm_eq (l1 l2 : list Z) :
  Sorted Z.le l1 -> Sorted Z.le l2 -> l1 ≡ₚ l2 -> l1 = l2.
Proof. apply Sorted_unique; apply _. Qed.

Lemma sort_insert_filter (l : list Z) (d : Z) :
  Sorted Z.le l -> d ∉ l -> filter (fun x => x <> d) (sort_by num_cmp (l ++ [d])) = l.
Proof.
  intros Hs Hd. apply sorted_perm_eq; [apply filter_sorted, sort_by_sorted|done|].
  rewrite (sort_by_perm num_cmp (l ++ [d])). rewrite filter_app.
  rewrite filter_cons_False by tauto. rewrite app_nil_r.
  clear Hs. induction l as [|x l IH]; [done|].
  rewrite not_elem_of_cons in Hd. destruct Hd as [Hx Hd].
  rewrite filter_cons_True by congruence. by rewrite IH.
Qed.

Lemma row_unique (rs : list row) (fid : Z) (fe r : row) :
  NoDup (row_id <$> rs) -> find_row rs fid = Some fe -> r ∈ rs -> row_id r = fid -> r = fe.
Proof.
  intros Hnd Hf Hr Hid. apply find_row_in in Hf as [Hfe Hfid].
  apply list_elem_of_lookup_1 in Hfe as [j Hj]. apply list_elem_of_lookup_1 in Hr as [i Hi].
  assert (i = j) as ->.
  { apply (NoDup_lookup _ _ _ fid Hnd).
    - rewrite list_lookup_fmap, Hi. simpl. by rewrite Hid.
    - rewrite list_lookup_fmap, Hj. simpl. by rewrite Hfid. }
  congruence.
Qed.

Lemma update_row_same (rs : list row) (fid : Z) (upd : row -> row) :
  (∀ r, r ∈ rs -> row_id r = fid -> upd r = r) -> update_row rs fid upd = rs.
Proof.
  induction rs as [|r rs IH]; intros Hu; [done|]. simpl.
  rewrite IH by (intros r' Hr'; apply Hu; by right).
  destruct (Z.eqb_spec (row_id r) fid); [|done]. rewrite Hu; [done|by left|done].
Qed.

Lemma update_row_twice (rs : list row) (fid : Z) (u1 u2 : row -> row) :
  (∀ r, row_id (u1 r) = row_id r) ->
  update_row (update_row rs fid u1) fid u2 = update_row rs fid (fun r => u2 (u1 r)).
Proof.
  intros Hu. unfold update_row. rewrite map_map. apply map_ext. intros r.
  destruct (Z.eqb_spec (row_id r) fid) as [E|E].
  - by rewrite Hu, (proj2 (Z.eqb_eq _ _) E).
  - by rewrite (proj2 (Z.eqb_neq _ _) E).
Qed.

(** On a table with unique ids whose stored dependency lists are sorted
    and never the empty JSON list, removing a dependency that
    feature_add_dependency has just added succeeds and gives back the
    store as it was before the addition. *)
Theorem add_remove_dependency_roundtrip (st st1 : store) (fid d : Z) :
  NoDup (row_id <$> rows st) -> deps_sorted (rows st) ->
  (∀ r, r ∈ rows st -> row_dependencies r <> Some []) ->
  feature_add_dependency st fid d = Some st1 ->
  feature_remove_dependency st1 fid d = Some st.
Proof.
  intros Hnd Hs Hne H. unfold feature_add_dependency in H.
  destruct (Z.eqb fid d); [discriminate|].
  destruct (find_row (rows st) fid) as [fe|] eqn:Ef; [|discriminate].
  destruct (find_row (rows st) d) as [r0|]; [|discriminate].
  destruct (Nat.leb _ _); [discriminate|].
  case_bool_decide as Hd; [discriminate|].
  destruct (would_create_circular_dependency _ _ _); [discriminate|].
  injection H as <-.
  set (cur := default [] (row_dependencies fe)) in *.
  assert (Hcur : Sorted Z.le cur).
  { unfold cur. destruct (row_dependencies fe) as [l|] eqn:El; [|constructor].
    apply find_row_in in Ef as [Hfe _]. by apply (Hs fe). }
  unfold feature_remove_dependency. cbn [rows last_rowid].
  rewrite find_update_row by done. rewrite Ef. cbn [fmap option_fmap option_map].
  cbn [set_deps row_dependencies default].
  rewrite bool_decide_true.
  2: { rewrite (sort_by_perm num_cmp (cur ++ [d])). apply elem_of_app. right. by left. }
  cbn [negb]. unfold Datatypes.id. rewrite sort_insert_filter by done.
  rewrite update_row_twice by done.
  rewrite update_row_same; [by destruct st|].
  intros r' Hr Hid. rewrite (row_unique _ _ _ _ Hnd Ef Hr Hid).
  apply find_row_in in Ef as [Hfe _]. specialize (Hne fe Hfe).
  destruct fe as [i p [l|] ps ip]; unfold set_deps; cbn in *; subst cur.
  - destruct l; [done|]. done.
  - done.
Qed.

Lemma add_remove_dependency_roundtrip_witness :
  NoDup (row_id <$> rows (mkStore [mkRow 1 1 (Some [3]) false false; mkRow 2 2 None false false;
                                   mkRow 3 3 None false false] 3)) /\
  deps_sorted (rows (mkStore [mkRow 1 1 (Some [3]) false false; mkRow 2 2 None false false;
                              mkRow 3 3 None false false] 3)) /\
  (∀ r, r ∈ rows (mkStore [mkRow 1 1 (Some [3]) false false; mkRow 2 2 None false false;
                           mkRow 3 3 None false false] 3) -> row_dependencies r <> Some []) /\
  feature_add_dependency (mkStore [mkRow 1 1 (Some [3]) false false; mkRow 2 2 None false false;
                                   mkRow 3 3 None false false] 3) 1 2 =
    Some (mkStore [mkRow 1 1 (Some [2; 3]) false false; mkRow 2 2 None false false;
                   mkRow 3 3 None false false] 3) /\
  feature_remove_dependency (mkStore [mkRow 1 1 (Some [2; 3]) false false; mkRow 2 2 None false false;
                                      mkRow 3 3 None false false] 3) 1 2 =
    Some (mkStore [mkRow 1 1 (Some [3]) false false; mkRow 2 2 None false false;
                   mkRow 3 3 None false false] 3).
Proof.
  assert (Hnd : NoDup (row_id <$> rows (mkStore [mkRow 1 1 (Some [3]) false false;
     mkRow 2 2 None false false; mkRow 3 3 None false false] 3)))
    by (apply (bool_decide_unpack _); vm_compute; reflexivity).
  assert (Hs : deps_sorted (rows (mkStore [mkRow 1 1 (Some [3]) false false;
     mkRow 2 2 None false false; mkRow 3 3 None false false] 3))).
  { intros r l Hr Hl. repeat (apply elem_of_cons in Hr as [->|Hr]; [simplify_eq/=; by repeat constructor|]).
    inversion Hr. }
  assert (Hne : ∀ r, r ∈ rows (mkStore [mkRow 1 1 (Some [3]) false false;
     mkRow 2 2 None false false; mkRow 3 3 None false false] 3) -> row_dependencies r <> Some []).
  { intros r Hr. repeat (apply elem_of_cons in Hr as [->|Hr]; [discriminate|]). inversion Hr. }
  assert (Ha : feature_add_dependency (mkStore [mkRow 1 1 (Some [3]) false false;
     mkRow 2 2 None false false; mkRow 3 3 None false false] 3) 1 2 =
     Some (mkStore [mkRow 1 1 (Some [2; 3]) false false; mkRow 2 2 None false false;
                    mkRow 3 3 None false false] 3)) by (vm_compute; reflexivity).
  split; [exact Hnd|]. split; [exact Hs|]. split; [exact Hne|]. split; [exact Ha|].
  exact (add_remove_dependency_roundtrip _ _ 1 2 Hnd Hs Hne Ha).
Defined.

(** ** Acyclicity of the stored graph *)

Section Acyclic.

Variables R R' : Z -> Z -> Prop.

(** Adding the edge [u -> v] keeps a relation acyclic when [v] does not
    already reach [u]. *)
Lemma acyclic_add_edge (u v : Z) :
  (∀ a b, R' a b -> R a b \/ (a = u /\ b = v)) ->
  (∀ x, ~ tc R x x) -> ~ rtc R v u -> ∀ x, ~ tc R' x x.
Proof.
  intros Hsub Hac Hvu.
  assert (Hp : ∀ x y, tc R' x y -> tc R x y \/ (rtc R x u /\ rtc R v y)).
  { induction 1 as [x y Hxy|x y z Hxy Hyz IH].
    - destruct (Hsub x y Hxy) as [H|[-> ->]]; [left; by apply tc_once|right; done].
    - destruct (Hsub x y Hxy) as [H|[-> ->]]; destruct IH as [IH|[IH1 IH2]].
      + left. by eapply tc_l.
      + right. split; [|done]. by eapply rtc_l.
      + right. split; [done|]. by apply tc_rtc.
      + by exfalso. }
  intros x Hx. destruct (Hp x x Hx) as [H|[H1 H2]]; [by apply (Hac x)|].
  apply Hvu. by etrans.
Qed.

(** Replacing the edges out of [u] keeps a relation acyclic when no new
    edge [u -> b] has a way back from [b] to [u]. *)
Lemma acyclic_replace_out (u : Z) :
  (∀ a b, R' a b -> a <> u -> R a b) ->
  (∀ b, R' u b -> ~ rtc R' b u) ->
  (∀ x, ~ tc R x x) -> ∀ x, ~ tc R' x x.
Proof.
  intros Hold Hback Hac.
  assert (Hp : ∀ x y, tc R' x y ->
            tc (fun a b => R' a b /\ a <> u) x y \/
            (rtc R' x u /\ ∃ b, R' u b /\ rtc R' b y)).
  { induction 1 as [x y Hxy|x y z Hxy Hyz IH].
    - destruct (decide (x = u)) as [->|Hne].
      + right. split; [done|]. exists y. done.
      + left. by apply tc_once.
    - destruct (decide (x = u)) as [->|Hne].
      + right. split; [done|]. exists y. split; [done|]. by apply tc_rtc.
      + destruct IH as [IH|[IH1 IH2]].
        * left. by eapply tc_l.
        * right. split; [by eapply rtc_l|done]. }
  intros x Hx. destruct (Hp x x Hx) as [H|[H1 (b & Hb & H2)]].
  - apply (Hac x). eapply tc_congruence with (f := fun a => a); [|exact H].
    intros a b [Hab Hne]. by apply Hold.
  - apply (Hback b Hb). by etrans.
Qed.

End Acyclic.

Lemma ids_rows_update (rs : list row) (fid : Z) (dn : option (list Z)) :
  ids (feature_of_row <$> update_row rs fid (set_deps dn)) = ids (feature_of_row <$> rs).
Proof.
  unfold ids, update_row. induction rs as [|r rs IH]; [done|]. simpl.
  f_equal; [by destruct (Z.eqb (row_id r) fid)|exact IH].
Qed.

Lemma ids_rows (rs : list row) : ids (feature_of_row <$> rs) = row_id <$> rs.
Proof. unfold ids. rewrite <- list_fmap_compose. done. Qed.

Lemma dep_edge_update (rs : list row) (fid : Z) (dn : option (list Z)) (a b : Z) :
  dep_edge (feature_of_row <$> update_row rs fid (set_deps dn)) a b ->
  (a <> fid -> dep_edge (feature_of_row <$> rs) a b) /\
  (a = fid -> b ∈ default [] dn /\ b ∈ ids (feature_of_row <$> rs)).
Proof.
  intros (f & Hf & Ha & Hb & Hi). rewrite ids_rows_update in Hi.
  apply list_elem_of_fmap in Hf as (r' & -> & Hr').
  apply list_elem_of_In, in_map_iff in Hr' as (r & <- & Hr). apply list_elem_of_In in Hr.
  destruct (Z.eqb_spec (row_id r) fid) as [E|E].
  - cbn in Ha, Hb. split; [intros Hne; congruence|]. intros _. done.
  - split; [|intros; cbn in Ha; congruence]. intros _.
    exists (feature_of_row r). split; [by apply list_elem_of_fmap_2|done].
Qed.

Lemma dep_edge_step (fs : list feature) (a b : Z) :
  NoDup (ids fs) -> dep_edge fs a b -> step (feature_map fs) a b.
Proof.
  intros Hnd (f & Hf & Ha & Hb & _). exists f. split; [|done].
  apply feature_map_lookup; done.
Qed.

Lemma can_reach_false_fst (fm : gmap Z feature) (src x : Z) (n : nat) :
  fst (can_reach n fm src x ∅) = false -> ~ reaches fm x src.
Proof.
  destruct (can_reach n fm src x ∅) as [b V] eqn:E. simpl. intros ->.
  exact (can_reach_complete fm src n x V E).
Qed.

Lemma would_create_false (fs : list feature) (s t : Z) :
  NoDup (ids fs) -> s ∈ ids fs -> t ∈ ids fs ->
  would_create_circular_dependency fs s t = false -> ~ reaches (feature_map fs) t s.
Proof.
  intros Hnd Hs Ht. unfold would_create_circular_dependency.
  destruct (Z.eqb s t); [discriminate|].
  apply (feature_map_is_Some fs _ Hnd) in Hs as [fs_ Hs_].
  apply (feature_map_is_Some fs _ Hnd) in Ht as [ft Ht].
  rewrite Hs_, Ht. apply can_reach_false_fst.
Qed.

Lemma find_row_ids (rs : list row) (fid : Z) (r : row) :
  find_row rs fid = Some r -> fid ∈ ids (feature_of_row <$> rs).
Proof.
  intros Hf. apply find_row_in in Hf as [Hr <-]. rewrite ids_rows.
  by apply list_elem_of_fmap_2.
Qed.

(** On a table with unique ids, feature_add_dependency keeps the
    dependency graph of the stored features acyclic. *)
Theorem add_dependency_keeps_acyclic (st st' : store) (fid d : Z) :
  NoDup (row_id <$> rows st) -> acyclic (feature_of_row <$> rows st) ->
  feature_add_dependency st fid d = Some st' -> acyclic (feature_of_row <$> rows st').
Proof.
  intros Hnd Hac H. unfold feature_add_dependency in H.
  destruct (Z.eqb_spec fid d) as [|Hne]; [discriminate|].
  destruct (find_row (rows st) fid) as [fe|] eqn:Ef; [|discriminate].
  destruct (find_row (rows st) d) as [de|] eqn:Ed; [|discriminate].
  destruct (Nat.leb _ _); [discriminate|].
  destruct (bool_decide _); [discriminate|].
  destruct (would_create_circular_dependency _ _ _) eqn:Ew; [discriminate|].
  injection H as <-. cbn [rows].
  assert (Hnd' : NoDup (ids (feature_of_row <$> rows st))) by (by rewrite ids_rows).
  pose proof (would_create_false _ _ _ Hnd' (find_row_ids _ _ _ Ef) (find_row_ids _ _ _ Ed) Ew)
    as Hnr.
  unfold acyclic.
  apply (acyclic_add_edge (dep_edge (feature_of_row <$> rows st)) _ fid d); [|exact Hac|].
  - intros a b Hab. destruct (dep_edge_update _ _ _ _ _ Hab) as [Hold Hnew].
    destruct (decide (a = fid)) as [->|Ha]; [|left; by apply Hold].
    destruct (Hnew eq_refl) as [Hb Hi]. cbn [default] in Hb. unfold Datatypes.id in Hb.
    rewrite (sort_by_perm num_cmp _), elem_of_app, list_elem_of_singleton in Hb.
    destruct Hb as [Hb| ->]; [left|by right].
    exists (feature_of_row fe). apply find_row_in in Ef as [Hfe Hfid].
    split; [by apply list_elem_of_fmap_2|done].
  - intros Hr. apply Hnr. unfold reaches.
    eapply rtc_congruence with (f := fun a => a); [|exact Hr].
    intros a b. by apply dep_edge_step.
Qed.

Lemma add_dependency_keeps_acyclic_witness :
  NoDup (row_id <$> rows (mkStore [mkRow 1 1 None false false; mkRow 2 2 None false false] 2)) /\
  acyclic (feature_of_row <$> rows (mkStore [mkRow 1 1 None false false;
                                             mkRow 2 2 None false false] 2)) /\
  feature_add_dependency (mkStore [mkRow 1 1 None false false; mkRow 2 2 None false false] 2) 1 2 =
    Some (mkStore [mkRow 1 1 (Some [2]) false false; mkRow 2 2 None false false] 2) /\
  acyclic (feature_of_row <$> rows (mkStore [mkRow 1 1 (Some [2]) false false;
                                             mkRow 2 2 None false false] 2)).
Proof.
  assert (Hnd : NoDup (row_id <$> rows (mkStore [mkRow 1 1 None false false;
                                                 mkRow 2 2 None false false] 2)))
    by (apply (bool_decide_unpack _); vm_compute; reflexivity).
  assert (Hac : acyclic (feature_of_row <$> rows (mkStore [mkRow 1 1 None false false;
                                                          mkRow 2 2 None false false] 2))).
  { intros x Hx. destruct Hx as [x y (f & Hf & _ & Hb & _)|x y z (f & Hf & _ & Hb & _) _];
      repeat (apply elem_of_cons in Hf as [->|Hf]; [inversion Hb|]); inversion Hf. }
  assert (Ha : feature_add_dependency (mkStore [mkRow 1 1 None false false;
                 mkRow 2 2 None false false] 2) 1 2 =
               Some (mkStore [mkRow 1 1 (Some [2]) false false; mkRow 2 2 None false false] 2))
    by (vm_compute; reflexivity).
  split; [exact Hnd|]. split; [exact Hac|]. split; [exact Ha|].
  exact (add_dependency_keeps_acyclic _ _ 1 2 Hnd Hac Ha).
Defined.

(** A snapshot whose edges all decrease a rank is acyclic. *)
Lemma acyclic_of_rank (fs : list feature) (rk : Z -> Z) :
  Forall (fun f => Forall (fun b => rk b < rk (id f)) (dependencies f)) fs -> acyclic fs.
Proof.
  intros Hall.
  assert (Hlt : ∀ x y, tc (dep_edge fs) x y -> rk y < rk x).
  { induction 1 as [x y Hxy|x y z Hxy _ IH];
      destruct Hxy as (f & Hf & <- & Hb & _);
      rewrite Forall_forall in Hall; specialize (Hall f Hf);
      rewrite Forall_forall in Hall; specialize (Hall _ Hb); lia. }
  intros x Hx. specialize (Hlt x x Hx). lia.
Qed.

Lemma ids_test_feature (fid : Z) (ds : list Z) (fs : list feature) :
  ids (test_feature fid ds <$> fs) = ids fs.
Proof.
  unfold ids. rewrite <- list_fmap_compose. apply list_fmap_ext.
  intros i f _. unfold test_feature. simpl. by destruct (Z.eqb (id f) fid).
Qed.

Lemma dep_edge_update_test (rs : list row) (fid : Z) (ds : list Z) (dn : option (list Z))
  (a b : Z) :
  (∀ x, x ∈ default [] dn -> x ∈ ds) -> NoDup (row_id <$> rs) ->
  dep_edge (feature_of_row <$> update_row rs fid (set_deps dn)) a b ->
  step (feature_map (test_feature fid ds <$> (feature_of_row <$> rs))) a b.
Proof.
  intros Hdn Hnd (f & Hf & Ha & Hb & _).
  apply list_elem_of_fmap in Hf as (r' & -> & Hr').
  apply list_elem_of_In, in_map_iff in Hr' as (r & <- & Hr). apply list_elem_of_In in Hr.
  exists (test_feature fid ds (feature_of_row r)). split.
  - apply feature_map_lookup.
    + by rewrite ids_test_feature, ids_rows.
    + split; [by do 2 apply list_elem_of_fmap_2|].
      unfold test_feature. cbn. destruct (Z.eqb (row_id r) fid); cbn in Ha |- *; done.
  - unfold test_feature. cbn. destruct (Z.eqb (row_id r) fid); cbn in Hb |- *; [by apply Hdn|done].
Qed.

(** On a table with unique ids, feature_set_dependencies keeps the
    dependency graph of the stored features acyclic. *)
Theorem set_dependencies_keeps_acyclic (st st' : store) (fid : Z) (ds : list Z) :
  NoDup (row_id <$> rows st) -> acyclic (feature_of_row <$> rows st) ->
  feature_set_dependencies st fid ds = Some st' -> acyclic (feature_of_row <$> rows st').
Proof.
  intros Hnd Hac H. unfold feature_set_dependencies in H. cbv zeta in H.
  destruct (bool_decide (fid ∈ ds)); [discriminate|].
  destruct (Nat.ltb _ _); [discriminate|].
  destruct (negb _); [discriminate|].
  destruct (find_row (rows st) fid) as [fe|] eqn:Ef; [|discriminate].
  destruct (filter _ ds) as [|m ms] eqn:Em; [|discriminate].
  destruct (existsb _ _) eqn:Ex; [discriminate|].
  change (existsb (would_create_circular_dependency
            (test_feature fid ds <$> (feature_of_row <$> rows st)) fid) ds = false) in Ex.
  injection H as <-. cbn [rows].
  match goal with |- acyclic (feature_of_row <$> update_row _ _ (set_deps ?dn)) =>
    assert (Hdn : ∀ x, x ∈ default [] dn -> x ∈ ds); [|generalize dependent dn] end.
  { intros x Hx. destruct ds as [|y ys]; [cbn in Hx; by apply elem_of_nil in Hx|].
    destruct (sort_by num_cmp (y :: ys)) as [|z zs] eqn:Es; [cbn in Hx; by apply elem_of_nil in Hx|].
    cbn in Hx. unfold Datatypes.id in Hx. rewrite <- Es, sort_by_perm in Hx. done. }
  intros dn Hdn.
  set (tf := test_feature fid ds <$> (feature_of_row <$> rows st)) in *.
  assert (Hndt : NoDup (ids tf)) by (unfold tf; by rewrite ids_test_feature, ids_rows).
  assert (Hfid : fid ∈ ids tf).
  { unfold tf. rewrite ids_test_feature. by eapply find_row_ids. }
  assert (Hds : ∀ x, x ∈ ds -> x ∈ ids tf).
  { intros x Hx. unfold tf. rewrite ids_test_feature, ids_rows.
    apply (proj1 (filter_nil_iff _ ds) Em) in Hx.
    apply dec_stable in Hx. by apply elem_of_list_to_set in Hx. }
  unfold acyclic.
  apply (acyclic_replace_out (dep_edge (feature_of_row <$> rows st)) _ fid).
  - intros a b Hab Ha. by apply (dep_edge_update _ _ _ _ _ Hab).
  - intros b Hb Hr. pose proof (dep_edge_update _ _ _ _ _ Hb) as Hb'.
    destruct Hb' as [_ Hb']. destruct (Hb' eq_refl) as [Hbd _]. clear Hb'.
    apply Hdn in Hbd.
    assert (Hw : would_create_circular_dependency tf fid b = false).
    { destruct (would_create_circular_dependency tf fid b) eqn:Eb; [|done].
      exfalso. assert (Ht : existsb (would_create_circular_dependency tf fid) ds = true).
      { apply existsb_exists. exists b. split; [by apply list_elem_of_In|done]. }
      rewrite Ex in Ht. discriminate. }
    apply (would_create_false tf fid b Hndt Hfid (Hds b Hbd) Hw). unfold reaches.
    eapply rtc_congruence with (f := fun a => a); [|exact Hr].
    intros a c Hac'. unfold tf. by apply (dep_edge_update_test _ _ _ dn).
  - exact Hac.
Qed.

Lemma set_dependencies_keeps_acyclic_witness :
  NoDup (row_id <$> rows ex_store_123) /\ acyclic (feature_of_row <$> rows ex_store_123) /\
  feature_set_dependencies ex_store_123 1 [3; 2] = Some ex_store_123_set /\
  acyclic (feature_of_row <$> rows ex_store_123_set).
Proof.
  assert (Hnd : NoDup (row_id <$> rows ex_store_123))
    by (apply (bool_decide_unpack _); vm_compute; reflexivity).
  assert (Hac : acyclic (feature_of_row <$> rows ex_store_123)).
  { apply (acyclic_of_rank _ Z.opp). apply (bool_decide_unpack _). vm_compute. reflexivity. }
  assert (Hs : feature_set_dependencies ex_store_123 1 [3; 2] = Some ex_store_123_set)
    by (vm_compute; reflexivity).
  split; [exact Hnd|]. split; [exact Hac|]. split; [exact Hs|].
  apply (set_dependencies_keeps_acyclic _ _ 1 [3; 2] Hnd Hac Hs).
Defined.

(** ** feature_create_bulk and the stored graph *)

Section Layered.

Variables R R' : Z -> Z -> Prop.
Variable L : Z.

(** Edges of [R'] between nodes up to [L] are edges of [R]; edges out of a
    node above [L] go to a smaller node above [L]. *)
Lemma acyclic_layered :
  (∀ a b, R' a b -> (a <= L -> b <= L -> R a b) /\ (L < a -> L < b < a)) ->
  (∀ x, ~ tc R x x) -> ∀ x, ~ tc R' x x.
Proof.
  intros Hedge Hac.
  assert (Hp : ∀ x z, tc R' x z -> (L < x -> L < z < x) /\ (z <= L -> tc R x z)).
  { induction 1 as [x y Hxy|x y z Hxy _ [IH1 IH2]];
      destruct (Hedge x y Hxy) as [Hlo Hhi]; split.
    - done.
    - intros Hy. destruct (Z.le_gt_cases x L) as [Hx|Hx]; [by apply tc_once, Hlo|].
      specialize (Hhi Hx). lia.
    - intros Hx. specialize (Hhi Hx). specialize (IH1 (proj1 Hhi)). lia.
    - intros Hz. destruct (Z.le_gt_cases y L) as [Hy|Hy]; [|specialize (IH1 Hy); lia].
      destruct (Z.le_gt_cases x L) as [Hx|Hx]; [|specialize (Hhi Hx); lia].
      eapply tc_l; [by apply Hlo|by apply IH2]. }
  intros x Hx. destruct (Hp x x Hx) as [H1 H2].
  destruct (Z.le_gt_cases x L) as [Hle|Hgt]; [by apply (Hac x), H2|specialize (H1 Hgt); lia].
Qed.

End Layered.

Lemma bulk_insert_shape (st : store) (sp : Z) (i k : nat) :
  bulk_insert st sp i k =
    (mkStore (rows st ++ map (fun j => mkRow (last_rowid st + 1 + Z.of_nat j)
                                             (sp + Z.of_nat (i + j)) None false false) (seq 0 k))
             (last_rowid st + Z.of_nat k),
     map (fun j => last_rowid st + 1 + Z.of_nat j) (seq 0 k)).
Proof.
  revert st i. induction k as [|k IH]; intros st i.
  - cbn. rewrite app_nil_r, Z.add_0_r. by destruct st.
  - cbn [bulk_insert]. unfold insert_row at 1. rewrite IH. cbn [rows last_rowid seq map].
    rewrite <- seq_shift, !map_map, <- app_assoc. cbn [app].
    apply pair_equal_spec; split.
    + f_equal; [|lia]. f_equal. f_equal; [f_equal; lia|].
      apply map_ext. intros j. f_equal; lia.
    + f_equal; [lia|]. apply map_ext. intros j. lia.
Qed.

Lemma nth_created (L : Z) (n k : nat) :
  (k < n)%nat -> nth k (map (fun j => L + 1 + Z.of_nat j) (seq 0 n)) 0 = L + 1 + Z.of_nat k.
Proof.
  intros Hk. set (f := fun j : nat => L + 1 + Z.of_nat j).
  rewrite (nth_indep _ 0 (f 0%nat)) by (rewrite length_map, length_seq; lia).
  rewrite map_nth, seq_nth by lia. done.
Qed.

Lemma row_ids_update (rs : list row) (fid : Z) (dn : option (list Z)) :
  row_id <$> update_row rs fid (set_deps dn) = row_id <$> rs.
Proof. rewrite <- !ids_rows. apply ids_rows_update. Qed.

Lemma update_row_app (rs rs' : list row) (fid : Z) (upd : row -> row) :
  update_row (rs ++ rs') fid upd = update_row rs fid upd ++ update_row rs' fid upd.
Proof. apply map_app. Qed.

Lemma new_row_ids (L : Z) (p : nat -> Z) (l : list nat) :
  row_id <$> map (fun j => mkRow (L + 1 + Z.of_nat j) (p j) None false false) l =
  map (fun j => L + 1 + Z.of_nat j) l.
Proof. induction l as [|j l IH]; [done|]. cbn. f_equal. exact IH. Qed.

(** The third pass of feature_create_bulk leaves the rows that existed
    before untouched and gives each new row dependencies between [L] and
    its own id. *)
Lemma bulk_link_shape (old N : list row) (L : Z) (n i : nat) (specs : list (list Z)) :
  (∀ r, r ∈ old -> row_id r <= L) ->
  Forall (fun r => L < row_id r /\
            ∀ b, b ∈ default [] (row_dependencies r) -> L < b < row_id r) N ->
  (i + length specs <= n)%nat -> bulk_valid_from i specs = true ->
  ∃ N', bulk_link (old ++ N) (map (fun j => L + 1 + Z.of_nat j) (seq 0 n)) i specs = old ++ N' /\
    row_id <$> N' = row_id <$> N /\
    Forall (fun r => L < row_id r /\
              ∀ b, b ∈ default [] (row_dependencies r) -> L < b < row_id r) N'.
Proof.
  intros Hold. revert i N. induction specs as [|indices specs IH]; intros i N HN Hlen Hv.
  { by exists N. }
  cbn [bulk_valid_from] in Hv. apply andb_prop in Hv as [Hok Hv].
  cbn [length] in Hlen. cbn [bulk_link].
  destruct indices as [|x xs].
  { apply (IH (S i) N HN); [lia|done]. }
  rewrite update_row_app.
  rewrite nth_created by lia.
  rewrite (update_row_absent old).
  2:{ intros Hin. apply list_elem_of_fmap in Hin as (r & Hr & Hr'). specialize (Hold r Hr'). lia. }
  set (d := sort_by num_cmp _).
  destruct (IH (S i) (update_row N (L + 1 + Z.of_nat i) (set_deps (Some d)))) as (N' & E & Hid & HN');
    [| lia | done |].
  - unfold update_row. apply Forall_forall. intros r' Hr'.
    apply list_elem_of_In, in_map_iff in Hr' as (r & <- & Hr). apply list_elem_of_In in Hr.
    rewrite Forall_forall in HN. destruct (HN r Hr) as [Hr1 Hr2].
    destruct (Z.eqb_spec (row_id r) (L + 1 + Z.of_nat i)) as [Eq|]; [|done].
    cbn [row_id row_dependencies set_deps default]. split; [done|].
    intros b Hb. unfold d in Hb. rewrite sort_by_perm in Hb.
    apply list_elem_of_In, in_map_iff in Hb as (idx & <- & Hidx).
    unfold bulk_indices_ok in Hok. apply andb_prop in Hok as [_ Hok].
    rewrite forallb_forall in Hok. specialize (Hok idx Hidx).
    apply andb_prop in Hok as [H0 H1]. apply Z.leb_le in H0. apply Z.ltb_lt in H1.
    rewrite nth_created by lia. rewrite Eq. lia.
  - exists N'. split; [done|]. split; [|done]. rewrite Hid. apply row_ids_update.
Qed.

Lemma bulk_edge (old N : list row) (L : Z) (a b : Z) :
  (∀ r, r ∈ old -> row_id r <= L) ->
  Forall (fun r => L < row_id r /\
            ∀ b, b ∈ default [] (row_dependencies r) -> L < b < row_id r) N ->
  dep_edge (feature_of_row <$> (old ++ N)) a b ->
  (a <= L -> b <= L -> dep_edge (feature_of_row <$> old) a b) /\ (L < a -> L < b < a).
Proof.
  intros Hold HN (f & Hf & Ha & Hb & Hi). rewrite Forall_forall in HN.
  rewrite fmap_app, elem_of_app in Hf. destruct Hf as [Hf|Hf];
    apply list_elem_of_fmap in Hf as (r & -> & Hr).
  - pose proof (Hold r Hr) as Hr'. cbn in Ha. split; [|lia]. intros _ Hb'.
    exists (feature_of_row r). split; [by apply list_elem_of_fmap_2|].
    split; [done|]. split; [done|].
    rewrite ids_rows, fmap_app, elem_of_app in Hi. rewrite ids_rows.
    destruct Hi as [Hi|Hi]; [done|].
    apply list_elem_of_fmap in Hi as (r' & -> & Hr''). destruct (HN r' Hr''). lia.
  - destruct (HN r Hr) as [Hr1 Hr2]. cbn in Ha, Hb. specialize (Hr2 b Hb). lia.
Qed.

(** On a table with unique ids none above the last row id,
    feature_create_bulk keeps the ids unique and below the new last row id,
    and keeps the dependency graph acyclic. *)
Theorem create_bulk_keeps_invariants (st st' : store) (specs : list (list Z)) :
  NoDup (row_id <$> rows st) -> (∀ r, r ∈ rows st -> row_id r <= last_rowid st) ->
  acyclic (feature_of_row <$> rows st) ->
  feature_create_bulk st specs = Some st' ->
  NoDup (row_id <$> rows st') /\ (∀ r, r ∈ rows st' -> row_id r <= last_rowid st') /\
  acyclic (feature_of_row <$> rows st').
Proof.
  intros Hnd Hle Hac H. unfold feature_create_bulk in H.
  destruct (bulk_valid_from O specs) eqn:Hv; [|discriminate].
  rewrite bulk_insert_shape in H. cbn zeta in H. injection H as <-. cbn [rows last_rowid].
  set (L := last_rowid st) in *. set (n := length specs).
  set (N := map (fun j => mkRow (L + 1 + Z.of_nat j) (next_priority (rows st) + Z.of_nat j)
                                 None false false) (seq 0 n)).
  assert (HN : Forall (fun r => L < row_id r /\
            ∀ b, b ∈ default [] (row_dependencies r) -> L < b < row_id r) N).
  { unfold N. apply Forall_forall. intros r Hr.
    apply list_elem_of_In, in_map_iff in Hr as (j & <- & _). cbn. split; [lia|].
    intros b Hb. by apply elem_of_nil in Hb. }
  destruct (bulk_link_shape (rows st) N L n O specs Hle HN) as (N' & E & Hid & HN');
    [unfold n; lia|done|].
  rewrite E.
  assert (HidN : row_id <$> N = map (fun j => L + 1 + Z.of_nat j) (seq 0 n)).
  { unfold N. apply new_row_ids. }
  split; [|split].
  - rewrite fmap_app, Hid, HidN. apply NoDup_app. split; [done|]. split.
    + intros x Hx Hx'. apply list_elem_of_fmap in Hx as (r & -> & Hr). specialize (Hle r Hr).
      apply list_elem_of_In, in_map_iff in Hx' as (j & Hj & _). lia.
    + apply NoDup_ListNoDup, Finite.Injective_map_NoDup; [intros j j' Hj; lia|apply seq_NoDup].
  - intros r Hr. apply elem_of_app in Hr as [Hr|Hr]; [specialize (Hle r Hr); lia|].
    assert (Hin : row_id r ∈ row_id <$> N') by (by apply list_elem_of_fmap_2).
    rewrite Hid, HidN in Hin. apply list_elem_of_In, in_map_iff in Hin as (j & Hj & Hj').
    apply in_seq in Hj'. lia.
  - unfold acyclic. apply (acyclic_layered (dep_edge (feature_of_row <$> rows st)) _ L).
    + intros a b Hab. by apply (bulk_edge (rows st) N' L a b).
    + exact Hac.
Qed.

Lemma create_bulk_keeps_invariants_witness :
  NoDup (row_id <$> rows ex_store_123) /\
  (∀ r, r ∈ rows ex_store_123 -> row_id r <= last_rowid ex_store_123) /\
  acyclic (feature_of_row <$> rows ex_store_123) /\
  feature_create_bulk ex_store_123 [[]; [0]] = Some ex_store_123_bulk /\
  NoDup (row_id <$> rows ex_store_123_bulk) /\
  (∀ r, r ∈ rows ex_store_123_bulk -> row_id r <= last_rowid ex_store_123_bulk) /\
  acyclic (feature_of_row <$> rows ex_store_123_bulk).
Proof.
  assert (Hnd : NoDup (row_id <$> rows ex_store_123))
    by (apply (bool_decide_unpack _); vm_compute; reflexivity).
  assert (Hle : ∀ r, r ∈ rows ex_store_123 -> row_id r <= last_rowid ex_store_123).
  { apply Forall_forall. apply (bool_decide_unpack _). vm_compute. reflexivity. }
  assert (Hac : acyclic (feature_of_row <$> rows ex_store_123)).
  { apply (acyclic_of_rank _ Z.opp). apply (bool_decide_unpack _). vm_compute. reflexivity. }
  assert (Hb : feature_create_bulk ex_store_123 [[]; [0]] = Some ex_store_123_bulk)
    by (vm_compute; reflexivity).
  do 3 (split; [assumption|]). split; [exact Hb|].
  apply (create_bulk_keeps_invariants _ _ [[]; [0]] Hnd Hle Hac Hb).
Defined.

(** ** parse_sqlite_error and to_error_result *)

Lemma prefix_spec (sub s : String.string) :
  String.prefix sub s = true <-> ∃ q, s = String.append sub q.
Proof.
  revert s. induction sub as [|a sub IH]; intros s.
  - split; [intros _; by exists s|intros _; by destruct s].
  - destruct s as [|b s]; cbn.
    + split; [discriminate|]. intros [q Hq]. discriminate.
    + destruct (Ascii.ascii_dec a b) as [<-|Hne].
      * rewrite IH. split; intros [q Hq]; exists q; [by rewrite Hq|by injection Hq].
      * split; [discriminate|]. intros [q Hq]. injection Hq as Hq _. congruence.
Qed.

(** [includes s sub] holds exactly when [sub] occurs in [s]. *)
Lemma includes_spec (s sub : String.string) :
  includes s sub = true <-> ∃ p q, s = String.append p (String.append sub q).
Proof.
  induction s as [|c s IH].
  - cbn [includes]. rewrite orb_false_r, prefix_spec. split.
    + intros [q Hq]. by exists String.EmptyString, q.
    + intros (p & q & Hpq). destruct p; [by exists q|discriminate].
  - cbn [includes]. rewrite orb_true_iff, prefix_spec, IH. split.
    + intros [[q Hq]|(p & q & Hpq)].
      * by exists String.EmptyString, q.
      * exists (String.String c p), q. by rewrite Hpq.
    + intros (p & q & Hpq). destruct p as [|c' p].
      * left. by exists q.
      * right. injection Hpq as _ Hpq. by exists p, q.
Qed.

Lemma includes_false (s sub : String.string) :
  includes s sub = false <-> ~ ∃ p q, s = String.append p (String.append sub q).
Proof. rewrite <- includes_spec. destruct (includes s sub); intuition congruence. Qed.

Lemma ascii_to_lower_idem (c : Ascii.ascii) : ascii_to_lower (ascii_to_lower c) = ascii_to_lower c.
Proof.
  destruct c as [b0 b1 b2 b3 b4 b5 b6 b7].
  destruct b0, b1, b2, b3, b4, b5, b6, b7; vm_compute; reflexivity.
Qed.

Lemma to_lower_idem (s : String.string) : to_lower (to_lower s) = to_lower s.
Proof. induction s as [|c s IH]; [done|]. cbn. by rewrite ascii_to_lower_idem, IH. Qed.

Lemma parse_sqlite_error_some (e : js_error) (i : error_info) :
  parse_sqlite_error e = Some i -> details i = Some (error_message e) /\ code i ∈ sqlite_codes.
Proof.
  unfold parse_sqlite_error. cbv zeta.
  destruct (includes _ "unique"%string); [intros [= <-]; split; [done|by repeat constructor]|].
  destruct (includes _ "check constraint"%string);
    [intros [= <-]; split; [done|by repeat constructor]|].
  destruct (includes _ "foreign key"%string);
    [intros [= <-]; split; [done|by repeat constructor]|].
  destruct (includes _ "locked"%string || includes _ "busy"%string);
    [intros [= <-]; split; [done|by repeat constructor]|discriminate].
Qed.

(** parse_sqlite_error answers null exactly when none of its five keywords
    occurs in the lower-cased message; otherwise the details are the
    original message and the code one of four. Lower-casing the message
    first changes only the details. to_error_result always returns one of
    those four codes or UNKNOWN_ERROR, the latter exactly when the value
    is not an Error or parse_sqlite_error gives null. *)
Theorem sqlite_error_spec :
  (∀ e, parse_sqlite_error e = None <->
        ∀ kw, kw ∈ sqlite_keywords ->
              ~ ∃ p q, to_lower (error_message e) = String.append p (String.append kw q)) /\
  (∀ e i, parse_sqlite_error e = Some i ->
          details i = Some (error_message e) /\ code i ∈ sqlite_codes) /\
  (∀ e, parse_sqlite_error (mkJsError (to_lower (error_message e)) (error_stack e)) =
        (fun i => mkErrorInfo (code i) (message i) (Some (to_lower (error_message e)))) <$>
          parse_sqlite_error e) /\
  (∀ err, code (to_error_result err) ∈ "UNKNOWN_ERROR"%string :: sqlite_codes /\
          (code (to_error_result err) = "UNKNOWN_ERROR"%string <->
           match err with
           | caught_error e => parse_sqlite_error e = None
           | caught_other _ => True
           end)).
Proof.
  split; [|split; [|split]].
  - intros e. unfold parse_sqlite_error. cbv zeta. split.
    + destruct (includes _ "unique"%string) eqn:E1; [discriminate|].
      destruct (includes _ "check constraint"%string) eqn:E2; [discriminate|].
      destruct (includes _ "foreign key"%string) eqn:E3; [discriminate|].
      destruct (includes _ "locked"%string) eqn:E4; [discriminate|].
      destruct (includes _ "busy"%string) eqn:E5; [discriminate|].
      intros _ kw Hkw. unfold sqlite_keywords in Hkw.
      repeat (apply elem_of_cons in Hkw as [->|Hkw]; [by apply includes_false|]).
      by apply elem_of_nil in Hkw.
    + intros Hall.
      assert (Hf : ∀ kw, kw ∈ sqlite_keywords -> includes (to_lower (error_message e)) kw = false)
        by (intros kw Hkw; by apply includes_false, Hall).
      unfold sqlite_keywords in Hf.
      rewrite !Hf by (by repeat constructor). done.
  - apply parse_sqlite_error_some.
  - intros e. unfold parse_sqlite_error. cbv zeta. cbn [error_message]. rewrite to_lower_idem.
    destruct (includes _ "unique"%string); [done|].
    destruct (includes _ "check constraint"%string); [done|].
    destruct (includes _ "foreign key"%string); [done|].
    by destruct (includes _ "locked"%string || includes _ "busy"%string).
  - intros [e|shown]; cbn.
    + destruct (parse_sqlite_error e) as [i|] eqn:Ep.
      * destruct (parse_sqlite_error_some e i Ep) as [_ Hc]. split; [by apply elem_of_cons; right|].
        split; [|discriminate]. intros Hu. rewrite Hu in Hc. unfold sqlite_codes in Hc.
        repeat (apply elem_of_cons in Hc as [Hc|Hc]; [discriminate|]). by apply elem_of_nil in Hc.
      * cbn. split; [by constructor|done].
    + split; [by constructor|done].
Qed.

(** ** The other mutating tools keep the table well-formed *)

Lemma acyclic_sub (fs fs' : list feature) :
  (∀ a b, dep_edge fs' a b -> dep_edge fs a b) -> acyclic fs -> acyclic fs'.
Proof.
  intros Hsub Hac x Hx. apply (Hac x).
  eapply tc_congruence with (f := fun a => a); [|exact Hx]. exact Hsub.
Qed.

Lemma row_ids_update_gen (rs : list row) (fid : Z) (upd : row -> row) :
  (∀ r, row_id (upd r) = row_id r) -> row_id <$> update_row rs fid upd = row_id <$> rs.
Proof.
  intros Hu. unfold update_row. induction rs as [|r rs IH]; [done|]. cbn.
  f_equal; [by destruct (Z.eqb (row_id r) fid)|exact IH].
Qed.

(** An update that keeps ids and only drops dependencies of the rows it
    rewrites keeps a table well-formed. *)
Lemma table_ok_update (st : store) (fid : Z) (upd : row -> row) :
  (∀ r, row_id (upd r) = row_id r) ->
  (∀ r b, r ∈ rows st -> row_id r = fid ->
     b ∈ default [] (row_dependencies (upd r)) -> b ∈ default [] (row_dependencies r)) ->
  table_ok st -> table_ok (mkStore (update_row (rows st) fid upd) (last_rowid st)).
Proof.
  intros Hid Hdep (Hnd & Hle & Hac). unfold table_ok. cbn [rows last_rowid].
  split; [|split].
  - by rewrite row_ids_update_gen.
  - intros r' Hr'. apply list_elem_of_In, in_map_iff in Hr' as (r & <- & Hr).
    apply list_elem_of_In in Hr. destruct (Z.eqb (row_id r) fid); [rewrite Hid|]; by apply Hle.
  - apply (acyclic_sub (feature_of_row <$> rows st)); [|exact Hac].
    intros a b (f & Hf & Ha & Hb & Hi).
    rewrite ids_rows, row_ids_update_gen in Hi by done. rewrite <- ids_rows in Hi.
    apply list_elem_of_fmap in Hf as (r' & -> & Hr').
    apply list_elem_of_In, in_map_iff in Hr' as (r & <- & Hr). apply list_elem_of_In in Hr.
    exists (feature_of_row r). split; [by apply list_elem_of_fmap_2|].
    destruct (Z.eqb_spec (row_id r) fid) as [E|E]; cbn in Ha, Hb |- *; [|done].
    split; [by rewrite <- Hid|]. split; [by apply Hdep|done].
Qed.

Lemma table_ok_update_flags (st : store) (fid : Z) (upd : row -> row) :
  (∀ r, row_id (upd r) = row_id r /\ row_dependencies (upd r) = row_dependencies r) ->
  table_ok st -> table_ok (mkStore (update_row (rows st) fid upd) (last_rowid st)).
Proof.
  intros Hu. apply table_ok_update; [apply Hu|]. intros r b _ _. by rewrite (proj2 (Hu r)).
Qed.

Lemma reread_table_ok (rs : list row) (last fid : Z) (st' : store) (r : row) :
  table_ok (mkStore rs last) -> reread rs last fid = Some (st', r) -> table_ok st'.
Proof. intros Hok H. by apply reread_store in H as [-> _]. Qed.

(** feature_create, feature_skip, feature_remove_dependency and the five
    status tools keep a well-formed table well-formed. *)
Theorem tools_keep_table_ok :
  (∀ st, table_ok st -> table_ok (fst (feature_create st))) /\
  (∀ st fid st', table_ok st -> feature_skip st fid = Some st' -> table_ok st') /\
  (∀ st fid d st', table_ok st -> feature_remove_dependency st fid d = Some st' ->
     table_ok st') /\
  (∀ st fid st', table_ok st -> feature_mark_passing st fid = Some st' -> table_ok st') /\
  (∀ st fid st' r, table_ok st -> feature_mark_failing st fid = Some (st', r) -> table_ok st') /\
  (∀ st fid st' r, table_ok st -> feature_mark_in_progress st fid = Some (st', r) ->
     table_ok st') /\
  (∀ st fid st' r b, table_ok st -> feature_claim_and_get st fid = Some (st', r, b) ->
     table_ok st') /\
  (∀ st fid st' r, table_ok st -> feature_clear_in_progress st fid = Some (st', r) ->
     table_ok st').
Proof.
  split; [|split; [|split; [|split; [|split; [|split; [|split]]]]]].
  - intros st (Hnd & Hle & Hac). unfold table_ok, feature_create, insert_row. cbn [fst rows last_rowid].
    set (L := last_rowid st) in *.
    set (N := [mkRow (L + 1) (next_priority (rows st)) None false false]).
    assert (HN : Forall (fun r => L < row_id r /\
              ∀ b, b ∈ default [] (row_dependencies r) -> L < b < row_id r) N).
    { unfold N. apply Forall_singleton. cbn. split; [lia|]. intros b Hb.
      by apply elem_of_nil in Hb. }
    split; [|split].
    + rewrite fmap_app. apply NoDup_app. split; [done|]. split; [|apply NoDup_singleton].
      intros x Hx Hx'. apply list_elem_of_fmap in Hx as (r & -> & Hr). specialize (Hle r Hr).
      cbn in Hx'. apply list_elem_of_singleton in Hx'. lia.
    + intros r Hr. apply elem_of_app in Hr as [Hr|Hr]; [specialize (Hle r Hr); lia|].
      apply list_elem_of_singleton in Hr as ->. cbn. lia.
    + unfold acyclic. apply (acyclic_layered (dep_edge (feature_of_row <$> rows st)) _ L).
      * intros a b Hab. by apply (bulk_edge (rows st) N L a b).
      * exact Hac.
  - intros st fid st' Hok H. unfold feature_skip in H.
    destruct (find_row (rows st) fid); [|discriminate].
    destruct (row_passes _); [discriminate|]. cbv zeta in H. injection H as <-.
    by apply table_ok_update_flags.
  - intros st fid d st' Hok H. unfold feature_remove_dependency in H.
    destruct (find_row (rows st) fid) as [fe|] eqn:Ef; [|discriminate].
    destruct (negb _); [discriminate|]. cbv zeta in H. injection H as <-.
    apply table_ok_update; [done| |done].
    intros r b Hr Hid Hb. rewrite (row_unique (rows st) fid fe r (proj1 Hok) Ef Hr Hid).
    cbn [set_deps row_dependencies] in Hb.
    revert Hb. destruct (filter _ _) as [|x xs] eqn:El; cbn.
    + intros Hb. by apply elem_of_nil in Hb.
    + unfold Datatypes.id. rewrite <- El. intros Hb.
      by apply list_elem_of_filter in Hb as [_ Hb].
  - intros st fid st' Hok H. unfold feature_mark_passing in H.
    destruct (find_row (rows st) fid); [|discriminate]. injection H as <-.
    by apply table_ok_update_flags.
  - intros st fid st' r Hok H. unfold feature_mark_failing in H.
    destruct (find_row (rows st) fid); [|discriminate].
    eapply reread_table_ok; [|exact H].
    apply table_ok_update_flags; [intros; by split|exact Hok].
  - intros st fid st' r Hok H. unfold feature_mark_in_progress in H.
    destruct (find_row (rows st) fid) as [fe|]; [|discriminate].
    destruct (row_passes fe); [discriminate|]. destruct (row_in_progress fe); [discriminate|].
    eapply reread_table_ok; [|exact H].
    apply table_ok_update_flags; [intros; by split|exact Hok].
  - intros st fid st' r b Hok H. unfold feature_claim_and_get in H.
    destruct (find_row (rows st) fid) as [fe|]; [|discriminate].
    destruct (row_passes fe); [discriminate|]. cbv zeta in H.
    destruct (reread _ _ _) as [[st1 r1]|] eqn:Er; [|discriminate].
    injection H as <- <- <-. apply reread_store in Er as [-> _].
    destruct (row_in_progress fe); [by destruct st|].
    apply table_ok_update_flags; [intros; by split|exact Hok].
  - intros st fid st' r Hok H. unfold feature_clear_in_progress in H.
    destruct (find_row (rows st) fid); [|discriminate].
    eapply reread_table_ok; [|exact H].
    apply table_ok_update_flags; [intros; by split|exact Hok].
Qed.
